(** * boring-podcast: the publish pipeline, its progress log, and the feed

    A shallow embedding of

    - [tools/publish.py]   ([load_metadata], [log_progress], [publish_episode], [main]),
    - [tools/audio.py]     ([extract_audio]),
    - [tools/rss_feed.py]  ([load_podcast_config], [update_rss_feed]),
    - [kurt/api/podcast.py] ([_podcast_config], [_episode_dirs], [_load_episode]
      with its publish-log reader, [list_episodes], [get_episode],
      [pipeline_status]),
    - [tools/ingest_youtube.py] ([slugify], [get_next_episode_number]),

    followed by the properties of the pipeline established on it.

    Conventions of the model.

    - Text is [string]; a character is one code point below 256.
    - An episode directory is a finite map from file name to file content.
      File names are plain names, used as keys ([episode_dir / name] is the
      key [name]); [Path.exists] is [is_Some (fs !! name)].
    - A parsed TOML document is a map from table name to table, a table a map
      from key to scalar.  [tomllib.load] itself is a parameter of the
      environment.
    - The services the executors call (ffmpeg, the transcription and text
      generation services, the video host) are parameters of the environment:
      what the call returned or raised, and what it left in its output file.
    - [print] is not modelled. *)

From Stdlib Require Import ZArith Ascii String List Lia.
From stdpp Require Import base option list gmap sets strings pretty sorting.


(** ** Text helpers (Python [str] operations used by the sources) *)

Module Text.

(** [' ' * n] *)
Fixpoint spaces (n : nat) : string :=
  match n with
  | O => ""
  | S n' => String " " (spaces n')
  end.

(** [f"{s:<w}"]: left-aligned in a field of minimum width [w]; longer
    text is kept whole. *)
Definition ljust (w : nat) (s : string) : string :=
  s +:+ spaces (w - String.length s).

(** [s[:n]] *)
Fixpoint take (n : nat) (s : string) : string :=
  match n, s with
  | S n', String c s' => String c (take n' s')
  | _, _ => ""
  end.

(** [f"{n:02d}"], as [strftime] prints month, day, hour, minute, second. *)
Definition two_digits (n : nat) : string :=
  if decide (n < 10) then "0" +:+ pretty n else pretty n.

Definition newline : ascii := ascii_of_nat 10.
Definition nl : string := String newline "".

(** [c in s] for a character. *)
Fixpoint mem (c : ascii) (s : string) : bool :=
  match s with
  | "" => false
  | String d s' => if Ascii.eqb c d then true else mem c s'
  end.

(** tests on the code of a character *)
Definition code_in (lo hi : nat) (c : ascii) : bool :=
  Nat.leb lo (nat_of_ascii c) && Nat.leb (nat_of_ascii c) hi.

Definition code_is (n : nat) (c : ascii) : bool :=
  Nat.eqb (nat_of_ascii c) n.

(** [s.startswith(".")] *)
Definition starts_with_dot (s : string) : bool :=
  match s with
  | String "." _ => true
  | _ => false
  end.

End Text.

(** ** TOML documents, as the sources read them *)

Inductive tval : Type :=
  | VStr (s : string)
  | VBool (b : bool)
  | VInt (z : Z).

#[global] Instance tval_eq_dec : EqDecision tval.
Proof. solve_decision. Defined.

(** Python truthiness of a scalar ([if v:], [a or b]). *)
Definition truthy (v : tval) : bool :=
  match v with
  | VStr s => negb (String.eqb s "")
  | VBool b => b
  | VInt z => negb (Z.eqb z 0)
  end.

(** [str(v)] *)
Definition str_tval (v : tval) : string :=
  match v with
  | VStr s => s
  | VBool true => "True"
  | VBool false => "False"
  | VInt z => pretty z
  end.

Abbreviation table := (gmap string tval).
Abbreviation toml := (gmap string (gmap string tval)).

(** ** Exceptions *)

Inductive exn : Type :=
  | FileNotFoundError (msg : string)
  | KeyError (key : string)
  | TypeError (msg : string)
  | RuntimeError (msg : string)
  | TOMLDecodeError (msg : string)
  | ServiceError (msg : string).

(** [str(e)].  A [KeyError] prints the [repr] of its key. *)
Definition str_exn (e : exn) : string :=
  match e with
  | FileNotFoundError m | TypeError m | RuntimeError m
  | TOMLDecodeError m | ServiceError m => m
  | KeyError k => "'" +:+ k +:+ "'"
  end.

(** [[Errno 2]], as [Path.stat] and [open] raise it. *)
Definition enoent (path : string) : exn :=
  FileNotFoundError ("[Errno 2] No such file or directory: '" +:+ path +:+ "'").

(** ** A small state-and-exception monad for the effectful code *)

Inductive res (A : Type) : Type :=
  | Ok (a : A)
  | Raise (e : exn).
Arguments Ok {A} a.
Arguments Raise {A} e.

Section Monad.
Context {S : Type}.

Definition M (A : Type) : Type := S → res A * S.

Definition ret {A} (a : A) : M A := λ σ, (Ok a, σ).

Definition bind {A B} (m : M A) (k : A → M B) : M B :=
  λ σ, match m σ with
       | (Ok a, σ') => k a σ'
       | (Raise e, σ') => (Raise e, σ')
       end.

Definition raise {A} (e : exn) : M A := λ σ, (Raise e, σ).

(** [try: body except Exception as e: handler(e)] *)
Definition try_except {A} (body : M A) (handler : exn → M A) : M A :=
  λ σ, match body σ with
       | (Ok a, σ') => (Ok a, σ')
       | (Raise e, σ') => handler e σ'
       end.

Definition get : M S := λ σ, (Ok σ, σ).
Definition modify (f : S → S) : M unit := λ σ, (Ok tt, f σ).

End Monad.

Declare Scope py_scope.
Delimit Scope py_scope with py.
Notation "x <- m ;; k" := (bind m (λ x, k))
  (at level 100, m at next level, right associativity) : py_scope.
Notation "m ;;; k" := (bind m (λ _, k))
  (at level 100, right associativity) : py_scope.

(** ** The world the tools run in *)

(** A reading of [datetime.now(timezone.utc)]. *)
Record datetime : Type := Datetime {
  year : nat; month : nat; day : nat;
  hour : nat; minute : nat; second : nat
}.

(** [dt.strftime("%Y-%m-%d %H:%M:%S UTC")] *)
Definition strftime (dt : datetime) : string :=
  pretty (year dt) +:+ "-" +:+ Text.two_digits (month dt) +:+ "-"
  +:+ Text.two_digits (day dt) +:+ " " +:+ Text.two_digits (hour dt) +:+ ":"
  +:+ Text.two_digits (minute dt) +:+ ":" +:+ Text.two_digits (second dt)
  +:+ " UTC".

(** One call of [log_progress]: the clock reading it took and its three
    arguments. *)
Record entry : Type := Entry {
  ts : datetime;
  step : string;
  status : string;
  detail : string
}.

(** What [subprocess.run(["ffmpeg", ...])] did: its return code, its
    standard error, and the content of the output file it left, if any. *)
Record ffmpeg_run : Type := FfmpegRun {
  returncode : Z;
  stderr : string;
  ffmpeg_output : option string
}.

(** An entry under [episodes/]. *)
Inductive node : Type :=
  | File (content : string)
  | Dir (files : gmap string string).

(** The repository tree that [tools/rss_feed.py] reads: its root path,
    [podcast.toml] if present, and the listing of [episodes/] if that
    directory exists. *)
Record workspace : Type := Workspace {
  root : string;
  podcast_toml : option string;
  episodes : option (gmap string node)
}.

(** An item of the feed, as [fg.add_entry()] and the setters build it. *)
Record feed_entry : Type := FeedEntry {
  fe_id : string;
  fe_title : tval;
  fe_description : tval;
  fe_enclosure : string * string * string;
  fe_itunes_episode : option string;
  fe_content : option string
}.

(** The feed document handed to [fg.rss_file]. *)
Record feed_doc : Type := FeedDoc {
  fd_title : tval;
  fd_link : tval;
  fd_description : tval;
  fd_language : tval;
  fd_author : tval;
  fd_email : tval;
  fd_category : tval;
  fd_image : option tval;
  fd_entries : list feed_entry
}.

(** Everything outside the program that one run depends on. *)
Record env : Type := Env {
  (** [tomllib.load]; [None] when the text is not valid TOML *)
  toml_load : string → option toml;
  (** the clock: the reading taken by the [n]-th [log_progress] call *)
  clock : nat → datetime;
  (** [f"{size / 1_000_000:.1f} MB"] and [f"{size / 1_000:.0f} KB"]:
      floating-point formatting, kept abstract *)
  fmt_mb : nat → string;
  fmt_kb : nat → string;
  (** the ffmpeg subprocess of [extract_audio] *)
  ffmpeg : ffmpeg_run;
  (** the transcription service behind [generate_transcript]: the text,
      or the exception raised on the way *)
  whisper : exn + string;
  (** the generation service behind [generate_show_notes] *)
  notes_service : exn + string;
  (** the video host behind [upload_to_youtube]: the video id *)
  youtube_service : exn + string;
  (** the repository tree read by [update_rss_feed] *)
  repo : workspace
}.

(** The state a run acts on: the episode directory, the feed document last
    written to [feed/podcast.xml], and the [log_progress] calls made so far
    (each one appended a line to [publish.log] and printed it). *)
Record state : Type := State {
  fs : gmap string string;
  feed_xml : option feed_doc;
  calls : list entry
}.

Abbreviation Py := (@M state).

(** [(episode_dir / name).exists()] *)
Definition path_exists (name : string) : Py bool :=
  λ σ, (Ok (bool_decide (is_Some (fs σ !! name))), σ).

(** [(episode_dir / name).stat().st_size] *)
Definition stat_size (dir name : string) : Py nat :=
  λ σ, match fs σ !! name with
       | Some content => (Ok (String.length content), σ)
       | None => (Raise (enoent (dir +:+ "/" +:+ name)), σ)
       end.

(** [(episode_dir / name).read_text()] *)
Definition read_text (dir name : string) : Py string :=
  λ σ, match fs σ !! name with
       | Some content => (Ok content, σ)
       | None => (Raise (enoent (dir +:+ "/" +:+ name)), σ)
       end.

(** [with open(episode_dir / name, "w") as f: f.write(content)] *)
Definition write_file (name content : string) : Py unit :=
  modify (λ σ, State (<[name := content]> (fs σ)) (feed_xml σ) (calls σ)).

(** [with open(episode_dir / name, "a") as f: f.write(text)] *)
Definition append_file (name text : string) : Py unit :=
  modify (λ σ, State (<[name := default "" (fs σ !! name) +:+ text]> (fs σ))
                     (feed_xml σ) (calls σ)).

Local Open Scope py_scope.

(** [t[k]] on a table, and on a document *)
Definition key {S} (t : table) (k : string) : @M S tval :=
  match t !! k with
  | Some v => ret v
  | None => raise (KeyError k)
  end.

Definition section {S} (doc : toml) (k : string) : @M S table :=
  match doc !! k with
  | Some t => ret t
  | None => raise (KeyError k)
  end.

(** ** [tools/audio.py] *)

Module Audio.

(** [extract_audio(video_path, audio_path)], for files [video] and [audio]
    of the directory at [dir]. *)
Definition extract_audio (E : env) (dir video audio : string) : Py unit :=
  present <- path_exists video;;
  if negb present then
    raise (FileNotFoundError ("Video not found: " +:+ dir +:+ "/" +:+ video))
  else
    let result := ffmpeg E in
    (match ffmpeg_output result with
     | Some content => write_file audio content
     | None => ret tt
     end);;;
    if negb (returncode result =? 0)%Z then
      raise (RuntimeError ("ffmpeg failed: " +:+ Text.take 500 (stderr result)))
    else ret tt.

End Audio.

(** ** [tools/transcript.py], [tools/show_notes.py], [tools/youtube_upload.py]

    The parts of these executors that the pipeline observes: the guard on
    the input file, the outcome of the remote call, and the file written on
    success. *)

Module Transcript.

Definition generate_transcript (E : env) (dir audio output : string) : Py unit :=
  present <- path_exists audio;;
  if negb present then
    raise (FileNotFoundError ("Audio not found: " +:+ dir +:+ "/" +:+ audio))
  else
    match whisper E with
    | inl e => raise e
    | inr transcript_text =>
        write_file output
          ("# Transcript" +:+ Text.nl +:+ Text.nl
           +:+ "*Auto-generated from " +:+ audio +:+ "*" +:+ Text.nl +:+ Text.nl
           +:+ transcript_text)
    end.

End Transcript.

Module ShowNotes.

Definition generate_show_notes (E : env) (dir transcript output : string)
    (metadata : toml) : Py unit :=
  _ <- read_text dir transcript;;
  let ep := default ∅ (metadata !! "episode") in
  let title := default (VStr "Untitled Episode") (ep !! "title") in
  match notes_service E with
  | inl e => raise e
  | inr show_notes =>
      write_file output
        ("# " +:+ str_tval title +:+ " - Show Notes" +:+ Text.nl +:+ Text.nl
         +:+ show_notes)
  end.

End ShowNotes.

Module YoutubeUpload.

Definition upload_to_youtube (E : env) (dir video : string) (metadata : toml)
    : Py string :=
  present <- path_exists video;;
  if negb present then
    raise (FileNotFoundError ("Video not found: " +:+ dir +:+ "/" +:+ video))
  else
    match youtube_service E with
    | inl e => raise e
    | inr video_id => ret ("https://youtube.com/watch?v=" +:+ video_id)
    end.

End YoutubeUpload.

(** ** [tools/rss_feed.py] *)

Module RssFeed.

(** Order of [sorted(..., key=lambda d: d.name)]. *)
Definition name_le {A} (a b : string * A) : Prop :=
  String.leb a.1 b.1 = true.

#[global] Instance name_le_dec {A} (a b : string * A) : Decision (name_le a b).
Proof. unfold name_le. apply _. Defined.

(** [d for d in episodes_dir.iterdir() if d.is_dir() and not
    d.name.startswith(".")], as pairs of name and directory content. *)
Definition visible_dir (item : string * node) : option (string * gmap string string) :=
  match item.2 with
  | Dir files => if Text.starts_with_dot item.1 then None else Some (item.1, files)
  | File _ => None
  end.

Definition episode_dirs (listing : gmap string node)
    : list (string * gmap string string) :=
  merge_sort name_le (omap visible_dir (map_to_list listing)).

Section Feed.
Context {S : Type}.
Variable E : env.

Definition load_podcast_config : @M S toml :=
  match podcast_toml (repo E) with
  | None =>
      raise (FileNotFoundError
               ("No " +:+ root (repo E) +:+ "/podcast.toml"
                +:+ " found. Create it with your podcast info." +:+ Text.nl
                +:+ "See podcast.toml.example for the format."))
  | Some text =>
      match toml_load E text with
      | Some doc => ret doc
      | None => raise (TOMLDecodeError "Invalid TOML document")
      end
  end.

(** The body of [for ep_dir in episode_dirs:], run over the remaining
    directories; the result lists the entries in the order of the
    [fg.add_entry()] calls. *)
Fixpoint add_entries (pc : table) (dirs : list (string * gmap string string))
    : @M S (list feed_entry) :=
  match dirs with
  | [] => ret []
  | (name, files) :: rest =>
      match files !! "metadata.toml" with
      | None => add_entries pc rest
      | Some text =>
          match toml_load E text with
          | None => raise (TOMLDecodeError "Invalid TOML document")
          | Some meta =>
              ep <- section meta "episode";;
              match files !! "audio.mp3" with
              | None => add_entries pc rest
              | Some audio =>
                  website <- key pc "website";;
                  let base_url := default website (pc !! "media_base_url") in
                  let audio_url :=
                    str_tval base_url +:+ "/episodes/" +:+ name +:+ "/audio.mp3" in
                  let file_size := pretty (String.length audio) in
                  title <- key ep "title";;
                  let fe :=
                    FeedEntry name title
                      (default (VStr "") (ep !! "description"))
                      (audio_url, file_size, "audio/mpeg")
                      (str_tval <$> ep !! "number")
                      (files !! "show-notes.md") in
                  more <- add_entries pc rest;;
                  ret (fe :: more)
              end
          end
      end
  end.

(** [update_rss_feed(audio_path, episode_metadata)] up to the call of
    [fg.rss_file]: the document to write and the URL to return. *)
Definition build_feed (audio_path : string) (episode_metadata : toml)
    : @M S (feed_doc * string) :=
  podcast_config <- load_podcast_config;;
  pc <- section podcast_config "podcast";;
  let website :=
    match pc !! "website" with
    | Some w => if truthy w then w else default (VStr "") (pc !! "media_base_url")
    | None => default (VStr "") (pc !! "media_base_url")
    end in
  title <- key pc "title";;
  description <- key pc "description";;
  author <- key pc "author";;
  email <- key pc "email";;
  let cover_url := default (VStr "") (pc !! "cover_url") in
  match episodes (repo E) with
  | None =>
      raise (enoent (root (repo E) +:+ "/episodes"))
  | Some listing =>
      entries <- add_entries pc (episode_dirs listing);;
      ret (FeedDoc title website description
             (default (VStr "en") (pc !! "language")) author email
             (default (VStr "Technology") (pc !! "category"))
             (if truthy cover_url then Some cover_url else None)
             entries,
           str_tval website +:+ "/feed/podcast.xml")
  end.

End Feed.

Definition update_rss_feed (E : env) (audio_path : string)
    (episode_metadata : toml) : Py string :=
  built <- build_feed E audio_path episode_metadata;;
  modify (λ σ, State (fs σ) (Some built.1) (calls σ));;;
  ret built.2.

End RssFeed.

(** ** [tools/publish.py] *)

Module Publish.

(** The line [log_progress] writes:
    [f"[{ts}] {step:<20} {status:<10} {detail}\n"]. *)
Definition format_line (e : entry) : string :=
  "[" +:+ strftime (ts e) +:+ "] " +:+ Text.ljust 20 (step e) +:+ " "
  +:+ Text.ljust 10 (status e) +:+ " " +:+ detail e +:+ Text.nl.

Definition all_steps : list string :=
  ["audio"; "transcript"; "show_notes"; "youtube"; "rss"].

(** [publish.get(k, False)], read as a condition. *)
Definition flag (publish : table) (k : string) : bool :=
  truthy (default (VBool false) (publish !! k)).

Section Run.
Variable E : env.
(** the resolved [episode_dir] *)
Variable dir : string.

Definition load_metadata : Py toml :=
  σ <- get;;
  match fs σ !! "metadata.toml" with
  | None => raise (FileNotFoundError ("No metadata.toml in " +:+ dir))
  | Some text =>
      match toml_load E text with
      | Some doc => ret doc
      | None => raise (TOMLDecodeError "Invalid TOML document")
      end
  end.

Definition log_progress (step status detail : string) : Py unit :=
  σ <- get;;
  let line := Entry (clock E (length (calls σ))) step status detail in
  append_file "publish.log" (format_line line);;;
  modify (λ σ, State (fs σ) (feed_xml σ) (calls σ ++ [line])).

Section Steps.
Variable meta : toml.
Variable publish : table.
Variable run_steps : list string.
Variable video : string.

Definition audio_path : string := "audio.mp3".
Definition transcript_path : string := "transcript.md".
Definition show_notes_path : string := "show-notes.md".

(** Step 1.  The result tells whether the function returned from inside
    the [except] branch. *)
Definition step_audio : Py bool :=
  if bool_decide ("audio" ∈ run_steps) then
    has_video <- path_exists video;;
    if negb has_video then
      log_progress "audio" "SKIP" ("No video file: " +:+ video);;; ret false
    else
      has_audio <- path_exists audio_path;;
      if has_audio then
        log_progress "audio" "SKIP" "audio.mp3 already exists";;; ret false
      else
        log_progress "audio" "START" ("Extracting from " +:+ video);;;
        try_except
          (Audio.extract_audio E dir video audio_path;;;
           size <- stat_size dir audio_path;;
           log_progress "audio" "DONE" (fmt_mb E size);;; ret false)
          (λ e, log_progress "audio" "FAIL" (str_exn e);;; ret true)
  else ret false.

(** Step 2 *)
Definition step_transcript : Py unit :=
  if bool_decide ("transcript" ∈ run_steps) then
    has_transcript <- path_exists transcript_path;;
    if has_transcript then
      log_progress "transcript" "SKIP" "transcript.md already exists"
    else
      has_audio <- path_exists audio_path;;
      if negb has_audio then
        log_progress "transcript" "SKIP" "No audio.mp3 yet"
      else
        log_progress "transcript" "START" "Transcribing with Whisper";;;
        try_except
          (Transcript.generate_transcript E dir audio_path transcript_path;;;
           size <- stat_size dir transcript_path;;
           log_progress "transcript" "DONE" (fmt_kb E size))
          (λ e, log_progress "transcript" "FAIL" (str_exn e))
  else ret tt.

(** Step 3 *)
Definition step_show_notes : Py unit :=
  if bool_decide ("show_notes" ∈ run_steps) then
    has_notes <- path_exists show_notes_path;;
    if has_notes then
      log_progress "show_notes" "SKIP" "show-notes.md already exists"
    else
      has_transcript <- path_exists transcript_path;;
      if negb has_transcript then
        log_progress "show_notes" "SKIP" "No transcript yet"
      else
        log_progress "show_notes" "START" "Generating with Claude";;;
        try_except
          (ShowNotes.generate_show_notes E dir transcript_path show_notes_path meta;;;
           size <- stat_size dir show_notes_path;;
           log_progress "show_notes" "DONE" (fmt_kb E size))
          (λ e, log_progress "show_notes" "FAIL" (str_exn e))
  else ret tt.

(** Step 4 *)
Definition step_youtube : Py unit :=
  if bool_decide ("youtube" ∈ run_steps) && flag publish "youtube" then
    has_video <- path_exists video;;
    if negb has_video then
      log_progress "youtube" "SKIP" "No video file"
    else
      log_progress "youtube" "START" "Uploading to YouTube";;;
      try_except
        (yt_url <- YoutubeUpload.upload_to_youtube E dir video meta;;
         log_progress "youtube" "DONE" yt_url)
        (λ e, log_progress "youtube" "FAIL" (str_exn e))
  else ret tt.

(** Step 5 *)
Definition step_rss : Py unit :=
  if bool_decide ("rss" ∈ run_steps)
     && (flag publish "spotify" || flag publish "apple") then
    has_audio <- path_exists audio_path;;
    if negb has_audio then
      log_progress "rss" "SKIP" "No audio file"
    else
      log_progress "rss" "START" "Updating RSS feed";;;
      try_except
        (feed_url <- RssFeed.update_rss_feed E audio_path meta;;
         log_progress "rss" "DONE" feed_url)
        (λ e, log_progress "rss" "FAIL" (str_exn e))
  else ret tt.

End Steps.

(** [steps or all_steps] *)
Definition run_steps_of (steps : option (list string)) : list string :=
  match steps with
  | None | Some [] => all_steps
  | Some requested => requested
  end.

Definition publish_episode (steps : option (list string)) : Py unit :=
  meta <- load_metadata;;
  ep <- section meta "episode";;
  let files := default ∅ (meta !! "files") in
  let publish := default ∅ (meta !! "publish") in
  title <- key ep "title";;
  let run_steps := run_steps_of steps in
  match default (VStr "video.mp4") (files !! "video") with
  | VStr video =>
      returned <- step_audio run_steps video;;
      if returned : bool then ret tt
      else
        step_transcript run_steps;;;
        step_show_notes meta run_steps;;;
        step_youtube meta publish run_steps video;;;
        step_rss meta publish run_steps
  | _ => raise (TypeError "unsupported operand type(s) for /")
  end.

End Run.

(** How the process ends: [argparse] exits with status 2 on a usage error;
    otherwise [publish_episode] ran, and returned or raised. *)
Inductive exit : Type :=
  | UsageError
  | Ran (outcome : res unit) (final : state).

(** [--steps], [nargs="+"], [choices=[...]]: [None] when the option is
    absent. *)
Definition parse_steps (steps : option (list string)) : option (option (list string)) :=
  match steps with
  | None => Some None
  | Some [] => None
  | Some given =>
      if forallb (λ s, bool_decide (s ∈ all_steps)) given then Some (Some given)
      else None
  end.

Definition main (E : env) (episode_dir : string) (steps : option (list string))
    (σ : state) : exit :=
  match parse_steps steps with
  | None => UsageError
  | Some args_steps =>
      let '(outcome, final) := publish_episode E episode_dir args_steps σ in
      Ran outcome final
  end.

End Publish.

(** ** Regular expressions, as [re.match] runs them

    A backtracking matcher for the fragment the reader's pattern uses:
    literals, character classes, greedy and lazy repetition of a class,
    alternation, sequencing and capture groups.  Alternatives are tried in
    the order [re] tries them, so the first success is [re]'s match. *)

Module Re.

(** [\s] on code points below 256 *)
Definition is_space (c : ascii) : bool :=
  Text.code_in 9 13 c || Text.code_in 28 32 c
  || Text.code_is 133 c || Text.code_is 160 c.

(** [\w] on code points below 256: letters, digits and the underscore *)
Definition is_word (c : ascii) : bool :=
  Text.code_in 48 57 c || Text.code_in 65 90 c || Text.code_in 97 122 c
  || Text.code_is 95 c
  || Text.code_is 170 c || Text.code_in 178 179 c || Text.code_is 181 c
  || Text.code_in 185 186 c || Text.code_in 188 190 c
  || Text.code_in 192 214 c || Text.code_in 216 246 c || Text.code_in 248 255 c.

(** [.] without [re.DOTALL] *)
Definition is_any (c : ascii) : bool :=
  negb (Ascii.eqb c Text.newline).

Inductive re : Type :=
  | Lit (s : string)
  | Star (p : ascii → bool)
  | LazyStar (p : ascii → bool)
  | Plus (p : ascii → bool)
  | Alt (r1 r2 : re)
  | Seq (r1 r2 : re)
  | Group (r : re).

Section Matcher.
Context {R : Type}.

(** the continuation receives what is left of the subject *)
Fixpoint lit (t s : string) (k : string → option R) : option R :=
  match t, s with
  | "", _ => k s
  | String a t', String b s' => if Ascii.eqb a b then lit t' s' k else None
  | String _ _, "" => None
  end.

(** [p*]: as many as possible first, then one fewer, ... *)
Fixpoint star (p : ascii → bool) (s : string) (k : string → option R) : option R :=
  match s with
  | String c s' =>
      if p c then
        match star p s' k with
        | Some r => Some r
        | None => k s
        end
      else k s
  | "" => k ""
  end.

(** [p*?]: as few as possible first, then one more, ... *)
Fixpoint lazy_star (p : ascii → bool) (s : string) (k : string → option R) : option R :=
  match k s with
  | Some r => Some r
  | None =>
      match s with
      | String c s' => if p c then lazy_star p s' k else None
      | "" => None
      end
  end.

(** [p+] *)
Definition plus (p : ascii → bool) (s : string) (k : string → option R) : option R :=
  match s with
  | String c s' => if p c then star p s' k else None
  | "" => None
  end.

(** [run r s caps k]: match [r] at the start of [s]; [caps] holds the text
    of the groups closed so far, in closing order. *)
Fixpoint run (r : re) (s : string) (caps : list string)
    (k : string → list string → option R) : option R :=
  match r with
  | Lit t => lit t s (λ s', k s' caps)
  | Star p => star p s (λ s', k s' caps)
  | LazyStar p => lazy_star p s (λ s', k s' caps)
  | Plus p => plus p s (λ s', k s' caps)
  | Alt r1 r2 =>
      match run r1 s caps k with
      | Some x => Some x
      | None => run r2 s caps k
      end
  | Seq r1 r2 => run r1 s caps (λ s' caps', run r2 s' caps' k)
  | Group r' =>
      run r' s caps
        (λ s' caps',
           k s' (caps' ++ [Text.take (String.length s - String.length s') s]))
  end.

End Matcher.

(** [re.match(r, s)]: the groups of the match, if there is one *)
Definition re_match (r : re) (s : string) : option (list string) :=
  run r s [] (λ _ caps, Some caps).

End Re.

(** ** [kurt/api/podcast.py]: the publish-log reader of [_load_episode] *)

Module Podcast.

(** Line boundaries of [str.splitlines] on code points below 256. *)
Definition is_linebreak (c : ascii) : bool :=
  Text.code_in 10 13 c || Text.code_in 28 30 c || Text.code_is 133 c.

Definition carriage_return : ascii := ascii_of_nat 13.

(** [go after_cr cur s]: [cur] is the line being read; [after_cr] holds
    right after a carriage return, whose following line feed belongs to
    the same boundary. *)
Fixpoint splitlines_go (after_cr : bool) (cur s : string) : list string :=
  match s with
  | "" => if String.eqb cur "" then [] else [cur]
  | String c s' =>
      if after_cr && Ascii.eqb c Text.newline then splitlines_go false "" s'
      else if is_linebreak c then
        cur :: splitlines_go (Ascii.eqb c carriage_return) "" s'
      else splitlines_go false (cur +:+ String c "") s'
  end.

(** [text.splitlines()] *)
Definition splitlines (text : string) : list string :=
  splitlines_go false "" text.

(** [s.lower()] on the letters A to Z *)
Definition lower_char (c : ascii) : ascii :=
  if Text.code_in 65 90 c then ascii_of_nat (nat_of_ascii c + 32) else c.

Fixpoint lower (s : string) : string :=
  match s with
  | "" => ""
  | String c s' => String (lower_char c) (lower s')
  end.

(** The pattern given to [re.match]: a bracketed text as short as
    possible, blanks, a word (group 1), blanks, one of START, DONE and FAIL
    (group 2), optional blanks, and the rest of the line (group 3). *)
Definition log_pattern : Re.re :=
  Re.Seq (Re.Lit "[")
  (Re.Seq (Re.LazyStar Re.is_any)
  (Re.Seq (Re.Lit "]")
  (Re.Seq (Re.Plus Re.is_space)
  (Re.Seq (Re.Group (Re.Plus Re.is_word))
  (Re.Seq (Re.Plus Re.is_space)
  (Re.Seq (Re.Group (Re.Alt (Re.Lit "START") (Re.Alt (Re.Lit "DONE") (Re.Lit "FAIL"))))
  (Re.Seq (Re.Star Re.is_space)
          (Re.Group (Re.Star Re.is_any))))))))).

(** The body of the loop over the lines:
    [m = re.match(...); if m: steps[m.group(1)] = m.group(2).lower()]. *)
Definition read_line (steps : gmap string string) (line : string)
    : gmap string string :=
  match Re.re_match log_pattern line with
  | Some [g1; g2; _] => <[g1 := lower g2]> steps
  | _ => steps
  end.

(** [steps] after [for line in log_path.read_text().splitlines(): ...] *)
Definition read_log (text : string) : gmap string string :=
  foldl read_line ∅ (splitlines text).

(** The ["pipeline_steps"] value [_load_episode] computes for an episode
    directory that has its metadata: empty without a [publish.log]. *)
Definition pipeline_steps (ep_dir : gmap string string) : gmap string string :=
  match ep_dir !! "publish.log" with
  | Some text => read_log text
  | None => ∅
  end.

End Podcast.


(** * Vocabulary of the properties *)

Import Publish.

(** ** How a step changes the state *)

(** Outcome of one step of the pipeline, with the details it logs. *)
Inductive outcome : Type :=
  | NotRun
  | Skip (why : string)
  | Done (start result : string)
  | Fail (start message : string).

(** The [log_progress] calls of a step with a given outcome, the first one
    being call number [n]. *)
Definition entries_of (E : env) (n : nat) (name : string) (o : outcome)
    : list entry :=
  match o with
  | NotRun => []
  | Skip why => [Entry (clock E n) name "SKIP" why]
  | Done start result =>
      [Entry (clock E n) name "START" start;
       Entry (clock E (S n)) name "DONE" result]
  | Fail start message =>
      [Entry (clock E n) name "START" start;
       Entry (clock E (S n)) name "FAIL" message]
  end.

(** The file a step may have written, given its outcome: none unless the
    executor was called. *)
Definition outputs_of (o : outcome) (name : string) : list string :=
  match o with
  | NotRun | Skip _ => []
  | Done _ _ | Fail _ _ => [name]
  end.

Definition is_fail (o : outcome) : bool :=
  match o with
  | Fail _ _ => true
  | _ => false
  end.

(** [a + b + ...] for a list of texts *)
Definition cat (l : list string) : string := foldr String.append "" l.

(** [publish.log] after the lines of [es] were appended to it. *)
Definition log_after (old : option string) (es : list entry) : option string :=
  match es with
  | [] => old
  | _ => Some (default "" old +:+ cat (map format_line es))
  end.

(** [evolves σ σ' es outs]: from [σ] to [σ'] the calls [es] were made, no
    file disappeared, and no file other than [publish.log] and those of
    [outs] changed. *)
Record evolves (σ σ' : state) (es : list entry) (outs : list string) : Prop := {
  ev_calls : calls σ' = calls σ ++ es;
  ev_keep : ∀ n, n ≠ "publish.log" → n ∉ outs → fs σ' !! n = fs σ !! n;
  ev_mono : ∀ n, is_Some (fs σ !! n) → is_Some (fs σ' !! n);
  ev_log : fs σ' !! "publish.log" = log_after (fs σ !! "publish.log") es
}.


(** [m] only reads: it returns the same result in every state and leaves
    the state as it was. *)
Definition reads_only {S A} (m : @M S A) (r : res A) : Prop :=
  ∀ σ, m σ = (r, σ).

Section Facts.
Variable E : env.
Variable dir : string.
Variable meta : toml.
Variable publish : table.
Variable run_steps : list string.
Variable video : string.

(** What each outcome of a step says about the state before ([σ]) and
    after ([σ']) it. *)
Definition audio_facts (σ σ' : state) (o : outcome) (returned : bool) : Prop :=
  match o with
  | NotRun => ("audio" ∉ run_steps) ∧ returned = false
  | Skip why =>
      "audio" ∈ run_steps ∧ returned = false
      ∧ ((fs σ !! video = None ∧ why = "No video file: " +:+ video)
         ∨ (is_Some (fs σ !! video) ∧ is_Some (fs σ !! "audio.mp3")
            ∧ why = "audio.mp3 already exists"))
  | Done start result =>
      "audio" ∈ run_steps ∧ returned = false
      ∧ is_Some (fs σ !! video) ∧ fs σ !! "audio.mp3" = None
      ∧ is_Some (fs σ' !! "audio.mp3")
      ∧ returncode (ffmpeg E) = 0%Z
  | Fail start message =>
      "audio" ∈ run_steps ∧ returned = true
      ∧ is_Some (fs σ !! video) ∧ fs σ !! "audio.mp3" = None
      ∧ ((returncode (ffmpeg E) ≠ 0%Z
          ∧ message = "ffmpeg failed: " +:+ Text.take 500 (stderr (ffmpeg E)))
         ∨ (returncode (ffmpeg E) = 0%Z ∧ ffmpeg_output (ffmpeg E) = None
            ∧ message = str_exn (enoent (dir +:+ "/" +:+ "audio.mp3"))))
  end.

Definition transcript_facts (σ σ' : state) (o : outcome) : Prop :=
  match o with
  | NotRun => "transcript" ∉ run_steps
  | Skip why =>
      "transcript" ∈ run_steps
      ∧ ((is_Some (fs σ !! "transcript.md")
          ∧ why = "transcript.md already exists")
         ∨ (fs σ !! "transcript.md" = None ∧ fs σ !! "audio.mp3" = None
            ∧ why = "No audio.mp3 yet"))
  | Done start result =>
      "transcript" ∈ run_steps
      ∧ fs σ !! "transcript.md" = None ∧ is_Some (fs σ !! "audio.mp3")
      ∧ is_Some (fs σ' !! "transcript.md")
      ∧ ∃ text, whisper E = inr text
  | Fail start message =>
      "transcript" ∈ run_steps
      ∧ fs σ !! "transcript.md" = None ∧ is_Some (fs σ !! "audio.mp3")
      ∧ ∃ e, whisper E = inl e ∧ message = str_exn e
  end.

Definition show_notes_facts (σ σ' : state) (o : outcome) : Prop :=
  match o with
  | NotRun => "show_notes" ∉ run_steps
  | Skip why =>
      "show_notes" ∈ run_steps
      ∧ ((is_Some (fs σ !! "show-notes.md")
          ∧ why = "show-notes.md already exists")
         ∨ (fs σ !! "show-notes.md" = None ∧ fs σ !! "transcript.md" = None
            ∧ why = "No transcript yet"))
  | Done start result =>
      "show_notes" ∈ run_steps
      ∧ fs σ !! "show-notes.md" = None ∧ is_Some (fs σ !! "transcript.md")
      ∧ is_Some (fs σ' !! "show-notes.md")
      ∧ ∃ text, notes_service E = inr text
  | Fail start message =>
      "show_notes" ∈ run_steps
      ∧ fs σ !! "show-notes.md" = None ∧ is_Some (fs σ !! "transcript.md")
      ∧ ∃ e, notes_service E = inl e ∧ message = str_exn e
  end.

(** The conditions that open steps 4 and 5. *)
Definition youtube_open : Prop :=
  "youtube" ∈ run_steps ∧ flag publish "youtube" = true.

Definition rss_open : Prop :=
  "rss" ∈ run_steps
  ∧ (flag publish "spotify" = true ∨ flag publish "apple" = true).

Definition youtube_facts (σ σ' : state) (o : outcome) : Prop :=
  match o with
  | NotRun => ¬ youtube_open
  | Skip why => youtube_open ∧ fs σ !! video = None ∧ why = "No video file"
  | Done start result =>
      youtube_open ∧ is_Some (fs σ !! video)
      ∧ ∃ id, youtube_service E = inr id
              ∧ result = "https://youtube.com/watch?v=" +:+ id
  | Fail start message =>
      youtube_open ∧ is_Some (fs σ !! video)
      ∧ ∃ e, youtube_service E = inl e ∧ message = str_exn e
  end.

Definition rss_facts (σ σ' : state) (o : outcome) : Prop :=
  match o with
  | NotRun => ¬ rss_open ∧ feed_xml σ' = feed_xml σ
  | Skip why =>
      rss_open ∧ fs σ !! "audio.mp3" = None ∧ why = "No audio file"
      ∧ feed_xml σ' = feed_xml σ
  | Done start result =>
      rss_open ∧ is_Some (fs σ !! "audio.mp3")
      ∧ ∃ doc, reads_only (S := state) (RssFeed.build_feed E "audio.mp3" meta)
                 (Ok (doc, result))
               ∧ feed_xml σ' = Some doc
  | Fail start message =>
      rss_open ∧ is_Some (fs σ !! "audio.mp3")
      ∧ feed_xml σ' = feed_xml σ
      ∧ ∃ e, reads_only (S := state) (RssFeed.build_feed E "audio.mp3" meta)
               (Raise e)
             ∧ message = str_exn e
  end.

End Facts.

(** ** A run as a whole *)

(** The outcomes of the five steps of one run. *)
Record trace : Type := Trace {
  t_audio : outcome;
  t_transcript : outcome;
  t_show_notes : outcome;
  t_youtube : outcome;
  t_rss : outcome
}.

(** The outcome of a step, by its name in the log. *)
Definition outcome_of (tr : trace) (name : string) : outcome :=
  if decide (name = "audio") then t_audio tr
  else if decide (name = "transcript") then t_transcript tr
  else if decide (name = "show_notes") then t_show_notes tr
  else if decide (name = "youtube") then t_youtube tr
  else if decide (name = "rss") then t_rss tr
  else NotRun.

(** The [log_progress] calls of a run, in order, the first being call
    number [n]. *)
Fixpoint entries_from (E : env) (tr : trace) (n : nat) (names : list string)
    : list entry :=
  match names with
  | [] => []
  | name :: rest =>
      let es := entries_of E n name (outcome_of tr name) in
      es ++ entries_from E tr (n + length es) rest
  end.

Definition trace_entries (E : env) (tr : trace) (n : nat) : list entry :=
  entries_from E tr n all_steps.

(** What [publish_episode] reads before its first step: the document and
    the name of the video file; [None] when one of these reads raises. *)
Definition config_of (E : env) (σ : state) : option (toml * string) :=
  text ← fs σ !! "metadata.toml";
  meta ← toml_load E text;
  ep ← meta !! "episode";
  _ ← ep !! "title";
  match default (VStr "video.mp4") (default ∅ (meta !! "files") !! "video") with
  | VStr video => Some (meta, video)
  | _ => None
  end.

Definition publish_of (meta : toml) : table := default ∅ (meta !! "publish").

(** [pipeline E dir meta steps video σ σ' tr]: the steps took the state
    from [σ] to [σ'] with the outcomes [tr].  After a failed audio step
    nothing else is evaluated. *)
Definition pipeline (E : env) (dir : string) (meta : toml)
    (run_steps : list string) (video : string) (σ σ' : state) (tr : trace)
    : Prop :=
  ∃ σa returned,
    audio_facts E dir run_steps video σ σa (t_audio tr) returned
    ∧ evolves σ σa (entries_of E (length (calls σ)) "audio" (t_audio tr))
        (outputs_of (t_audio tr) "audio.mp3")
    ∧ feed_xml σa = feed_xml σ
    ∧ if returned then
        σ' = σa ∧ t_transcript tr = NotRun ∧ t_show_notes tr = NotRun
        ∧ t_youtube tr = NotRun ∧ t_rss tr = NotRun
      else
        ∃ σt σn σy,
          transcript_facts E run_steps σa σt (t_transcript tr)
          ∧ evolves σa σt
              (entries_of E (length (calls σa)) "transcript" (t_transcript tr))
              (outputs_of (t_transcript tr) "transcript.md")
          ∧ show_notes_facts E run_steps σt σn (t_show_notes tr)
          ∧ evolves σt σn
              (entries_of E (length (calls σt)) "show_notes" (t_show_notes tr))
              (outputs_of (t_show_notes tr) "show-notes.md")
          ∧ youtube_facts E (publish_of meta) run_steps video σn σy (t_youtube tr)
          ∧ evolves σn σy
              (entries_of E (length (calls σn)) "youtube" (t_youtube tr)) []
          ∧ feed_xml σy = feed_xml σ
          ∧ rss_facts E meta (publish_of meta) run_steps σy σ' (t_rss tr)
          ∧ evolves σy σ'
              (entries_of E (length (calls σy)) "rss" (t_rss tr)) [].

(** The files the pipeline itself writes. *)
Definition own_files : list string :=
  ["audio.mp3"; "transcript.md"; "show-notes.md"; "publish.log"].

(** The calls a run added: those of [σ'] after the ones [σ] had. *)
Definition new_calls (σ σ' : state) : list entry :=
  drop (length (calls σ)) (calls σ').

(** Position of a step in the pipeline. *)
Definition rank (name : string) : nat :=
  if decide (name = "audio") then 0
  else if decide (name = "transcript") then 1
  else if decide (name = "show_notes") then 2
  else if decide (name = "youtube") then 3
  else if decide (name = "rss") then 4
  else 5.

(** The five steps of [publish_episode], once the metadata is read. *)
Definition run_steps_body (E : env) (dir : string) (meta : toml)
    (rs : list string) (video : string) : Py unit :=
  bind (step_audio E dir rs video)
    (λ returned : bool,
       if returned then ret tt
       else
         bind (step_transcript E dir rs) (λ _,
         bind (step_show_notes E dir meta rs) (λ _,
         bind (step_youtube E dir meta (publish_of meta) rs video) (λ _,
         step_rss E meta (publish_of meta) rs)))).

(** ** Vocabulary of the claims *)

(** The publish flags let the step called [name] through. *)
Definition gate_open (meta : toml) (name : string) : Prop :=
  (name = "youtube" → flag (publish_of meta) "youtube" = true)
  ∧ (name = "rss" →
     flag (publish_of meta) "spotify" = true
     ∨ flag (publish_of meta) "apple" = true).

(** The step called [name] has a call among [es]. *)
Definition attempted (es : list entry) (name : string) : Prop :=
  ∃ e, e ∈ es ∧ step e = name.

(** The run made a call reporting a failed audio step. *)
Definition audio_failed (es : list entry) : Prop :=
  ∃ e, e ∈ es ∧ step e = "audio" ∧ status e = "FAIL".

(** Replacing one collaborator of an environment. *)
Definition set_ffmpeg (E : env) (r : ffmpeg_run) : env :=
  Env (toml_load E) (clock E) (fmt_mb E) (fmt_kb E) r (whisper E)
    (notes_service E) (youtube_service E) (repo E).


Definition set_youtube_service (E : env) (y : exn + string) : env :=
  Env (toml_load E) (clock E) (fmt_mb E) (fmt_kb E) (ffmpeg E) (whisper E)
    (notes_service E) y (repo E).

Definition set_repo (E : env) (w : workspace) : env :=
  Env (toml_load E) (clock E) (fmt_mb E) (fmt_kb E) (ffmpeg E) (whisper E)
    (notes_service E) (youtube_service E) w.

(** ** A small workspace to run the tools on *)

Module Demo.

(** [metadata.toml] of an episode published everywhere *)
Definition meta : toml :=
  {[ "episode" := {[ "title" := VStr "Pilot"; "number" := VInt 1 ]};
     "publish" := {[ "youtube" := VBool true; "spotify" := VBool true;
                     "apple" := VBool false ]} ]}.

(** [metadata.toml] of an episode with every publish target switched off *)
Definition quiet_meta : toml :=
  {[ "episode" := {[ "title" := VStr "Draft" ]};
     "publish" := {[ "youtube" := VBool false; "spotify" := VBool false ]} ]}.

(** [podcast.toml] *)
Definition podcast : toml :=
  {[ "podcast" := {[ "title" := VStr "Boring Podcast";
                     "description" := VStr "Talks";
                     "author" := VStr "Host";
                     "email" := VStr "host@example.org";
                     "website" := VStr "https://example.org" ]} ]}.

(** The parser, on the three texts used below. *)
Definition load (text : string) : option toml :=
  if String.eqb text "episode" then Some meta
  else if String.eqb text "quiet" then Some quiet_meta
  else if String.eqb text "podcast" then Some podcast
  else None.

(** [episodes/]: a published episode, one without audio, one without
    metadata, a hidden directory and a stray file. *)
Definition listing : gmap string node :=
  {[ "ep001-pilot" := Dir {[ "metadata.toml" := "episode"; "audio.mp3" := "mp3" ]};
     "ep002-next" := Dir {[ "metadata.toml" := "episode" ]};
     "ep003-raw" := Dir {[ "audio.mp3" := "mp3" ]};
     ".cache" := Dir {[ "metadata.toml" := "episode"; "audio.mp3" := "mp3" ]};
     "README.md" := File "notes" ]}.

Definition tree : workspace :=
  Workspace "/repo" (Some "podcast") (Some listing).

Definition tick (n : nat) : datetime := Datetime 2026 3 7 9 5 n.

(** Every collaborator succeeds. *)
Definition E : env :=
  Env load tick (λ n, pretty n +:+ " MB") (λ n, pretty n +:+ " KB")
    (FfmpegRun 0 "" (Some "mp3")) (inr "hello") (inr "notes") (inr "abc123")
    tree.

Definition dir : string := "/repo/episodes/ep001-pilot".

(** A fresh episode: metadata and video only. *)
Definition fresh : state :=
  State {[ "metadata.toml" := "episode"; "video.mp4" := "v" ]} None [].

(** The same with every publish target switched off. *)
Definition quiet : state :=
  State {[ "metadata.toml" := "quiet"; "video.mp4" := "v" ]} None [].


(** What the log shows of a call. *)
Definition shown (e : entry) : string * string * string :=
  (step e, status e, detail e).

End Demo.


Definition quiet_outcome (o : outcome) : Prop :=
  match o with
  | NotRun | Skip _ => True
  | Done _ _ | Fail _ _ => False
  end.

Definition started (o : outcome) : Prop :=
  match o with
  | Done _ _ | Fail _ _ => True
  | NotRun | Skip _ => False
  end.

(** An episode of the workspace that the feed lists: a directory of
    [episodes/] whose name does not start with a dot and that holds both
    [metadata.toml] and [audio.mp3]. *)
Definition published (listing : gmap string node) (name : string) : Prop :=
  ∃ files, listing !! name = Some (Dir files)
           ∧ Text.starts_with_dot name = false
           ∧ is_Some (files !! "metadata.toml")
           ∧ is_Some (files !! "audio.mp3").

(** The address the feed is published under:
    [pc.get("website") or pc.get("media_base_url", "")]. *)
Definition site_of (pc : table) : tval :=
  match pc !! "website" with
  | Some w => if truthy w then w else default (VStr "") (pc !! "media_base_url")
  | None => default (VStr "") (pc !! "media_base_url")
  end.

(** The directories for which the loop of [update_rss_feed] adds an
    entry. *)
Definition qualifies (d : string * gmap string string) : bool :=
  bool_decide (is_Some (d.2 !! "metadata.toml"))
  && bool_decide (is_Some (d.2 !! "audio.mp3")).

(** Every character of [s] passes the test [p]. *)
Fixpoint all_chars (p : ascii → bool) (s : string) : bool :=
  match s with
  | EmptyString => true
  | String c s' => p c && all_chars p s'
  end.

(** The characters [strftime] prints with the format of [log_progress]. *)
Definition stamp_char (c : ascii) : bool :=
  Text.code_in 48 57 c || Text.mem c "-: UTC".

(** A character that ends no line. *)
Definition inline_char (c : ascii) : bool := negb (Podcast.is_linebreak c).

(** The line of an entry without its final newline. *)
Definition line_body (e : entry) : string :=
  "[" +:+ strftime (ts e) +:+ "] " +:+ Text.ljust 20 (step e) +:+ " "
  +:+ Text.ljust 10 (status e) +:+ " " +:+ detail e.

(** A step name the reader's pattern takes as one word. *)
Definition word (s : string) : Prop :=
  s ≠ "" ∧ all_chars Re.is_word s = true.

(** What the reader makes of one line: the step and the status it
    records. *)
Definition parsed (line : string) : option (string * string) :=
  match Re.re_match Podcast.log_pattern line with
  | Some [g1; g2; _] => Some (g1, Podcast.lower g2)
  | _ => None
  end.

(** The status recorded by the last of [lines] that the reader matches
    for the step [name]. *)
Definition last_status (name : string) (lines : list string) : option string :=
  last (omap (λ line, p ← parsed line;
                      if decide (p.1 = name) then Some p.2 else None) lines).

(** [rest] does not go on with a character of the class [p]. *)
Definition stops (p : ascii → bool) (rest : string) : Prop :=
  match rest with
  | EmptyString => True
  | String c _ => p c = false
  end.

(** ** Vocabulary of the feed properties *)

(** The directory [d] of [episodes/] can be read by the loop of
    [update_rss_feed]: if it has a [metadata.toml], the document parses
    and has an [episode] table. *)
Definition reads_well (E : env) (d : string * gmap string string) : Prop :=
  ∀ text, d.2 !! "metadata.toml" = Some text →
          ∃ meta, toml_load E text = Some meta ∧ is_Some (meta !! "episode").

(** [fe] is the entry the loop adds for the directory [d], under the
    podcast table [pc]. *)
Definition entry_of (E : env) (pc : table) (d : string * gmap string string)
    (fe : feed_entry) : Prop :=
  ∃ text meta ep audio website title,
    d.2 !! "metadata.toml" = Some text ∧ toml_load E text = Some meta
    ∧ meta !! "episode" = Some ep ∧ d.2 !! "audio.mp3" = Some audio
    ∧ pc !! "website" = Some website ∧ ep !! "title" = Some title
    ∧ fe = FeedEntry d.1 title (default (VStr "") (ep !! "description"))
             (str_tval (default website (pc !! "media_base_url"))
              +:+ "/episodes/" +:+ d.1 +:+ "/audio.mp3",
              pretty (String.length audio), "audio/mpeg")
             (str_tval <$> ep !! "number") (d.2 !! "show-notes.md").

(** Ascending order of names, without repetition. *)
Definition name_lt (a b : string) : Prop := String.leb a b = true ∧ a ≠ b.

(** ** [kurt/api/podcast.py]: the routes over the episodes

    The routes only read: they are functions of the environment, to a
    value or to the exception raised on the way.  [_WORKSPACE] is the
    repository tree [repo E]. *)

Module Api.

(** Sequencing of computations that may raise. *)
Definition and_then {A B} (r : res A) (k : A → res B) : res B :=
  match r with
  | Ok a => k a
  | Raise e => Raise e
  end.

(** The ["assets"] of an episode. *)
Record assets : Type := Assets {
  audio : bool;
  video : bool;
  transcript : bool;
  show_notes : bool
}.

(** What [_load_episode] returns: the short dictionary of a directory
    without [metadata.toml], or the full one.  [number] is
    [ep.get("number")]; [tags] is [None] for the default [[]]. *)
Inductive episode : Type :=
  | Bare (slug dir : string)
  | Full (slug : string) (number : option tval) (title description : tval)
      (tags : option tval) (files : assets) (publish_targets : table)
      (pipeline_steps : gmap string string).

Definition slug_of (e : episode) : string :=
  match e with
  | Bare slug _ => slug
  | Full slug _ _ _ _ _ _ _ => slug
  end.

(** [_podcast_config()] *)
Definition podcast_config (E : env) : res toml :=
  match podcast_toml (repo E) with
  | None => Ok ∅
  | Some text =>
      match toml_load E text with
      | Some doc => Ok doc
      | None => Raise (TOMLDecodeError "Invalid TOML document")
      end
  end.

(** [_episode_dirs()] *)
Definition episode_dirs (E : env) : list (string * gmap string string) :=
  match episodes (repo E) with
  | None => []
  | Some listing => RssFeed.episode_dirs listing
  end.

(** [_load_episode(ep_dir)], for the directory [name] holding [files] *)
Definition load_episode (E : env) (name : string) (files : gmap string string)
    : res episode :=
  match files !! "metadata.toml" with
  | None => Ok (Bare name (root (repo E) +:+ "/episodes/" +:+ name))
  | Some text =>
      match toml_load E text with
      | None => Raise (TOMLDecodeError "Invalid TOML document")
      | Some meta =>
          let ep := default ∅ (meta !! "episode") in
          let publish := default ∅ (meta !! "publish") in
          let files_section := default ∅ (meta !! "files") in
          let has_audio := bool_decide (is_Some (files !! "audio.mp3")) in
          match default (VStr "video.mp4") (files_section !! "video") with
          | VStr video_name =>
              let has_video := bool_decide (is_Some (files !! video_name)) in
              let has_transcript :=
                bool_decide (is_Some (files !! "transcript.md")) in
              let has_show_notes :=
                bool_decide (is_Some (files !! "show-notes.md")) in
              Ok (Full name (ep !! "number")
                    (default (VStr name) (ep !! "title"))
                    (default (VStr "") (ep !! "description"))
                    (ep !! "tags")
                    (Assets has_audio has_video has_transcript has_show_notes)
                    publish (Podcast.pipeline_steps files))
          | _ => Raise (TypeError "unsupported operand type(s) for /")
          end
      end
  end.

(** [[_load_episode(d) for d in dirs]] *)
Fixpoint load_all (E : env) (dirs : list (string * gmap string string))
    : res (list episode) :=
  match dirs with
  | [] => Ok []
  | (name, files) :: rest =>
      and_then (load_episode E name files) (λ e,
      and_then (load_all E rest) (λ es, Ok (e :: es)))
  end.

(** [GET /episodes] *)
Definition list_episodes (E : env) : res (table * list episode) :=
  and_then (load_all E (episode_dirs E)) (λ eps,
  and_then (podcast_config E) (λ config,
  Ok (default ∅ (config !! "podcast"), eps))).

(** The answer of a route that may raise [HTTPException]. *)
Inductive reply (A : Type) : Type :=
  | Reply (a : A)
  | HttpError (status_code : nat) (detail : string)
  | Crash (e : exn).
Arguments Reply {A} a.
Arguments HttpError {A} status_code detail.
Arguments Crash {A} e.

(** The loop of [get_episode] over the remaining directories. *)
Fixpoint find_episode (E : env) (slug : string)
    (dirs : list (string * gmap string string)) : reply episode :=
  match dirs with
  | [] => HttpError 404 ("Episode '" +:+ slug +:+ "' not found")
  | (name, files) :: rest =>
      if String.eqb name slug then
        match load_episode E name files with
        | Ok e => Reply e
        | Raise x => Crash x
        end
      else find_episode E slug rest
  end.

(** [GET /episodes/{slug}] *)
Definition get_episode (E : env) (slug : string) : reply episode :=
  find_episode E slug (episode_dirs E).

(** [e["assets"][k]], the asset picked by [pick] *)
Definition asset (pick : assets → bool) (e : episode) : res bool :=
  match e with
  | Bare _ _ => Raise (KeyError "assets")
  | Full _ _ _ _ _ files _ _ => Ok (pick files)
  end.

(** [sum(1 for e in episodes if e["assets"][k])] *)
Fixpoint count_with (pick : assets → bool) (eps : list episode) : res nat :=
  match eps with
  | [] => Ok 0
  | e :: rest =>
      and_then (asset pick e) (λ b,
      and_then (count_with pick rest) (λ n, Ok (if b then S n else n)))
  end.

Record summary : Type := Summary {
  total_episodes : nat;
  with_audio : nat;
  with_transcript : nat;
  with_show_notes : nat
}.

(** [GET /status] *)
Definition pipeline_status (E : env) : res summary :=
  and_then (load_all E (episode_dirs E)) (λ eps,
  and_then (count_with audio eps) (λ a,
  and_then (count_with transcript eps) (λ t,
  and_then (count_with show_notes eps) (λ n,
  Ok (Summary (length eps) a t n))))).

End Api.

(** ** Vocabulary of the reader properties *)

(** [s] holds no closing bracket. *)
Definition unbracketed (s : string) : Prop :=
  all_chars (λ c, negb (Ascii.eqb c "]")) s = true.

(** What the reader makes of the line of one call: a SKIP leaves the
    statuses as they are, any other outcome is recorded for its step. *)
Definition record (steps : gmap string string) (e : entry)
    : gmap string string :=
  if String.eqb (status e) "SKIP" then steps
  else <[step e := Podcast.lower (status e)]> steps.

(** ** [tools/ingest_youtube.py]: slugs and episode numbers

    [slugify], [get_next_episode_number], and the directory name [main]
    builds from the two. *)

Module Ingest.

(** [c.lower()] on code points below 256: the letters A to Z and the
    capital letters of Latin-1. *)
Definition lower_char (c : ascii) : ascii :=
  if Text.code_in 65 90 c || Text.code_in 192 214 c || Text.code_in 216 222 c
  then ascii_of_nat (nat_of_ascii c + 32) else c.

Fixpoint lower (s : string) : string :=
  match s with
  | "" => ""
  | String c s' => String (lower_char c) (lower s')
  end.

(** [s.lstrip(chars)], [s.rstrip(chars)] and [s.strip(chars)], for the
    characters that pass [p] *)
Fixpoint lstrip (p : ascii → bool) (s : string) : string :=
  match s with
  | "" => ""
  | String c s' => if p c then lstrip p s' else s
  end.

Fixpoint rstrip (p : ascii → bool) (s : string) : string :=
  match s with
  | "" => ""
  | String c s' =>
      match rstrip p s' with
      | "" => if p c then "" else String c ""
      | rest => String c rest
      end
  end.

Definition strip (p : ascii → bool) (s : string) : string :=
  rstrip p (lstrip p s).

(** [re.sub(r"[^...]", "", s)]: the characters that pass [keep] *)
Fixpoint keep_chars (keep : ascii → bool) (s : string) : string :=
  match s with
  | "" => ""
  | String c s' =>
      if keep c then String c (keep_chars keep s') else keep_chars keep s'
  end.

(** [re.sub(r"[...]+", "-", s)]: every maximal run of characters that
    pass [p] becomes one hyphen; [in_run] holds inside such a run. *)
Fixpoint squeeze (p : ascii → bool) (in_run : bool) (s : string) : string :=
  match s with
  | "" => ""
  | String c s' =>
      if p c then
        if in_run then squeeze p true s' else String "-" (squeeze p true s')
      else String c (squeeze p false s')
  end.

Definition is_hyphen (c : ascii) : bool := Ascii.eqb c "-".
Definition is_underscore (c : ascii) : bool := Ascii.eqb c "_".

(** [slugify(text)] *)
Definition slugify (text : string) : string :=
  let text := strip Re.is_space (lower text) in
  let text :=
    keep_chars (λ c, Re.is_word c || Re.is_space c || is_hyphen c) text in
  let text := squeeze (λ c, Re.is_space c || is_underscore c) false text in
  let text := squeeze is_hyphen false text in
  strip is_hyphen (Text.take 60 text).

(** [\d] on code points below 256 *)
Definition is_digit (c : ascii) : bool := Text.code_in 48 57 c.

(** [int(s)] for a text of decimal digits, read from the left (a file
    name stays far below the length at which [int] refuses a text) *)
Fixpoint int_digits (acc : N) (s : string) : N :=
  match s with
  | "" => acc
  | String c s' => int_digits (10 * acc + (N_of_ascii c - 48)) s'
  end.

(** The pattern of [re.match(r"ep(\d+)", d.name)] *)
Definition ep_pattern : Re.re :=
  Re.Seq (Re.Lit "ep") (Re.Group (Re.Plus is_digit)).

(** [int(m.group(1))] when the name matches *)
Definition episode_number (name : string) : option N :=
  match Re.re_match ep_pattern name with
  | Some [digits] => Some (int_digits 0 digits)
  | _ => None
  end.

(** [max(numbers, default=0)] *)
Definition max_of (numbers : list N) : N := foldr N.max 0%N numbers.

(** [get_next_episode_number()] *)
Definition get_next_episode_number (w : workspace) : N :=
  match episodes w with
  | None => 1
  | Some listing =>
      max_of (omap (λ d, episode_number d.1)
                (omap RssFeed.visible_dir (map_to_list listing))) + 1
  end.

(** ['0' * n] *)
Fixpoint zeros (n : nat) : string :=
  match n with
  | O => ""
  | S n' => String "0" (zeros n')
  end.

(** [f"{n:03d}"] for a number that is not negative *)
Definition fmt_03d (n : N) : string :=
  zeros (3 - String.length (pretty n)) +:+ pretty n.

(** [f"ep{ep_num:03d}-{slug}"], the directory [main] creates *)
Definition dir_name (ep_num : N) (slug : string) : string :=
  "ep" +:+ fmt_03d ep_num +:+ "-" +:+ slug.

End Ingest.

(** ** Vocabulary for the slugs and the episode numbers *)

Definition first_char (s : string) : option ascii :=
  match s with
  | "" => None
  | String c _ => Some c
  end.

Fixpoint last_char (s : string) : option ascii :=
  match s with
  | "" => None
  | String c "" => Some c
  | String _ s' => last_char s'
  end.

(** No two hyphens in a row *)
Fixpoint single_hyphens (s : string) : bool :=
  match s with
  | String a (String b _ as s') =>
      negb (Ingest.is_hyphen a && Ingest.is_hyphen b) && single_hyphens s'
  | _ => true
  end.

(** A hyphen, or a word character other than the underscore that
    [lower] leaves as it is *)
Definition slug_char (c : ascii) : bool :=
  Ingest.is_hyphen c
  || Re.is_word c && negb (Ingest.is_underscore c)
     && Ascii.eqb (Ingest.lower_char c) c.

Record slug_shaped (r : string) : Prop := {
  slug_length : String.length r ≤ 60;
  slug_chars : all_chars slug_char r = true;
  slug_hyphens : single_hyphens r = true;
  slug_first : first_char r ≠ Some "-"%char;
  slug_last : last_char r ≠ Some "-"%char;
}.

(** The numbers of the visible directories of a listing named
    [ep<digits>...] *)
Definition numbers_in_use (listing : gmap string node) : list N :=
  omap (λ d, Ingest.episode_number d.1)
    (omap RssFeed.visible_dir (map_to_list listing)).

(** * Properties *)

(** membership in a list written out *)
Ltac in_list :=
  repeat first [apply list_elem_of_here | apply list_elem_of_further].

(** ** Texts and logs *)

Lemma string_app_cons (x : ascii) (a b : string) :
  String x a +:+ b = String x (a +:+ b).
Proof. reflexivity. Qed.

Lemma string_app_assoc (a b c : string) : (a +:+ b) +:+ c = a +:+ (b +:+ c).
Proof.
  induction a as [|x a IH]; [done |].
  by rewrite !string_app_cons, IH.
Qed.

Lemma string_app_nil_r (a : string) : a +:+ "" = a.
Proof.
  induction a as [|x a IH]; [done |].
  by rewrite string_app_cons, IH.
Qed.

Lemma cat_app (l1 l2 : list string) : cat (l1 ++ l2) = cat l1 +:+ cat l2.
Proof.
  induction l1 as [|x l1 IH]; [done |].
  cbn [app cat foldr]. fold (cat (l1 ++ l2)). fold (cat l1).
  by rewrite IH, string_app_assoc.
Qed.

Lemma log_after_app old es1 es2 :
  log_after (log_after old es1) es2 = log_after old (es1 ++ es2).
Proof.
  destruct es1 as [|e1 es1]; [done |].
  destruct es2 as [|e2 es2]; [by rewrite app_nil_r |].
  change (log_after _ (e1 :: es1)) with
    (Some (default "" old +:+ cat (map format_line (e1 :: es1)))).
  change (log_after old ((e1 :: es1) ++ e2 :: es2)) with
    (Some (default "" old +:+ cat (map format_line ((e1 :: es1) ++ e2 :: es2)))).
  change (log_after (Some ?x) (e2 :: es2)) with
    (Some (x +:+ cat (map format_line (e2 :: es2)))).
  by rewrite map_app, cat_app, string_app_assoc.
Qed.

Lemma evolves_refl σ outs : evolves σ σ [] outs.
Proof. split; [by rewrite app_nil_r | done | done | done]. Qed.

Lemma evolves_trans σ1 σ2 σ3 es1 es2 outs1 outs2 outs :
  evolves σ1 σ2 es1 outs1 → evolves σ2 σ3 es2 outs2 →
  outs1 ⊆ outs → outs2 ⊆ outs →
  evolves σ1 σ3 (es1 ++ es2) outs.
Proof.
  intros [c1 k1 m1 l1] [c2 k2 m2 l2] H1 H2. split.
  - by rewrite c2, c1, app_assoc.
  - intros n Hn Ho. rewrite k2, k1; auto.
  - auto.
  - by rewrite l2, l1, log_after_app.
Qed.

Lemma evolves_weaken σ σ' es outs outs' :
  evolves σ σ' es outs → outs ⊆ outs' → evolves σ σ' es outs'.
Proof. intros [c k m l] H. split; auto. Qed.

(** [log_progress] makes one call and appends its line. *)
Lemma log_progress_run E name st d σ :
  ∃ σ', log_progress E name st d σ = (Ok tt, σ')
        ∧ feed_xml σ' = feed_xml σ
        ∧ evolves σ σ' [Entry (clock E (length (calls σ))) name st d] [].
Proof.
  unfold log_progress, bind, get, append_file, modify. cbn.
  eexists. split; [reflexivity |]. split; [reflexivity |]. split; cbn.
  - reflexivity.
  - intros n Hn _. by rewrite lookup_insert_ne.
  - intros n Hn. rewrite lookup_insert. case_decide; eauto.
  - rewrite lookup_insert_eq. by rewrite string_app_nil_r.
Qed.

Lemma write_file_run name content σ :
  name ≠ "publish.log" →
  ∃ σ', write_file name content σ = (Ok tt, σ')
        ∧ feed_xml σ' = feed_xml σ
        ∧ fs σ' !! name = Some content
        ∧ evolves σ σ' [] [name].
Proof.
  intros Hn. unfold write_file, modify.
  eexists. split; [reflexivity |]. split; [reflexivity |].
  split; [apply lookup_insert_eq |]. split; cbn.
  - by rewrite app_nil_r.
  - intros n _ Ho. rewrite lookup_insert_ne; [done |]. set_solver.
  - intros n Hs. rewrite lookup_insert. case_decide; eauto.
  - by rewrite lookup_insert_ne.
Qed.

(** ** The executors *)

Lemma bind_ok {S A B} (m : @M S A) (k : A → @M S B) σ a σ' :
  m σ = (Ok a, σ') → bind m k σ = k a σ'.
Proof. intros H. unfold bind. by rewrite H. Qed.

Lemma bind_raise {S A B} (m : @M S A) (k : A → @M S B) σ e σ' :
  m σ = (Raise e, σ') → bind m k σ = (Raise e, σ').
Proof. intros H. unfold bind. by rewrite H. Qed.

Lemma try_ok {S A} (m : @M S A) h σ a σ' :
  m σ = (Ok a, σ') → try_except m h σ = (Ok a, σ').
Proof. intros H. unfold try_except. by rewrite H. Qed.

Lemma try_raise {S A} (m : @M S A) h σ e σ' :
  m σ = (Raise e, σ') → try_except m h σ = h e σ'.
Proof. intros H. unfold try_except. by rewrite H. Qed.

Lemma path_exists_run name σ :
  path_exists name σ = (Ok (bool_decide (is_Some (fs σ !! name))), σ).
Proof. reflexivity. Qed.

Lemma stat_size_run dir name σ :
  is_Some (fs σ !! name) → ∃ n, stat_size dir name σ = (Ok n, σ).
Proof. intros [c Hc]. unfold stat_size. rewrite Hc. eauto. Qed.

Lemma stat_size_missing dir name σ :
  fs σ !! name = None →
  stat_size dir name σ = (Raise (enoent (dir +:+ "/" +:+ name)), σ).
Proof. intros Hc. unfold stat_size. by rewrite Hc. Qed.

Lemma extract_audio_run E dir video audio σ :
  is_Some (fs σ !! video) → audio ≠ "publish.log" →
  ∃ r σ', Audio.extract_audio E dir video audio σ = (r, σ')
    ∧ feed_xml σ' = feed_xml σ
    ∧ evolves σ σ' [] [audio]
    ∧ fs σ' !! audio = from_option Some (fs σ !! audio) (ffmpeg_output (ffmpeg E))
    ∧ ((returncode (ffmpeg E) = 0%Z ∧ r = Ok tt)
       ∨ (returncode (ffmpeg E) ≠ 0%Z
          ∧ r = Raise (RuntimeError
                 ("ffmpeg failed: " +:+ Text.take 500 (stderr (ffmpeg E)))))).
Proof.
  intros Hv Ha. unfold Audio.extract_audio.
  rewrite (bind_ok _ _ _ _ _ (path_exists_run video σ)).
  rewrite bool_decide_eq_true_2 by done. cbn [negb].
  assert (∃ σ1, (match ffmpeg_output (ffmpeg E) with
                 | Some content => write_file audio content
                 | None => ret tt
                 end) σ = (Ok tt, σ1)
                ∧ feed_xml σ1 = feed_xml σ ∧ evolves σ σ1 [] [audio]
                ∧ fs σ1 !! audio
                  = from_option Some (fs σ !! audio) (ffmpeg_output (ffmpeg E)))
    as (σ1 & Hw & Hf & Hev & Hout).
  { destruct (ffmpeg_output (ffmpeg E)) as [c|].
    - destruct (write_file_run audio c σ Ha) as (σ1 & ? & ? & ? & ?). eauto 10.
    - exists σ. split; [done |]. split; [done |]. split; [apply evolves_refl | done]. }
  rewrite (bind_ok _ _ _ _ _ Hw).
  destruct (Z.eqb_spec (returncode (ffmpeg E)) 0) as [Hz|Hz]; cbn [negb].
  - exists (Ok tt), σ1. eauto 10.
  - eexists _, σ1. split; [reflexivity |]. eauto 10.
Qed.

Lemma generate_transcript_run E dir audio output σ :
  is_Some (fs σ !! audio) → output ≠ "publish.log" →
  ∃ r σ', Transcript.generate_transcript E dir audio output σ = (r, σ')
    ∧ feed_xml σ' = feed_xml σ
    ∧ evolves σ σ' [] [output]
    ∧ ((∃ text, whisper E = inr text ∧ r = Ok tt ∧ is_Some (fs σ' !! output))
       ∨ (∃ e, whisper E = inl e ∧ r = Raise e ∧ σ' = σ)).
Proof.
  intros Ha Ho. unfold Transcript.generate_transcript.
  rewrite (bind_ok _ _ _ _ _ (path_exists_run audio σ)).
  rewrite bool_decide_eq_true_2 by done. cbn [negb].
  destruct (whisper E) as [e|text].
  - exists (Raise e), σ. split; [done |]. split; [done |].
    split; [apply evolves_refl |]. right. eauto.
  - match goal with |- context [write_file output ?c σ] =>
      destruct (write_file_run output c σ Ho) as (σ1 & Hw & Hf & Hs & Hev) end.
    exists (Ok tt), σ1. split; [done |]. split; [done |]. split; [done |].
    left. exists text. rewrite Hs. eauto.
Qed.

Lemma generate_show_notes_run E dir transcript output meta σ :
  is_Some (fs σ !! transcript) → output ≠ "publish.log" →
  ∃ r σ', ShowNotes.generate_show_notes E dir transcript output meta σ = (r, σ')
    ∧ feed_xml σ' = feed_xml σ
    ∧ evolves σ σ' [] [output]
    ∧ ((∃ text, notes_service E = inr text ∧ r = Ok tt
                ∧ is_Some (fs σ' !! output))
       ∨ (∃ e, notes_service E = inl e ∧ r = Raise e ∧ σ' = σ)).
Proof.
  intros [c Hc] Ho. unfold ShowNotes.generate_show_notes.
  assert (read_text dir transcript σ = (Ok c, σ)) as Hr.
  { unfold read_text. by rewrite Hc. }
  rewrite (bind_ok _ _ _ _ _ Hr).
  destruct (notes_service E) as [e|text].
  - exists (Raise e), σ. split; [done |]. split; [done |].
    split; [apply evolves_refl |]. right. eauto.
  - match goal with |- context [write_file output ?c σ] =>
      destruct (write_file_run output c σ Ho) as (σ1 & Hw & Hf & Hs & Hev) end.
    exists (Ok tt), σ1. split; [done |]. split; [done |]. split; [done |].
    left. exists text. rewrite Hs. eauto.
Qed.

Lemma upload_to_youtube_run E dir video meta σ :
  is_Some (fs σ !! video) →
  (∃ id, youtube_service E = inr id
         ∧ YoutubeUpload.upload_to_youtube E dir video meta σ
           = (Ok ("https://youtube.com/watch?v=" +:+ id), σ))
  ∨ (∃ e, youtube_service E = inl e
          ∧ YoutubeUpload.upload_to_youtube E dir video meta σ = (Raise e, σ)).
Proof.
  intros Hv. unfold YoutubeUpload.upload_to_youtube.
  rewrite (bind_ok _ _ _ _ _ (path_exists_run video σ)).
  rewrite bool_decide_eq_true_2 by done. cbn [negb].
  destruct (youtube_service E) as [e|id]; [right | left]; eauto.
Qed.

(** ** The feed builder only reads *)

Lemma reads_only_bind {S A B} (m : @M S A) (k : A → @M S B) r :
  reads_only m r →
  (∀ a, r = Ok a → ∃ r', reads_only (k a) r') →
  ∃ r', reads_only (bind m k) r'.
Proof.
  intros Hm Hk. destruct r as [a|e].
  - destruct (Hk a eq_refl) as [r' Hr']. exists r'. intros σ.
    unfold bind. by rewrite Hm.
  - exists (Raise e). intros σ. unfold bind. by rewrite Hm.
Qed.

Lemma reads_only_key {S} (t : table) k :
  ∃ r, reads_only (S := S) (key t k) r.
Proof. unfold key. destruct (t !! k); eexists; intros σ; reflexivity. Qed.

Lemma reads_only_section {S} (doc : toml) k :
  ∃ r, reads_only (S := S) (section doc k) r.
Proof. unfold section. destruct (doc !! k); eexists; intros σ; reflexivity. Qed.

Lemma add_entries_reads {S} E pc dirs :
  ∃ r, reads_only (S := S) (RssFeed.add_entries E pc dirs) r.
Proof.
  induction dirs as [|[name files] rest IH].
  { exists (Ok []). by intros σ. }
  cbn [RssFeed.add_entries].
  destruct (files !! "metadata.toml") as [text|]; [| done].
  destruct (toml_load E text) as [doc|]; [| by eexists; intros σ].
  destruct (reads_only_section (S := S) doc "episode") as [r1 H1].
  eapply reads_only_bind; [exact H1 |]. intros ep _.
  destruct (files !! "audio.mp3") as [audio|]; [| done].
  destruct (reads_only_key (S := S) pc "website") as [r2 H2].
  eapply reads_only_bind; [exact H2 |]. intros website _.
  destruct (reads_only_key (S := S) ep "title") as [r3 H3].
  eapply reads_only_bind; [exact H3 |]. intros title _.
  destruct IH as [r4 H4].
  eapply reads_only_bind; [exact H4 |]. intros more _.
  eexists. by intros σ.
Qed.

Lemma build_feed_reads {S} E audio_path meta :
  ∃ r, reads_only (S := S) (RssFeed.build_feed E audio_path meta) r.
Proof.
  unfold RssFeed.build_feed.
  assert (∃ r, reads_only (S := S) (RssFeed.load_podcast_config E) r) as [r0 H0].
  { unfold RssFeed.load_podcast_config.
    destruct (podcast_toml (repo E)) as [text|]; [| by eexists; intros σ].
    destruct (toml_load E text); by eexists; intros σ. }
  eapply reads_only_bind; [exact H0 |]. intros cfg _.
  destruct (reads_only_section (S := S) cfg "podcast") as [r1 H1].
  eapply reads_only_bind; [exact H1 |]. intros pc _.
  destruct (reads_only_key (S := S) pc "title") as [r2 H2].
  eapply reads_only_bind; [exact H2 |]. intros title _.
  destruct (reads_only_key (S := S) pc "description") as [r3 H3].
  eapply reads_only_bind; [exact H3 |]. intros description _.
  destruct (reads_only_key (S := S) pc "author") as [r4 H4].
  eapply reads_only_bind; [exact H4 |]. intros author _.
  destruct (reads_only_key (S := S) pc "email") as [r5 H5].
  eapply reads_only_bind; [exact H5 |]. intros email _.
  destruct (episodes (repo E)) as [listing|]; [| by eexists; intros σ].
  destruct (add_entries_reads (S := S) E pc (RssFeed.episode_dirs listing))
    as [r6 H6].
  eapply reads_only_bind; [exact H6 |]. intros entries _.
  eexists. by intros σ.
Qed.

Lemma update_rss_feed_run E audio_path meta σ :
  (∃ doc url, reads_only (S := state) (RssFeed.build_feed E audio_path meta)
                (Ok (doc, url))
              ∧ RssFeed.update_rss_feed E audio_path meta σ
                = (Ok url, State (fs σ) (Some doc) (calls σ)))
  ∨ (∃ e, reads_only (S := state) (RssFeed.build_feed E audio_path meta) (Raise e)
          ∧ RssFeed.update_rss_feed E audio_path meta σ = (Raise e, σ)).
Proof.
  destruct (build_feed_reads (S := state) E audio_path meta) as [[[doc url]|e] H].
  - left. exists doc, url. split; [done |].
    unfold RssFeed.update_rss_feed. by rewrite (bind_ok _ _ _ _ _ (H σ)).
  - right. exists e. split; [done |].
    unfold RssFeed.update_rss_feed. by rewrite (bind_raise _ _ _ _ _ (H σ)).
Qed.

(** ** The five steps *)

Lemma evolves_length σ σ' es outs :
  evolves σ σ' es outs → length (calls σ') = length (calls σ) + length es.
Proof. intros [Hc _ _ _]. by rewrite Hc, length_app. Qed.

Lemma evolves_seq σ1 σ2 σ3 es1 es2 outs :
  evolves σ1 σ2 es1 outs → evolves σ2 σ3 es2 outs →
  evolves σ1 σ3 (es1 ++ es2) outs.
Proof. intros H1 H2. by eapply evolves_trans. Qed.

(** bring an [evolves] hypothesis to the set of outputs [outs] *)
Ltac widen H outs :=
  match type of H with
  | evolves ?a ?b ?c ?o =>
      apply (evolves_weaken a b c o outs) in H; [| set_solver]
  end.

Ltac log_here Hev :=
  match goal with
  | |- context [bind (log_progress ?E ?n ?s ?d) ?k ?σ] =>
      let σ1 := fresh "σ" in
      let H := fresh "Hlog" in
      let Hf := fresh "Hfeed" in
      destruct (log_progress_run E n s d σ) as (σ1 & H & Hf & Hev);
      rewrite (bind_ok _ _ _ _ _ H)
  | |- context [log_progress ?E ?n ?s ?d ?σ] =>
      let σ1 := fresh "σ" in
      let H := fresh "Hlog" in
      let Hf := fresh "Hfeed" in
      destruct (log_progress_run E n s d σ) as (σ1 & H & Hf & Hev);
      rewrite H
  end.

Ltac exists_here name σ :=
  rewrite (bind_ok _ _ _ _ _ (path_exists_run name σ)).

Section Steps.
Variable E : env.
Variable dir : string.
Variable meta : toml.
Variable publish : table.
Variable run_steps : list string.
Variable video : string.

Lemma step_transcript_run σ :
  ∃ o σ', step_transcript E dir run_steps σ = (Ok tt, σ')
    ∧ feed_xml σ' = feed_xml σ
    ∧ evolves σ σ' (entries_of E (length (calls σ)) "transcript" o)
        (outputs_of o "transcript.md")
    ∧ transcript_facts E run_steps σ σ' o.
Proof.
  unfold step_transcript, transcript_path, audio_path.
  case_bool_decide as Hreq.
  2: { exists NotRun, σ. split; [done |]. split; [done |].
       split; [apply evolves_refl | done]. }
  exists_here "transcript.md" σ. case_bool_decide as Ht.
  { log_here Hev. eexists (Skip _), _. split; [done |]. split; [done |].
    split; [eapply evolves_weaken; [exact Hev | set_solver] |].
    split; [done |]. by left. }
  apply eq_None_not_Some in Ht.
  exists_here "audio.mp3" σ. case_bool_decide as Ha; cbn [negb].
  2: { apply eq_None_not_Some in Ha.
       log_here Hev. eexists (Skip _), _. split; [done |]. split; [done |].
       split; [eapply evolves_weaken; [exact Hev | set_solver] |].
       split; [done |]. by right. }
  log_here Hev.
  destruct (generate_transcript_run E dir "audio.mp3" "transcript.md" σ0)
    as (r & σ1 & Hrun & Hf1 & Hev1 & Hcase); [by eapply ev_mono | done |].
  destruct Hcase as [(text & Hw & -> & Hout) | (e & Hw & -> & ->)].
  - destruct (stat_size_run dir "transcript.md" σ1 Hout) as [n Hn].
    destruct (log_progress_run E "transcript" "DONE" (fmt_kb E n) σ1)
      as (σ2 & Hlog2 & Hf2 & Hev2).
    erewrite try_ok.
    2: { rewrite (bind_ok _ _ _ _ _ Hrun), (bind_ok _ _ _ _ _ Hn). exact Hlog2. }
    eexists (Done _ _), σ2. split; [done |]. split; [congruence |]. split.
    + rewrite (evolves_length _ _ _ _ Hev1), (evolves_length _ _ _ _ Hev) in Hev2.
      cbn [length] in Hev2. rewrite Nat.add_0_r, Nat.add_1_r in Hev2.
      widen Hev ["transcript.md"]. widen Hev2 ["transcript.md"].
      exact (evolves_seq _ _ _ [_] [_] _ (evolves_seq _ _ _ [_] [] _ Hev Hev1) Hev2).
    + cbn. split; [done |]. split; [done |]. split; [done |].
      split; [by eapply ev_mono | eauto].
  - erewrite try_raise.
    2: { rewrite (bind_raise _ _ _ _ _ Hrun). reflexivity. }
    log_here Hev2.
    eexists (Fail _ _), _. split; [done |]. split; [congruence |]. split.
    + rewrite (evolves_length _ _ _ _ Hev) in Hev2.
      cbn [length] in Hev2. rewrite Nat.add_1_r in Hev2.
      widen Hev ["transcript.md"]. widen Hev2 ["transcript.md"].
      exact (evolves_seq _ _ _ [_] [_] _ Hev Hev2).
    + cbn. split; [done |]. split; [done |]. split; [done |]. eauto.
Qed.

Lemma step_show_notes_run σ :
  ∃ o σ', step_show_notes E dir meta run_steps σ = (Ok tt, σ')
    ∧ feed_xml σ' = feed_xml σ
    ∧ evolves σ σ' (entries_of E (length (calls σ)) "show_notes" o)
        (outputs_of o "show-notes.md")
    ∧ show_notes_facts E run_steps σ σ' o.
Proof.
  unfold step_show_notes, show_notes_path, transcript_path.
  case_bool_decide as Hreq.
  2: { exists NotRun, σ. split; [done |]. split; [done |].
       split; [apply evolves_refl | done]. }
  exists_here "show-notes.md" σ. case_bool_decide as Hn.
  { log_here Hev. eexists (Skip _), _. split; [done |]. split; [done |].
    split; [eapply evolves_weaken; [exact Hev | set_solver] |].
    split; [done |]. by left. }
  apply eq_None_not_Some in Hn.
  exists_here "transcript.md" σ. case_bool_decide as Ht; cbn [negb].
  2: { apply eq_None_not_Some in Ht.
       log_here Hev. eexists (Skip _), _. split; [done |]. split; [done |].
       split; [eapply evolves_weaken; [exact Hev | set_solver] |].
       split; [done |]. by right. }
  log_here Hev.
  destruct (generate_show_notes_run E dir "transcript.md" "show-notes.md" meta σ0)
    as (r & σ1 & Hrun & Hf1 & Hev1 & Hcase); [by eapply ev_mono | done |].
  destruct Hcase as [(text & Hw & -> & Hout) | (e & Hw & -> & ->)].
  - destruct (stat_size_run dir "show-notes.md" σ1 Hout) as [n Hsz].
    destruct (log_progress_run E "show_notes" "DONE" (fmt_kb E n) σ1)
      as (σ2 & Hlog2 & Hf2 & Hev2).
    erewrite try_ok.
    2: { rewrite (bind_ok _ _ _ _ _ Hrun), (bind_ok _ _ _ _ _ Hsz). exact Hlog2. }
    eexists (Done _ _), σ2. split; [done |]. split; [congruence |]. split.
    + rewrite (evolves_length _ _ _ _ Hev1), (evolves_length _ _ _ _ Hev) in Hev2.
      cbn [length] in Hev2. rewrite Nat.add_0_r, Nat.add_1_r in Hev2.
      widen Hev ["show-notes.md"]. widen Hev2 ["show-notes.md"].
      exact (evolves_seq _ _ _ [_] [_] _ (evolves_seq _ _ _ [_] [] _ Hev Hev1) Hev2).
    + cbn. split; [done |]. split; [done |]. split; [done |].
      split; [by eapply ev_mono | eauto].
  - erewrite try_raise.
    2: { rewrite (bind_raise _ _ _ _ _ Hrun). reflexivity. }
    log_here Hev2.
    eexists (Fail _ _), _. split; [done |]. split; [congruence |]. split.
    + rewrite (evolves_length _ _ _ _ Hev) in Hev2.
      cbn [length] in Hev2. rewrite Nat.add_1_r in Hev2.
      widen Hev ["show-notes.md"]. widen Hev2 ["show-notes.md"].
      exact (evolves_seq _ _ _ [_] [_] _ Hev Hev2).
    + cbn. split; [done |]. split; [done |]. split; [done |]. eauto.
Qed.

Lemma step_audio_run σ :
  ∃ o σ' returned, step_audio E dir run_steps video σ = (Ok returned, σ')
    ∧ feed_xml σ' = feed_xml σ
    ∧ evolves σ σ' (entries_of E (length (calls σ)) "audio" o)
        (outputs_of o "audio.mp3")
    ∧ audio_facts E dir run_steps video σ σ' o returned.
Proof.
  unfold step_audio, audio_path.
  case_bool_decide as Hreq.
  2: { exists NotRun, σ, false. split; [done |]. split; [done |].
       split; [apply evolves_refl | done]. }
  exists_here video σ. case_bool_decide as Hv; cbn [negb].
  2: { apply eq_None_not_Some in Hv.
       log_here Hev.
       eexists (Skip _), _, false. split; [done |]. split; [done |].
       split; [eapply evolves_weaken; [exact Hev | set_solver] |].
       split; [done |]. split; [done |]. by left. }
  exists_here "audio.mp3" σ. case_bool_decide as Ha.
  { log_here Hev.
    eexists (Skip _), _, false. split; [done |]. split; [done |].
    split; [eapply evolves_weaken; [exact Hev | set_solver] |].
    split; [done |]. split; [done |]. by right. }
  apply eq_None_not_Some in Ha.
  log_here Hev.
  destruct (extract_audio_run E dir video "audio.mp3" σ0)
    as (r & σ1 & Hrun & Hf1 & Hev1 & Hout & Hcase); [by eapply ev_mono | done |].
  rewrite (ev_keep _ _ _ _ Hev "audio.mp3"), Ha in Hout by set_solver.
  assert (∀ e, r = Raise e ∨ (r = Ok tt ∧ fs σ1 !! "audio.mp3" = None
                              ∧ e = enoent (dir +:+ "/" +:+ "audio.mp3")) →
    ∃ σ', try_except
            (Audio.extract_audio E dir video "audio.mp3";;;
             size <- stat_size dir "audio.mp3";;
             log_progress E "audio" "DONE" (fmt_mb E size);;; ret false)
            (λ e, log_progress E "audio" "FAIL" (str_exn e);;; ret true) σ0
          = (Ok true, σ')
          ∧ feed_xml σ' = feed_xml σ
          ∧ evolves σ σ'
              (entries_of E (length (calls σ)) "audio"
                 (Fail ("Extracting from " +:+ video) (str_exn e)))
              ["audio.mp3"]) as Hfail.
  { intros e He.
    destruct (log_progress_run E "audio" "FAIL" (str_exn e) σ1)
      as (σ2 & Hlog2 & Hf2 & Hev2).
    exists σ2. split; [| split; [congruence |]].
    - erewrite try_raise.
      + by rewrite (bind_ok _ _ _ _ _ Hlog2).
      + destruct He as [-> | (-> & Hnone & ->)].
        * by rewrite (bind_raise _ _ _ _ _ Hrun).
        * rewrite (bind_ok _ _ _ _ _ Hrun).
          by rewrite (bind_raise _ _ _ _ _ (stat_size_missing dir _ _ Hnone)).
    - rewrite (evolves_length _ _ _ _ Hev1), (evolves_length _ _ _ _ Hev) in Hev2.
      cbn [length] in Hev2. rewrite Nat.add_0_r, Nat.add_1_r in Hev2.
      widen Hev ["audio.mp3"]. widen Hev2 ["audio.mp3"].
      exact (evolves_seq _ _ _ [_] [_] _ (evolves_seq _ _ _ [_] [] _ Hev Hev1) Hev2). }
  destruct Hcase as [[Hz ->] | [Hz ->]].
  - destruct (ffmpeg_output (ffmpeg E)) as [content|] eqn:Hfo; cbn in Hout.
    + destruct (stat_size_run dir "audio.mp3" σ1) as [n Hsz]; [by rewrite Hout |].
      destruct (log_progress_run E "audio" "DONE" (fmt_mb E n) σ1)
        as (σ2 & Hlog2 & Hf2 & Hev2).
      erewrite try_ok.
      2: { rewrite (bind_ok _ _ _ _ _ Hrun), (bind_ok _ _ _ _ _ Hsz).
           by rewrite (bind_ok _ _ _ _ _ Hlog2). }
      eexists (Done _ _), σ2, false. split; [done |]. split; [congruence |]. split.
      * rewrite (evolves_length _ _ _ _ Hev1), (evolves_length _ _ _ _ Hev) in Hev2.
        cbn [length] in Hev2. rewrite Nat.add_0_r, Nat.add_1_r in Hev2.
        widen Hev ["audio.mp3"]. widen Hev2 ["audio.mp3"].
        exact (evolves_seq _ _ _ [_] [_] _ (evolves_seq _ _ _ [_] [] _ Hev Hev1) Hev2).
      * cbn. split; [done |]. split; [done |]. split; [done |]. split; [done |].
        split; [| done]. eapply ev_mono; [exact Hev2 |]. by rewrite Hout.
    + destruct (Hfail (enoent (dir +:+ "/" +:+ "audio.mp3")))
        as (σ2 & Hrun2 & Hf2 & Hev2); [by right |].
      eexists (Fail _ _), σ2, true. split; [done |]. split; [done |].
      split; [exact Hev2 |].
      cbn. split; [done |]. split; [done |]. split; [done |]. split; [done |].
      by right.
  - destruct (Hfail (RuntimeError
                 ("ffmpeg failed: " +:+ Text.take 500 (stderr (ffmpeg E)))))
      as (σ2 & Hrun2 & Hf2 & Hev2); [by left |].
    eexists (Fail _ _), σ2, true. split; [done |]. split; [done |].
    split; [exact Hev2 |].
    cbn. split; [done |]. split; [done |]. split; [done |]. split; [done |].
    by left.
Qed.

Lemma step_youtube_run σ :
  ∃ o σ', step_youtube E dir meta publish run_steps video σ = (Ok tt, σ')
    ∧ feed_xml σ' = feed_xml σ
    ∧ evolves σ σ' (entries_of E (length (calls σ)) "youtube" o) []
    ∧ youtube_facts E publish run_steps video σ σ' o.
Proof.
  unfold step_youtube.
  destruct (bool_decide ("youtube" ∈ run_steps) && flag publish "youtube")
    eqn:Hopen.
  2: { exists NotRun, σ. split; [done |]. split; [done |].
       split; [apply evolves_refl |]. intros [Hreq Hflag].
       rewrite bool_decide_eq_true_2, Hflag in Hopen; done. }
  apply andb_true_iff in Hopen as [Hreq%bool_decide_eq_true Hflag].
  exists_here video σ. case_bool_decide as Hv; cbn [negb].
  2: { apply eq_None_not_Some in Hv.
       log_here Hev. eexists (Skip _), _. split; [done |]. split; [done |].
       split; [exact Hev |]. done. }
  log_here Hev.
  destruct (upload_to_youtube_run E dir video meta σ0)
    as [(id & Hs & Hrun) | (e & Hs & Hrun)]; [by eapply ev_mono | |].
  - match goal with |- context [log_progress E "youtube" "DONE"] =>
      destruct (log_progress_run E "youtube" "DONE"
                  ("https://youtube.com/watch?v=" +:+ id) σ0)
        as (σ2 & Hlog2 & Hf2 & Hev2) end.
    erewrite try_ok.
    2: { rewrite (bind_ok _ _ _ _ _ Hrun). exact Hlog2. }
    eexists (Done _ _), σ2. split; [done |]. split; [congruence |]. split.
    + rewrite (evolves_length _ _ _ _ Hev) in Hev2.
      cbn [length] in Hev2. rewrite Nat.add_1_r in Hev2.
      exact (evolves_seq _ _ _ [_] [_] _ Hev Hev2).
    + cbn. split; [done |]. split; [done |]. eauto.
  - erewrite try_raise.
    2: { rewrite (bind_raise _ _ _ _ _ Hrun). reflexivity. }
    log_here Hev2.
    eexists (Fail _ _), _. split; [done |]. split; [congruence |]. split.
    + rewrite (evolves_length _ _ _ _ Hev) in Hev2.
      cbn [length] in Hev2. rewrite Nat.add_1_r in Hev2.
      exact (evolves_seq _ _ _ [_] [_] _ Hev Hev2).
    + cbn. split; [done |]. split; [done |]. eauto.
Qed.

Lemma step_rss_run σ :
  ∃ o σ', step_rss E meta publish run_steps σ = (Ok tt, σ')
    ∧ evolves σ σ' (entries_of E (length (calls σ)) "rss" o) []
    ∧ rss_facts E meta publish run_steps σ σ' o.
Proof.
  unfold step_rss, audio_path.
  destruct (bool_decide ("rss" ∈ run_steps)
            && (flag publish "spotify" || flag publish "apple")) eqn:Hopen.
  2: { exists NotRun, σ. split; [done |].
       split; [apply evolves_refl |]. split; [| done]. intros [Hreq Hflag].
       rewrite bool_decide_eq_true_2 in Hopen by done.
       destruct Hflag as [Hflag | Hflag]; rewrite Hflag in Hopen;
         [done | by rewrite orb_true_r in Hopen]. }
  apply andb_true_iff in Hopen as [Hreq%bool_decide_eq_true Hflag].
  apply orb_true_iff in Hflag.
  exists_here "audio.mp3" σ. case_bool_decide as Ha; cbn [negb].
  2: { apply eq_None_not_Some in Ha.
       log_here Hev. eexists (Skip _), _. split; [done |].
       split; [exact Hev |]. done. }
  log_here Hev.
  destruct (update_rss_feed_run E "audio.mp3" meta σ0)
    as [(doc & url & Hb & Hrun) | (e & Hb & Hrun)].
  - destruct (log_progress_run E "rss" "DONE" url
                (State (fs σ0) (Some doc) (calls σ0)))
      as (σ2 & Hlog2 & Hf2 & Hev2).
    erewrite try_ok.
    2: { rewrite (bind_ok _ _ _ _ _ Hrun). exact Hlog2. }
    eexists (Done _ _), σ2. split; [done |]. split.
    + cbn [calls] in Hev2. rewrite (evolves_length _ _ _ _ Hev) in Hev2.
      cbn [length] in Hev2. rewrite Nat.add_1_r in Hev2.
      assert (evolves σ0 σ2
                [Entry (clock E (S (length (calls σ)))) "rss" "DONE" url] [])
        as Hev3.
      { destruct Hev2 as [c k m l]. split; done. }
      exact (evolves_seq _ _ _ [_] [_] _ Hev Hev3).
    + cbn. split; [done |]. split; [done |]. exists doc. split; [done |].
      by rewrite Hf2.
  - erewrite try_raise.
    2: { rewrite (bind_raise _ _ _ _ _ Hrun). reflexivity. }
    log_here Hev2.
    eexists (Fail _ _), _. split; [done |]. split.
    + rewrite (evolves_length _ _ _ _ Hev) in Hev2.
      cbn [length] in Hev2. rewrite Nat.add_1_r in Hev2.
      exact (evolves_seq _ _ _ [_] [_] _ Hev Hev2).
    + cbn. split; [done |]. split; [done |]. split; [congruence |]. eauto.
Qed.

End Steps.

(** ** The run, step by step *)

Lemma load_metadata_run E dir σ :
  load_metadata E dir σ
  = (match fs σ !! "metadata.toml" with
     | None => Raise (FileNotFoundError ("No metadata.toml in " +:+ dir))
     | Some text =>
         match toml_load E text with
         | Some doc => Ok doc
         | None => Raise (TOMLDecodeError "Invalid TOML document")
         end
     end, σ).
Proof.
  unfold load_metadata, bind, get.
  destruct (fs σ !! "metadata.toml") as [text|]; [| done].
  by destruct (toml_load E text).
Qed.

Lemma publish_episode_aborts E dir steps σ :
  config_of E σ = None →
  ∃ e, publish_episode E dir steps σ = (Raise e, σ).
Proof.
  unfold config_of, publish_episode. intros Hc.
  unfold bind at 1. rewrite load_metadata_run.
  destruct (fs σ !! "metadata.toml") as [text|]; [| by eexists].
  cbn in Hc. destruct (toml_load E text) as [meta|]; [| by eexists].
  cbn in Hc. unfold bind at 1, section.
  destruct (meta !! "episode") as [ep|]; [| by eexists].
  cbn in Hc. unfold ret at 1. unfold bind at 1, key.
  destruct (ep !! "title") as [title|]; [| by eexists].
  cbn in Hc. unfold ret at 1.
  destruct (default (VStr "video.mp4") (default ∅ (meta !! "files") !! "video"));
    [done | by eexists | by eexists].
Qed.

Lemma publish_episode_runs E dir steps σ meta video :
  config_of E σ = Some (meta, video) →
  ∃ tr σ', publish_episode E dir steps σ = (Ok tt, σ')
           ∧ pipeline E dir meta (run_steps_of steps) video σ σ' tr.
Proof.
  unfold config_of, publish_episode. intros Hc.
  unfold bind at 1. rewrite load_metadata_run.
  destruct (fs σ !! "metadata.toml") as [text|]; [| done].
  cbn in Hc. destruct (toml_load E text) as [meta'|]; [| done].
  cbn in Hc. unfold bind at 1, section.
  destruct (meta' !! "episode") as [ep|]; [| done].
  cbn in Hc. unfold ret at 1. unfold bind at 1, key.
  destruct (ep !! "title") as [title|]; [| done].
  cbn in Hc. unfold ret at 1.
  destruct (default (VStr "video.mp4") (default ∅ (meta' !! "files") !! "video"))
    as [v| |]; [| done | done].
  injection Hc as -> ->.
  set (rs := run_steps_of steps).
  destruct (step_audio_run E dir rs video σ)
    as (oa & σa & returned & Ha & Hfa & Heva & Hfacta).
  rewrite (bind_ok _ _ _ _ _ Ha).
  destruct returned.
  { exists (Trace oa NotRun NotRun NotRun NotRun), σa. split; [done |].
    exists σa, true. cbn. eauto 10. }
  destruct (step_transcript_run E dir rs σa) as (ot & σt & Ht & Hft & Hevt & Hfactt).
  rewrite (bind_ok _ _ _ _ _ Ht).
  destruct (step_show_notes_run E dir meta rs σt)
    as (on & σn & Hn & Hfn & Hevn & Hfactn).
  rewrite (bind_ok _ _ _ _ _ Hn).
  destruct (step_youtube_run E dir meta (default ∅ (meta !! "publish")) rs video σn)
    as (oy & σy & Hy & Hfy & Hevy & Hfacty).
  rewrite (bind_ok _ _ _ _ _ Hy).
  destruct (step_rss_run E meta (default ∅ (meta !! "publish")) rs σy)
    as (or & σ' & Hr & Hevr & Hfactr).
  exists (Trace oa ot on oy or), σ'. split; [exact Hr |].
  exists σa, false. cbn. split; [done |]. split; [done |]. split; [done |].
  exists σt, σn, σy. unfold publish_of.
  repeat (split; [done || congruence |]). done.
Qed.

(** ** The entries of a run *)

Lemma entries_of_step E n name o e :
  e ∈ entries_of E n name o → step e = name.
Proof. destruct o; cbn; set_solver. Qed.

Lemma entries_of_fail E n name o e :
  e ∈ entries_of E n name o → status e = "FAIL" →
  ∃ start, o = Fail start (detail e).
Proof.
  destruct o as [|why|start result|start message]; cbn; intros He Hs.
  - set_solver.
  - apply list_elem_of_singleton in He as ->. done.
  - apply elem_of_cons in He as [-> | He]; [done |].
    apply list_elem_of_singleton in He as ->. done.
  - apply elem_of_cons in He as [-> | He]; [done |].
    apply list_elem_of_singleton in He as ->. by exists start.
Qed.


Lemma entries_of_status E n name o e :
  e ∈ entries_of E n name o →
  match o with
  | NotRun => False
  | Skip _ => status e = "SKIP"
  | Done _ _ => status e = "START" ∨ status e = "DONE"
  | Fail _ _ => status e = "START" ∨ status e = "FAIL"
  end.
Proof. destruct o; cbn; set_solver. Qed.

Lemma entries_of_nil E n name o : entries_of E n name o = [] ↔ o = NotRun.
Proof. destruct o; cbn; split; done. Qed.

Lemma outcome_of_audio tr : outcome_of tr "audio" = t_audio tr.
Proof. reflexivity. Qed.
Lemma outcome_of_transcript tr : outcome_of tr "transcript" = t_transcript tr.
Proof. reflexivity. Qed.
Lemma outcome_of_show_notes tr : outcome_of tr "show_notes" = t_show_notes tr.
Proof. reflexivity. Qed.
Lemma outcome_of_youtube tr : outcome_of tr "youtube" = t_youtube tr.
Proof. reflexivity. Qed.
Lemma outcome_of_rss tr : outcome_of tr "rss" = t_rss tr.
Proof. reflexivity. Qed.

Lemma elem_of_entries_from E tr n names e :
  e ∈ entries_from E tr n names →
  step e ∈ names ∧ ∃ m, e ∈ entries_of E m (step e) (outcome_of tr (step e)).
Proof.
  revert n. induction names as [|name rest IH]; intros n; cbn [entries_from].
  - set_solver.
  - intros [He | He]%elem_of_app.
    + pose proof (entries_of_step _ _ _ _ _ He) as Hs. rewrite Hs.
      split; [set_solver | eauto].
    + destruct (IH _ He) as [Hin Hm]. split; [set_solver | done].
Qed.

Lemma entries_from_elem E tr n names name :
  name ∈ names → ∃ m, entries_of E m name (outcome_of tr name)
                      ⊆ entries_from E tr n names.
Proof.
  revert n. induction names as [|x rest IH]; intros n; cbn [entries_from].
  - set_solver.
  - intros [-> | Hin]%elem_of_cons.
    + exists n. set_solver.
    + destruct (IH (n + length (entries_of E n x (outcome_of tr x))) Hin)
        as [m Hm].
      exists m. set_solver.
Qed.

(** Positions in the log follow the positions of the steps in [names]. *)
Lemma entries_from_order E tr n names i j ei ej :
  StronglySorted (λ a b, rank a < rank b) names →
  i < j →
  entries_from E tr n names !! i = Some ei →
  entries_from E tr n names !! j = Some ej →
  rank (step ei) ≤ rank (step ej).
Proof.
  intros Hs. revert n i j. induction Hs as [|name rest Hrest IH Hall]; intros n i j.
  - cbn. by rewrite lookup_nil.
  - cbn [entries_from]. intros Hij Hi Hj.
    set (es := entries_of E n name (outcome_of tr name)) in *.
    destruct (decide (i < length es)) as [Hil|Hil].
    + rewrite lookup_app_l in Hi by lia.
      apply list_elem_of_lookup_2, entries_of_step in Hi. rewrite Hi.
      destruct (decide (j < length es)) as [Hjl|Hjl].
      * rewrite lookup_app_l in Hj by lia.
        apply list_elem_of_lookup_2, entries_of_step in Hj. by rewrite Hj.
      * rewrite lookup_app_r in Hj by lia.
        apply list_elem_of_lookup_2, elem_of_entries_from in Hj as [Hj _].
        eapply Forall_forall in Hall; [| exact Hj]. lia.
    + rewrite lookup_app_r in Hi, Hj by lia.
      eapply (IH _ (i - length es) (j - length es)); [lia | done | done].
Qed.

Lemma all_steps_sorted : StronglySorted (λ a b, rank a < rank b) all_steps.
Proof.
  unfold all_steps.
  repeat (constructor; [| repeat constructor; cbv; lia]). constructor.
Qed.

Lemma outputs_of_subseteq o name outs :
  name ∈ outs → outputs_of o name ⊆ outs.
Proof. intros Hin. destruct o; cbn; set_solver. Qed.

(** The calls a run added are those of its trace. *)
Lemma pipeline_entries E dir meta rs video σ σ' tr :
  pipeline E dir meta rs video σ σ' tr →
  evolves σ σ' (trace_entries E tr (length (calls σ)))
    ["audio.mp3"; "transcript.md"; "show-notes.md"].
Proof.
  intros (σa & returned & Hfa & Heva & Hfeed & Hrest).
  unfold trace_entries, all_steps. cbn [entries_from].
  rewrite outcome_of_audio, outcome_of_transcript, outcome_of_show_notes,
    outcome_of_youtube, outcome_of_rss.
  set (outs := ["audio.mp3"; "transcript.md"; "show-notes.md"]).
  apply (evolves_weaken _ _ _ _ outs) in Heva;
    [| apply outputs_of_subseteq; set_solver].
  destruct returned.
  - destruct Hrest as (-> & -> & -> & -> & ->). cbn [entries_of length app].
    by rewrite app_nil_r.
  - destruct Hrest as (σt & σn & σy & Hft & Hevt & Hfn & Hevn & Hfy & Hevy
                       & Hfeedy & Hfr & Hevr).
    rewrite (evolves_length _ _ _ _ Heva) in Hevt.
    pose proof (evolves_length _ _ _ _ Hevt) as Hlt.
    rewrite (evolves_length _ _ _ _ Heva) in Hlt. rewrite Hlt in Hevn.
    pose proof (evolves_length _ _ _ _ Hevn) as Hln.
    rewrite Hlt in Hln. rewrite Hln in Hevy.
    pose proof (evolves_length _ _ _ _ Hevy) as Hly.
    rewrite Hln in Hly. rewrite Hly in Hevr.
    apply (evolves_weaken _ _ _ _ outs) in Hevt;
      [| apply outputs_of_subseteq; set_solver].
    apply (evolves_weaken _ _ _ _ outs) in Hevn;
      [| apply outputs_of_subseteq; set_solver].
    widen Hevy outs. widen Hevr outs.
    rewrite app_nil_r.
    eapply evolves_seq; [exact Heva |].
    eapply evolves_seq; [exact Hevt |].
    eapply evolves_seq; [exact Hevn |].
    eapply evolves_seq; [exact Hevy | exact Hevr].
Qed.

Lemma evolves_new_calls σ σ' es outs :
  evolves σ σ' es outs → new_calls σ σ' = es.
Proof.
  intros [Hc _ _ _]. unfold new_calls. rewrite Hc. by rewrite drop_app_length.
Qed.

(** ** What a run did, from its trace *)

Lemma run_summary E dir steps σ meta video :
  config_of E σ = Some (meta, video) →
  ∃ tr, (publish_episode E dir steps σ).1 = Ok tt
        ∧ pipeline E dir meta (run_steps_of steps) video σ
            (publish_episode E dir steps σ).2 tr
        ∧ new_calls σ (publish_episode E dir steps σ).2
          = trace_entries E tr (length (calls σ)).
Proof.
  intros Hc. destruct (publish_episode_runs E dir steps σ meta video Hc)
    as (tr & σ' & Hrun & Hp).
  exists tr. rewrite Hrun. cbn. split; [done |]. split; [done |].
  eapply evolves_new_calls, pipeline_entries, Hp.
Qed.


(** Otherwise every requested step that the flags let through has one. *)
Lemma pipeline_evaluated E dir meta rs video σ σ' tr name :
  pipeline E dir meta rs video σ σ' tr →
  is_fail (t_audio tr) = false →
  name ∈ all_steps → name ∈ rs → gate_open meta name →
  outcome_of tr name ≠ NotRun.
Proof.
  intros (σa & returned & Hfa & _ & _ & Hrest) Hfail Hname Hreq [Hgy Hgr].
  assert (returned = false) as ->.
  { destruct (t_audio tr); cbn in Hfa; try tauto. done. }
  destruct Hrest as (σt & σn & σy & Hft & _ & Hfn & _ & Hfy & _ & _ & Hfr & _).
  unfold all_steps in Hname.
  repeat (apply elem_of_cons in Hname as [-> | Hname]).
  - rewrite outcome_of_audio. intros Ho. rewrite Ho in Hfa. by destruct Hfa.
  - rewrite outcome_of_transcript. intros Ho. by rewrite Ho in Hft.
  - rewrite outcome_of_show_notes. intros Ho. by rewrite Ho in Hfn.
  - rewrite outcome_of_youtube. intros Ho. rewrite Ho in Hfy.
    apply Hfy. split; [done | by apply Hgy].
  - rewrite outcome_of_rss. intros Ho. rewrite Ho in Hfr.
    destruct Hfr as [Hfr _]. apply Hfr. split; [done | by apply Hgr].
  - by apply elem_of_nil in Hname.
Qed.

Lemma entries_of_nonempty E n name o :
  o ≠ NotRun → ∃ e, e ∈ entries_of E n name o.
Proof. destruct o; [done | | |]; intros _; eexists; cbn; left. Qed.

(** An entry of the trace with a given step and status tells the outcome
    of that step. *)
Lemma trace_entry_outcome E tr n e :
  e ∈ trace_entries E tr n →
  step e ∈ all_steps
  ∧ ∃ m, e ∈ entries_of E m (step e) (outcome_of tr (step e)).
Proof. apply elem_of_entries_from. Qed.

(** ** Failure isolation *)



(** ** Which steps have calls *)

Lemma publish_episode_silent E dir steps σ :
  config_of E σ = None → new_calls σ (publish_episode E dir steps σ).2 = [].
Proof.
  intros Hc. destruct (publish_episode_aborts E dir steps σ Hc) as [e ->].
  cbn. unfold new_calls. by rewrite drop_all.
Qed.

(** A step with an outcome was requested and let through by the flags. *)
Lemma pipeline_requested E dir meta rs video σ σ' tr name :
  pipeline E dir meta rs video σ σ' tr →
  outcome_of tr name ≠ NotRun →
  name ∈ all_steps ∧ name ∈ rs ∧ gate_open meta name.
Proof.
  intros (σa & returned & Hfa & _ & _ & Hrest) Ho.
  assert (name ∈ all_steps) as Hname.
  { unfold outcome_of in Ho. unfold all_steps.
    repeat case_decide; subst; try done; set_solver. }
  split; [done |].
  assert (∀ o : outcome, o ≠ NotRun →
            match o with NotRun => False | _ => True end) as Hnr
    by (by intros []).
  unfold all_steps in Hname.
  repeat (apply elem_of_cons in Hname as [-> | Hname]).
  - rewrite outcome_of_audio in Ho. split; [| by split].
    destruct (t_audio tr); cbn in Hfa; tauto.
  - rewrite outcome_of_transcript in Ho. split; [| by split].
    destruct returned; [by destruct Hrest as (_ & ? & _) |].
    destruct Hrest as (σt & σn & σy & Hft & _).
    destruct (t_transcript tr); cbn in Hft; tauto.
  - rewrite outcome_of_show_notes in Ho. split; [| by split].
    destruct returned; [by destruct Hrest as (_ & _ & ? & _) |].
    destruct Hrest as (σt & σn & σy & _ & _ & Hfn & _).
    destruct (t_show_notes tr); cbn in Hfn; tauto.
  - rewrite outcome_of_youtube in Ho.
    destruct returned; [by destruct Hrest as (_ & _ & _ & ? & _) |].
    destruct Hrest as (σt & σn & σy & _ & _ & _ & _ & Hfy & _).
    assert (youtube_open (publish_of meta) rs) as [Hreq Hflag]
      by (destruct (t_youtube tr); cbn in Hfy; tauto).
    split; [done |]. split; [done | by intros [=]].
  - rewrite outcome_of_rss in Ho.
    destruct returned; [by destruct Hrest as (_ & _ & _ & _ & ?) |].
    destruct Hrest as (σt & σn & σy & _ & _ & _ & _ & _ & _ & _ & Hfr & _).
    assert (rss_open (publish_of meta) rs) as [Hreq Hflag]
      by (destruct (t_rss tr); cbn in Hfr; tauto).
    split; [done |]. split; [by intros [=] | done].
  - by apply elem_of_nil in Hname.
Qed.

Lemma attempted_outcome E tr n name :
  attempted (trace_entries E tr n) name ↔ outcome_of tr name ≠ NotRun.
Proof.
  split.
  - intros (e & He & <-). apply trace_entry_outcome in He as (_ & m & He).
    intros Ho. rewrite Ho in He. by apply elem_of_nil in He.
  - intros Ho.
    assert (name ∈ all_steps) as Hname.
    { unfold outcome_of in Ho. unfold all_steps.
      repeat case_decide; subst; try done; set_solver. }
    destruct (entries_from_elem E tr n all_steps name Hname) as [m Hsub].
    destruct (entries_of_nonempty E m name _ Ho) as [e He].
    exists e. split; [by apply Hsub | by eapply entries_of_step].
Qed.

Lemma audio_failed_outcome E tr n :
  audio_failed (trace_entries E tr n) ↔ is_fail (t_audio tr) = true.
Proof.
  split.
  - intros (e & He & Hs & Hst). apply trace_entry_outcome in He as (_ & m & He).
    rewrite Hs, outcome_of_audio in He.
    destruct (entries_of_fail _ _ _ _ _ He Hst) as [start ->]. done.
  - intros Hf. destruct (t_audio tr) as [| | |start message] eqn:Ho; try done.
    destruct (entries_from_elem E tr n all_steps "audio") as [m Hsub];
      [unfold all_steps; in_list |].
    rewrite outcome_of_audio, Ho in Hsub.
    exists (Entry (clock E (S m)) "audio" "FAIL" message).
    split; [| done]. apply Hsub. cbn [entries_of]. in_list.
Qed.

(** ** Gating by the publish flags *)

Lemma publish_episode_body E dir steps σ meta video :
  config_of E σ = Some (meta, video) →
  publish_episode E dir steps σ
  = run_steps_body E dir meta (run_steps_of steps) video σ.
Proof.
  unfold config_of, publish_episode. intros Hc.
  unfold bind at 1. rewrite load_metadata_run.
  destruct (fs σ !! "metadata.toml") as [text|]; [| done].
  cbn in Hc. destruct (toml_load E text) as [meta'|]; [| done].
  cbn in Hc. unfold bind at 1, section.
  destruct (meta' !! "episode") as [ep|]; [| done].
  cbn in Hc. unfold ret at 1. unfold bind at 1, key.
  destruct (ep !! "title") as [title|]; [| done].
  cbn in Hc. unfold ret at 1.
  destruct (default (VStr "video.mp4") (default ∅ (meta' !! "files") !! "video"))
    as [v| |]; [| done | done].
  by injection Hc as -> ->.
Qed.

Lemma step_youtube_closed E dir meta publish rs video :
  flag publish "youtube" = false →
  step_youtube E dir meta publish rs video = ret tt.
Proof. intros H. unfold step_youtube. by rewrite H, andb_false_r. Qed.

Lemma step_rss_closed E meta publish rs :
  flag publish "spotify" = false → flag publish "apple" = false →
  step_rss E meta publish rs = ret tt.
Proof. intros H1 H2. unfold step_rss. by rewrite H1, H2, andb_false_r. Qed.

(** C3, as the code has it.  When the flag of a gated step is off, a run
    makes no call for that step at all (no SKIP line either) and does not
    invoke its executor: the run is the same whatever the video host, or
    the feed builder's workspace, would have answered, and the feed file
    is left as it was. *)
Theorem closed_gate_is_silent E dir steps σ meta video :
  config_of E σ = Some (meta, video) →
  let out := publish_episode E dir steps σ in
  (flag (publish_of meta) "youtube" = false →
   ¬ attempted (new_calls σ out.2) "youtube"
   ∧ ∀ y, publish_episode (set_youtube_service E y) dir steps σ = out)
  ∧ (flag (publish_of meta) "spotify" = false →
     flag (publish_of meta) "apple" = false →
     ¬ attempted (new_calls σ out.2) "rss"
     ∧ feed_xml out.2 = feed_xml σ
     ∧ ∀ w, publish_episode (set_repo E w) dir steps σ = out).
Proof.
  intros Hc. cbn zeta.
  destruct (run_summary E dir steps σ meta video Hc) as (tr & Hok & Hp & Hnew).
  rewrite Hnew. split.
  - intros Hflag. split.
    + rewrite attempted_outcome. intros Ho.
      destruct (pipeline_requested _ _ _ _ _ _ _ _ _ Hp Ho) as (_ & _ & Hg & _).
      rewrite Hg in Hflag; done.
    + intros y.
      rewrite (publish_episode_body (set_youtube_service E y) _ _ _ meta video Hc).
      rewrite (publish_episode_body E _ _ _ meta video Hc).
      unfold run_steps_body.
      rewrite (step_youtube_closed (set_youtube_service E y)) by done.
      rewrite (step_youtube_closed E) by done.
      reflexivity.
  - intros Hs Ha. split; [| split].
    + rewrite attempted_outcome. intros Ho.
      destruct (pipeline_requested _ _ _ _ _ _ _ _ _ Hp Ho) as (_ & _ & _ & Hg).
      destruct Hg as [Hg | Hg]; [done | congruence | congruence].
    + destruct Hp as (σa & returned & Hfa & _ & Hfeed & Hrest).
      destruct returned.
      * by destruct Hrest as (-> & _).
      * destruct Hrest as (σt & σn & σy & _ & _ & _ & _ & _ & _ & Hfy & Hfr & _).
        destruct (t_rss tr); cbn in Hfr.
        -- destruct Hfr as [_ ->]. done.
        -- destruct Hfr as ([_ [? | ?]] & _); congruence.
        -- destruct Hfr as ([_ [? | ?]] & _); congruence.
        -- destruct Hfr as ([_ [? | ?]] & _); congruence.
    + intros w.
      rewrite (publish_episode_body (set_repo E w) _ _ _ meta video Hc).
      rewrite (publish_episode_body E _ _ _ meta video Hc).
      unfold run_steps_body.
      rewrite (step_rss_closed (set_repo E w)) by done.
      rewrite (step_rss_closed E) by done.
      reflexivity.
Qed.

(** C3 on the episode with every target switched off. *)
Lemma closed_gate_is_silent_witness :
  config_of Demo.E Demo.quiet = Some (Demo.quiet_meta, "video.mp4")
  ∧ let out := publish_episode Demo.E Demo.dir None Demo.quiet in
    (flag (publish_of Demo.quiet_meta) "youtube" = false →
     ¬ attempted (new_calls Demo.quiet out.2) "youtube"
     ∧ ∀ y, publish_episode (set_youtube_service Demo.E y) Demo.dir None
              Demo.quiet = out)
    ∧ (flag (publish_of Demo.quiet_meta) "spotify" = false →
       flag (publish_of Demo.quiet_meta) "apple" = false →
       ¬ attempted (new_calls Demo.quiet out.2) "rss"
       ∧ feed_xml out.2 = feed_xml Demo.quiet
       ∧ ∀ w, publish_episode (set_repo Demo.E w) Demo.dir None Demo.quiet = out).
Proof.
  split; [vm_compute; reflexivity |].
  apply (closed_gate_is_silent Demo.E Demo.dir None Demo.quiet
           Demo.quiet_meta "video.mp4").
  vm_compute; reflexivity.
Defined.


(** C3 as stated fails: with the video target off and the video file
    present, a full run logs nothing for the upload step, in particular no
    SKIP line saying the target is disabled; likewise for the feed step. *)
Lemma closed_gate_logs_no_skip :
  let new := new_calls Demo.quiet
               (publish_episode Demo.E Demo.dir None Demo.quiet).2 in
  flag (publish_of Demo.quiet_meta) "youtube" = false
  ∧ is_Some (fs Demo.quiet !! "video.mp4")
  ∧ "youtube" ∈ run_steps_of None
  ∧ ¬ (∃ e, e ∈ new ∧ step e = "youtube" ∧ status e = "SKIP"
            ∧ detail e = "target disabled")
  ∧ ¬ (∃ e, e ∈ new ∧ step e = "rss").
Proof.
  cbn zeta.
  assert (forallb (λ e, negb (String.eqb (step e) "youtube")
                        && negb (String.eqb (step e) "rss"))
            (new_calls Demo.quiet
               (publish_episode Demo.E Demo.dir None Demo.quiet).2) = true) as HF.
  { vm_compute. reflexivity. }
  rewrite forallb_forall in HF.
  split; [vm_compute; reflexivity |].
  split; [exists "v"; vm_compute; reflexivity |].
  split; [unfold run_steps_of, all_steps; in_list |]. split.
  - intros (e & He & Hs & _). apply list_elem_of_In, HF in He.
    rewrite Hs in He. discriminate He.
  - intros (e & He & Hs). apply list_elem_of_In, HF in He.
    rewrite Hs in He. discriminate He.
Qed.

(** ** The feed step and its two flags *)

Lemma filter_entries_of E n name name' o :
  filter (λ e, step e = name) (entries_of E n name' o)
  = if decide (name' = name) then entries_of E n name' o else [].
Proof.
  destruct o; cbn; [by case_decide | | |];
    repeat (rewrite filter_cons; cbn); rewrite ?filter_nil;
    repeat case_decide; done.
Qed.




(** ** Order of the request *)

Lemma run_steps_of_members steps steps' :
  (∀ s, s ∈ default [] steps' ↔ s ∈ default [] steps) →
  ∀ s, s ∈ run_steps_of steps' ↔ s ∈ run_steps_of steps.
Proof.
  intros H s.
  destruct steps as [[|x l]|], steps' as [[|x' l']|]; cbn in *; try done.
  - specialize (H x'). set_solver.
  - specialize (H x). set_solver.
  - specialize (H x). set_solver.
  - specialize (H x'). set_solver.
Qed.

Lemma publish_episode_members E dir steps steps' σ :
  (∀ s, s ∈ default [] steps' ↔ s ∈ default [] steps) →
  publish_episode E dir steps' σ = publish_episode E dir steps σ.
Proof.
  intros H. pose proof (run_steps_of_members steps steps' H) as Hm.
  unfold publish_episode, step_audio, step_transcript, step_show_notes,
    step_youtube, step_rss.
  rewrite (bool_decide_ext _ _ (Hm "audio")),
    (bool_decide_ext _ _ (Hm "transcript")),
    (bool_decide_ext _ _ (Hm "show_notes")),
    (bool_decide_ext _ _ (Hm "youtube")),
    (bool_decide_ext _ _ (Hm "rss")).
  reflexivity.
Qed.

(** C4, as the code has it.  The order of the request, and repetitions in
    it, never matter: two requests with the same members give the same
    run.  Every step with a call is a requested step of the enumeration,
    and the calls follow the fixed order audio, transcript, show_notes,
    youtube, rss.  The steps with calls are all the requested ones only up
    to the flags and a failed audio step: in a run not cut short by a
    failed audio step, a step has calls exactly when it is requested and
    the flags let it through. *)
Theorem request_order_is_irrelevant E dir steps σ :
  let new := new_calls σ (publish_episode E dir steps σ).2 in
  (∀ steps', (∀ s, s ∈ default [] steps' ↔ s ∈ default [] steps) →
             publish_episode E dir steps' σ = publish_episode E dir steps σ)
  ∧ (∀ name, attempted new name →
             name ∈ all_steps ∧ name ∈ run_steps_of steps)
  ∧ (∀ i j ei ej, i < j → new !! i = Some ei → new !! j = Some ej →
                  rank (step ei) ≤ rank (step ej))
  ∧ (∀ meta video, config_of E σ = Some (meta, video) →
       ¬ audio_failed new →
       ∀ name, attempted new name ↔
               name ∈ all_steps ∧ name ∈ run_steps_of steps
               ∧ gate_open meta name).
Proof.
  cbn zeta. split; [intros steps'; apply publish_episode_members |].
  destruct (config_of E σ) as [[meta video]|] eqn:Hc.
  2: { rewrite (publish_episode_silent E dir steps σ Hc).
       split; [| split; [| done]].
       - intros name (e & He & _). by apply elem_of_nil in He.
       - intros i j ei ej _ Hi. by rewrite lookup_nil in Hi. }
  destruct (run_summary E dir steps σ meta video Hc) as (tr & Hok & Hp & Hnew).
  rewrite Hnew. split; [| split].
  - intros name Ha. apply attempted_outcome in Ha.
    destruct (pipeline_requested _ _ _ _ _ _ _ _ _ Hp Ha) as (? & ? & _). done.
  - intros i j ei ej. apply entries_from_order, all_steps_sorted.
  - intros meta' video' [= <- <-] Hnf name.
    rewrite audio_failed_outcome in Hnf. apply not_true_is_false in Hnf.
    rewrite attempted_outcome. split.
    + apply (pipeline_requested _ _ _ _ _ _ _ _ _ Hp).
    + intros (Hname & Hreq & Hg).
      by apply (pipeline_evaluated _ _ _ _ _ _ _ _ name Hp Hnf).
Qed.

(** C4 on the demo episode, asked for the feed step before the audio
    step. *)
Lemma request_order_is_irrelevant_witness :
  publish_episode Demo.E Demo.dir (Some ["rss"; "audio"]) Demo.fresh
  = publish_episode Demo.E Demo.dir (Some ["audio"; "rss"; "audio"]) Demo.fresh
  ∧ map Demo.shown
      (new_calls Demo.fresh
         (publish_episode Demo.E Demo.dir (Some ["rss"; "audio"]) Demo.fresh).2)
    = [("audio", "START", "Extracting from video.mp4");
       ("audio", "DONE", "3 MB");
       ("rss", "START", "Updating RSS feed");
       ("rss", "DONE", "https://example.org/feed/podcast.xml")].
Proof.
  split; [| vm_compute; reflexivity].
  apply (request_order_is_irrelevant Demo.E Demo.dir
           (Some ["audio"; "rss"; "audio"]) Demo.fresh).
  intros s. cbn. set_solver.
Defined.

(** C4 as stated fails: a requested step need not be attempted.  Asked for
    transcript and audio on an episode whose audio extraction fails, the
    run attempts audio only. *)
Lemma requested_step_not_attempted :
  let E := set_ffmpeg Demo.E (FfmpegRun 1 "boom" None) in
  let requested := ["transcript"; "audio"] in
  let new := new_calls Demo.fresh
               (publish_episode E Demo.dir (Some requested) Demo.fresh).2 in
  ¬ (∀ name, name ∈ requested ↔ attempted new name).
Proof.
  cbn zeta. intros H.
  destruct (proj1 (H "transcript")) as (e & He & Hs); [set_solver |].
  assert (forallb (λ e, String.eqb (step e) "audio")
            (new_calls Demo.fresh
               (publish_episode (set_ffmpeg Demo.E (FfmpegRun 1 "boom" None))
                  Demo.dir (Some ["transcript"; "audio"]) Demo.fresh).2) = true)
    as HF by (vm_compute; reflexivity).
  rewrite forallb_forall in HF.
  apply list_elem_of_In, HF in He. rewrite Hs in He. discriminate He.
Qed.

(** ** Running twice *)

Lemma evolves_other σ σ' es o name n :
  evolves σ σ' es (outputs_of o name) →
  n ≠ "publish.log" → n ≠ name → fs σ' !! n = fs σ !! n.
Proof.
  intros Hev Hn Hne. apply (ev_keep _ _ _ _ Hev); [done |].
  destruct o; cbn; set_solver.
Qed.

Lemma evolves_quiet σ σ' es o name n :
  evolves σ σ' es (outputs_of o name) → quiet_outcome o →
  n ≠ "publish.log" → fs σ' !! n = fs σ !! n.
Proof.
  intros Hev Hq Hn. apply (ev_keep _ _ _ _ Hev); [done |].
  destruct o; cbn in *; set_solver.
Qed.













(** ** The detail of a FAIL line *)

Lemma string_length_app (a b : string) :
  String.length (a +:+ b) = String.length a + String.length b.
Proof.
  induction a as [|x a IH]; [done |].
  rewrite string_app_cons. cbn. by rewrite IH.
Qed.

Lemma take_length_le n (s : string) : String.length (Text.take n s) ≤ n.
Proof.
  revert s. induction n as [|n IH]; intros [|c s]; cbn; try lia.
  specialize (IH s). lia.
Qed.

Lemma take_short n (s : string) : String.length s ≤ n → Text.take n s = s.
Proof.
  revert s. induction n as [|n IH]; intros [|c s]; cbn; try done; try lia.
  intros H. rewrite IH; [done | lia].
Qed.




(** ** Structural failures *)

Lemma parse_steps_rejects requested name :
  name ∈ requested → name ∉ all_steps → parse_steps (Some requested) = None.
Proof.
  intros Hin Hout. unfold parse_steps.
  destruct requested as [|x l]; [done |].
  destruct (forallb _ (x :: l)) eqn:Hall; [| done].
  rewrite forallb_forall in Hall.
  apply list_elem_of_In, Hall, bool_decide_eq_true in Hin. done.
Qed.

(** C6.  Without a metadata document the run raises at once, to the
    caller, and leaves the state as it was: no step is evaluated, no line
    is logged, no file changes.  A request naming a step outside the
    enumeration is rejected by the command line before [publish_episode]
    is called at all. *)
Theorem structural_failure_aborts E dir σ :
  (fs σ !! "metadata.toml" = None →
   ∀ steps,
     publish_episode E dir steps σ
     = (Raise (FileNotFoundError ("No metadata.toml in " +:+ dir)), σ)
     ∧ new_calls σ (publish_episode E dir steps σ).2 = [])
  ∧ (∀ requested name,
       name ∈ requested → name ∉ all_steps →
       main E dir (Some requested) σ = UsageError).
Proof.
  split.
  - intros Hm steps.
    assert (publish_episode E dir steps σ
            = (Raise (FileNotFoundError ("No metadata.toml in " +:+ dir)), σ))
      as Hrun.
    { unfold publish_episode. unfold bind at 1.
      by rewrite load_metadata_run, Hm. }
    split; [done |]. rewrite Hrun. cbn. unfold new_calls. by rewrite drop_all.
  - intros requested name Hin Hout. unfold main.
    by rewrite (parse_steps_rejects requested name).
Qed.

(** C6 on an empty directory, and on a request for a step named deploy. *)
Lemma structural_failure_aborts_witness :
  let σ := State ∅ None [] in
  fs σ !! "metadata.toml" = None
  ∧ "deploy" ∈ ["audio"; "deploy"] ∧ ("deploy" ∉ all_steps)
  ∧ publish_episode Demo.E Demo.dir None σ
    = (Raise (FileNotFoundError ("No metadata.toml in " +:+ Demo.dir)), σ)
  ∧ main Demo.E Demo.dir (Some ["audio"; "deploy"]) Demo.fresh = UsageError.
Proof.
  cbn zeta. split; [reflexivity |].
  split; [in_list |]. split; [unfold all_steps; set_solver |]. split.
  - apply (structural_failure_aborts Demo.E Demo.dir (State ∅ None [])).
    reflexivity.
  - apply (proj2 (structural_failure_aborts Demo.E Demo.dir Demo.fresh)
             ["audio"; "deploy"] "deploy").
    + set_solver.
    + unfold all_steps; set_solver.
Defined.

(** ** The feed *)

Lemma bind_inv {S A B} (m : @M S A) (k : A → @M S B) σ b σ' :
  bind m k σ = (Ok b, σ') → ∃ a σ1, m σ = (Ok a, σ1) ∧ k a σ1 = (Ok b, σ').
Proof.
  unfold bind. destruct (m σ) as [[a|e] σ1]; [eauto | done].
Qed.

Lemma key_inv {S} (t : table) k (σ σ' : S) v :
  key t k σ = (Ok v, σ') → t !! k = Some v ∧ σ' = σ.
Proof. unfold key. destruct (t !! k); cbv; intros [= <- <-]; done. Qed.

Lemma section_inv {S} (doc : toml) k (σ σ' : S) t :
  section doc k σ = (Ok t, σ') → doc !! k = Some t ∧ σ' = σ.
Proof. unfold section. destruct (doc !! k); cbv; intros [= <- <-]; done. Qed.

(** The loop adds one entry per directory holding both files, in order. *)
Lemma add_entries_ids {S} E pc dirs (σ σ' : S) es :
  RssFeed.add_entries E pc dirs σ = (Ok es, σ') →
  map fe_id es = map fst (filter (λ d, qualifies d = true) dirs).
Proof.
  revert es σ'. induction dirs as [|[name files] rest IH]; intros es σ'.
  { cbn. by intros [= <- _]. }
  cbn [RssFeed.add_entries].
  destruct (files !! "metadata.toml") as [text|] eqn:Hm.
  2: { rewrite filter_cons_False; [exact (IH es σ') |].
       unfold qualifies. cbn [snd]. rewrite Hm.
       rewrite bool_decide_eq_false_2 by (by intros [? ?]). done. }
  destruct (toml_load E text) as [meta|]; [| done].
  intros (ep & σ1 & Hep & H)%bind_inv. apply section_inv in Hep as [_ ->].
  destruct (files !! "audio.mp3") as [audio|] eqn:Ha.
  2: { rewrite filter_cons_False; [exact (IH es σ' H) |].
       unfold qualifies. cbn [snd]. rewrite Ha.
       rewrite (bool_decide_eq_false_2 (is_Some None)) by (by intros [? ?]).
       by rewrite andb_false_r. }
  rewrite filter_cons_True.
  2: { unfold qualifies. cbn [snd]. rewrite Hm, Ha.
       by rewrite !bool_decide_eq_true_2 by eauto. }
  apply bind_inv in H as (website & σ2 & Hw & H). apply key_inv in Hw as [_ ->].
  apply bind_inv in H as (title & σ3 & Ht & H). apply key_inv in Ht as [_ ->].
  apply bind_inv in H as (more & σ4 & Hmore & H).
  injection H as <- <-. cbn. f_equal. by eapply IH.
Qed.

Lemma elem_of_episode_dirs listing name files :
  (name, files) ∈ RssFeed.episode_dirs listing
  ↔ listing !! name = Some (Dir files) ∧ Text.starts_with_dot name = false.
Proof.
  unfold RssFeed.episode_dirs. rewrite merge_sort_Permutation.
  rewrite list_elem_of_omap. split.
  - intros ([n nd] & Hin & Hv). apply elem_of_map_to_list in Hin.
    unfold RssFeed.visible_dir in Hv. cbn in Hv.
    destruct nd as [c|fls]; [done |].
    destruct (Text.starts_with_dot n) eqn:Hd; [done |].
    by injection Hv as -> ->.
  - intros [Hl Hd]. exists (name, Dir files). split.
    + by apply elem_of_map_to_list.
    + unfold RssFeed.visible_dir. cbn. by rewrite Hd.
Qed.

Lemma visible_names_sublist (l : list (string * node)) :
  sublist (map fst (omap RssFeed.visible_dir l)) (map fst l).
Proof.
  induction l as [|[n nd] l IH]; [done |]. cbn.
  unfold RssFeed.visible_dir at 1. cbn.
  destruct nd as [c|fls]; [by apply sublist_cons |].
  destruct (Text.starts_with_dot n); [by apply sublist_cons |].
  cbn. by apply sublist_skip.
Qed.

Lemma episode_dirs_NoDup listing :
  NoDup (map fst (RssFeed.episode_dirs listing)).
Proof.
  unfold RssFeed.episode_dirs. rewrite merge_sort_Permutation.
  eapply sublist_NoDup; [| apply visible_names_sublist].
  apply NoDup_fst_map_to_list.
Qed.

Lemma filter_names_sublist {A} (P : string * A → Prop) `{∀ x, Decision (P x)}
    (l : list (string * A)) :
  sublist (map fst (filter P l)) (map fst l).
Proof. apply (fmap_sublist fst), sublist_filter. Qed.

(** C9.  A successful feed update writes a feed whose entries are exactly
    the episodes of the workspace, whichever episode the run was for: one
    entry, once, for every directory of [episodes/] that is not hidden and
    holds both a metadata document and [audio.mp3], and no other entry.
    It returns the feed URL, the podcast's address followed by
    [/feed/podcast.xml], and touches nothing in the episode directory. *)
Theorem feed_covers_all_published_episodes E audio_path meta σ url σ' :
  RssFeed.update_rss_feed E audio_path meta σ = (Ok url, σ') →
  ∃ doc listing text cfg pc,
    feed_xml σ' = Some doc ∧ fs σ' = fs σ ∧ calls σ' = calls σ
    ∧ episodes (repo E) = Some listing
    ∧ (∀ name, name ∈ map fe_id (fd_entries doc) ↔ published listing name)
    ∧ NoDup (map fe_id (fd_entries doc))
    ∧ podcast_toml (repo E) = Some text ∧ toml_load E text = Some cfg
    ∧ cfg !! "podcast" = Some pc
    ∧ url = str_tval (site_of pc) +:+ "/feed/podcast.xml".
Proof.
  unfold RssFeed.update_rss_feed.
  intros ([doc url'] & σ1 & Hb & H)%bind_inv.
  unfold bind, modify, ret in H. cbn in H. injection H as <- <-.
  unfold RssFeed.build_feed in Hb.
  apply bind_inv in Hb as (cfg & σ2 & Hcfg & Hb).
  unfold RssFeed.load_podcast_config in Hcfg.
  destruct (podcast_toml (repo E)) as [text|] eqn:Htext; [| done].
  destruct (toml_load E text) as [cfg'|] eqn:Hload; [| done].
  injection Hcfg as -> <-.
  apply bind_inv in Hb as (pc & σ3 & Hpc & Hb). apply section_inv in Hpc as [Hpc ->].
  apply bind_inv in Hb as (title & σ4 & Ht & Hb). apply key_inv in Ht as [_ ->].
  apply bind_inv in Hb as (descr & σ5 & Hd & Hb). apply key_inv in Hd as [_ ->].
  apply bind_inv in Hb as (author & σ6 & Ha & Hb). apply key_inv in Ha as [_ ->].
  apply bind_inv in Hb as (email & σ7 & He & Hb). apply key_inv in He as [_ ->].
  destruct (episodes (repo E)) as [listing|] eqn:Hl; [| done].
  apply bind_inv in Hb as (entries & σ8 & Hentries & Hb).
  injection Hb as <- <- <-.
  pose proof (add_entries_ids _ _ _ _ _ _ Hentries) as Hids.
  eexists _, listing, text, cfg, pc. cbn [fd_entries feed_xml fs calls].
  assert (σ8 = σ) as ->.
  { destruct (add_entries_reads (S := state) E pc (RssFeed.episode_dirs listing))
      as [r Hr]. rewrite Hr in Hentries. by injection Hentries. }
  repeat (split; [done |]). cbn [fd_entries]. split; [| split; [| done]].
  - intros name. rewrite Hids. rewrite list_elem_of_fmap. split.
    + intros ([n files] & -> & Hin). apply list_elem_of_filter in Hin as [Hq Hin].
      apply elem_of_episode_dirs in Hin as [Hin Hdot].
      unfold qualifies in Hq. cbn [snd] in Hq.
      apply andb_true_iff in Hq as [Hm%bool_decide_eq_true Ha'%bool_decide_eq_true].
      by exists files.
    + intros (files & Hin & Hdot & Hm & Ha').
      exists (name, files). split; [done |].
      apply list_elem_of_filter. split.
      * unfold qualifies. cbn [snd]. by rewrite !bool_decide_eq_true_2.
      * by apply elem_of_episode_dirs.
  - rewrite Hids. eapply sublist_NoDup; [apply episode_dirs_NoDup |].
    apply filter_names_sublist.
Qed.

(** C9 on the demo workspace: of its five entries, only the first is
    listed. *)
Lemma feed_covers_all_published_episodes_witness :
  let out := RssFeed.update_rss_feed Demo.E "audio.mp3" Demo.meta Demo.fresh in
  out.1 = Ok "https://example.org/feed/podcast.xml"
  ∧ (map fe_id <$> (fd_entries <$> feed_xml out.2)) = Some ["ep001-pilot"]
  ∧ ∃ doc listing text cfg pc,
      feed_xml out.2 = Some doc ∧ fs out.2 = fs Demo.fresh
      ∧ calls out.2 = calls Demo.fresh
      ∧ episodes (repo Demo.E) = Some listing
      ∧ (∀ name, name ∈ map fe_id (fd_entries doc) ↔ published listing name)
      ∧ NoDup (map fe_id (fd_entries doc))
      ∧ podcast_toml (repo Demo.E) = Some text
      ∧ toml_load Demo.E text = Some cfg
      ∧ cfg !! "podcast" = Some pc
      ∧ "https://example.org/feed/podcast.xml"
        = str_tval (site_of pc) +:+ "/feed/podcast.xml".
Proof.
  cbn zeta. split; [vm_compute; reflexivity |].
  split; [vm_compute; reflexivity |].
  apply (feed_covers_all_published_episodes Demo.E "audio.mp3" Demo.meta
           Demo.fresh).
  vm_compute. reflexivity.
Defined.

(** ** Characters of a log line *)

Lemma all_chars_app p (a b : string) :
  all_chars p (a +:+ b) = all_chars p a && all_chars p b.
Proof.
  induction a as [|c a IH]; [done |].
  rewrite string_app_cons. cbn. by rewrite IH, andb_assoc.
Qed.

Lemma all_chars_impl (p q : ascii → bool) s :
  (∀ c, p c = true → q c = true) → all_chars p s = true → all_chars q s = true.
Proof.
  intros Hpq. induction s as [|c s IH]; [done |]. cbn.
  intros [Hc Hs]%andb_true_iff. by rewrite (Hpq c Hc), IH.
Qed.

Lemma pretty_N_go_digits x s :
  all_chars stamp_char s = true → all_chars stamp_char (pretty_N_go x s) = true.
Proof.
  revert s. induction (N.lt_wf_0 x) as [x _ IH]; intros s Hs.
  destruct (decide (x = 0)%N) as [-> | Hx]; [by rewrite pretty_N_go_0 |].
  rewrite pretty_N_go_step by lia. apply IH.
  - apply N.div_lt; lia.
  - cbn. rewrite Hs, andb_true_r.
    unfold pretty_N_char. by repeat case_match.
Qed.

Lemma pretty_nat_digits (n : nat) : all_chars stamp_char (pretty n) = true.
Proof.
  unfold pretty, pretty_nat, pretty, pretty_N.
  case_decide; [done |]. by apply pretty_N_go_digits.
Qed.

Lemma two_digits_digits n : all_chars stamp_char (Text.two_digits n) = true.
Proof.
  unfold Text.two_digits. case_decide.
  - rewrite all_chars_app, pretty_nat_digits. done.
  - apply pretty_nat_digits.
Qed.

Lemma strftime_chars dt : all_chars stamp_char (strftime dt) = true.
Proof.
  unfold strftime.
  rewrite !all_chars_app, pretty_nat_digits, !two_digits_digits. done.
Qed.

Lemma stamp_char_plain c :
  stamp_char c = true →
  Re.is_any c = true ∧ Ascii.eqb "]" c = false ∧ inline_char c = true.
Proof.
  destruct c as [[|] [|] [|] [|] [|] [|] [|] [|]]; vm_compute; intros H;
    try discriminate H; done.
Qed.

Lemma spaces_inline n : all_chars inline_char (Text.spaces n) = true.
Proof. induction n as [|n IH]; [done |]. cbn. by rewrite IH. Qed.

Lemma ljust_inline w s :
  all_chars inline_char s = true → all_chars inline_char (Text.ljust w s) = true.
Proof.
  intros Hs. unfold Text.ljust. by rewrite all_chars_app, Hs, spaces_inline.
Qed.

Lemma format_line_body e : format_line e = line_body e +:+ Text.nl.
Proof.
  unfold format_line, line_body. by rewrite !string_app_assoc.
Qed.

Lemma line_body_inline e :
  all_chars inline_char (step e) = true →
  all_chars inline_char (status e) = true →
  all_chars inline_char (detail e) = true →
  all_chars inline_char (line_body e) = true.
Proof.
  intros H1 H2 H3. unfold line_body.
  rewrite !all_chars_app, !ljust_inline, H3 by done.
  rewrite (all_chars_impl stamp_char inline_char (strftime (ts e)));
    [done | | apply strftime_chars].
  intros c Hc. by apply stamp_char_plain.
Qed.

(** ** Lines of a text *)

Lemma splitlines_go_line cur l rest :
  all_chars inline_char l = true →
  Podcast.splitlines_go false cur (l +:+ Text.nl +:+ rest)
  = (cur +:+ l) :: Podcast.splitlines_go false "" rest.
Proof.
  revert cur. induction l as [|c l IH]; intros cur Hl.
  - rewrite string_app_nil_r. reflexivity.
  - cbn in Hl. apply andb_true_iff in Hl as [Hc Hl].
    rewrite string_app_cons. cbn [Podcast.splitlines_go andb].
    unfold inline_char in Hc. apply negb_true_iff in Hc. rewrite Hc.
    rewrite IH by done. by rewrite string_app_assoc.
Qed.

Lemma splitlines_go_app b cur body t :
  Podcast.splitlines_go b cur ((body +:+ Text.nl) +:+ t)
  = Podcast.splitlines_go b cur (body +:+ Text.nl) ++ Podcast.splitlines t.
Proof.
  revert b cur. induction body as [|c body IH]; intros b cur.
  - change (("" +:+ Text.nl) +:+ t) with (String Text.newline t).
    change ("" +:+ Text.nl) with (String Text.newline "").
    cbn [Podcast.splitlines_go]. destruct b; cbn; [done |].
    by destruct (String.eqb cur "").
  - rewrite !string_app_cons. cbn [Podcast.splitlines_go].
    destruct (b && Ascii.eqb c Text.newline); [apply IH |].
    destruct (Podcast.is_linebreak c); [| apply IH].
    by rewrite IH.
Qed.

(** A text that is empty or ends a line. *)
Lemma splitlines_after old t :
  old = "" ∨ (∃ body, old = body +:+ Text.nl) →
  Podcast.splitlines (old +:+ t) = Podcast.splitlines old ++ Podcast.splitlines t.
Proof.
  intros [-> | [body ->]]; [done |]. apply splitlines_go_app.
Qed.

Lemma splitlines_one_line l :
  all_chars inline_char l = true →
  Podcast.splitlines (l +:+ Text.nl) = [l].
Proof.
  intros Hl. unfold Podcast.splitlines.
  rewrite <- (string_app_nil_r (l +:+ Text.nl)), string_app_assoc.
  by rewrite splitlines_go_line.
Qed.

(** ** The matcher on the pieces of a log line *)

Lemma lit_app {R} t s (k : string → option R) : Re.lit t (t +:+ s) k = k s.
Proof.
  induction t as [|c t IH]; [done |].
  rewrite string_app_cons. cbn [Re.lit]. by rewrite Ascii.eqb_refl.
Qed.

Lemma lazy_star_stamp {R} ts rest (K : string → option R) r :
  all_chars stamp_char ts = true →
  K rest = Some r →
  Re.lazy_star Re.is_any (ts +:+ String "]" rest) (λ s', Re.lit "]" s' K)
  = Some r.
Proof.
  intros Hts HK. induction ts as [|c ts IH].
  - change ("" +:+ String "]" rest) with (String "]" rest).
    cbn [Re.lazy_star Re.lit]. rewrite Ascii.eqb_refl.
    change (Re.lit "" rest K) with (K rest). by rewrite HK.
  - cbn in Hts. apply andb_true_iff in Hts as [Hc Hts].
    apply stamp_char_plain in Hc as (Hany & Hne & _).
    rewrite string_app_cons. cbn [Re.lazy_star Re.lit]. rewrite Hne, Hany.
    by apply IH.
Qed.

Lemma star_run {R} p run rest (k : string → option R) r :
  all_chars p run = true → stops p rest → k rest = Some r →
  Re.star p (run +:+ rest) k = Some r.
Proof.
  intros Hrun Hstop Hk. induction run as [|c run IH].
  - change ("" +:+ rest) with rest.
    destruct rest as [|c rest]; cbn [Re.star]; [done |].
    cbn in Hstop. by rewrite Hstop.
  - cbn in Hrun. apply andb_true_iff in Hrun as [Hc Hrun].
    rewrite string_app_cons. cbn [Re.star]. rewrite Hc.
    by rewrite IH.
Qed.

Lemma plus_run {R} p run rest (k : string → option R) r :
  run ≠ "" → all_chars p run = true → stops p rest → k rest = Some r →
  Re.plus p (run +:+ rest) k = Some r.
Proof.
  intros Hne Hrun Hstop Hk. destruct run as [|c run]; [done |].
  cbn in Hrun. apply andb_true_iff in Hrun as [Hc Hrun].
  rewrite string_app_cons. unfold Re.plus. rewrite Hc.
  by apply star_run.
Qed.

(** A star whose continuation always succeeds does too. *)
Lemma star_total p s (k : string → option (list string)) pre :
  (∀ s', ∃ g, k s' = Some (pre ++ [g])) →
  ∃ g, Re.star p s k = Some (pre ++ [g]).
Proof.
  intros Hk. induction s as [|c s IH]; cbn [Re.star]; [apply Hk |].
  destruct (p c); [| apply Hk].
  destruct IH as [g ->]. eauto.
Qed.

Lemma take_app_exact (a b : string) :
  Text.take (String.length (a +:+ b) - String.length b) (a +:+ b) = a.
Proof.
  rewrite string_length_app.
  replace (String.length a + String.length b - String.length b)
    with (String.length a) by lia.
  induction a as [|c a IH]; [by destruct b |].
  rewrite string_app_cons. cbn. by rewrite IH.
Qed.

Lemma spaces_snoc n (z : string) :
  Text.spaces n +:+ String " " z = String " " (Text.spaces n +:+ z).
Proof.
  induction n as [|n IH]; [done |].
  cbn [Text.spaces]. rewrite !string_app_cons. by rewrite IH.
Qed.

Lemma spaces_are_space n : all_chars Re.is_space (Text.spaces n) = true.
Proof. induction n as [|n IH]; [done |]. cbn. by rewrite IH. Qed.

Lemma word_not_space c : Re.is_word c = true → Re.is_space c = false.
Proof.
  destruct c as [[|] [|] [|] [|] [|] [|] [|] [|]]; vm_compute; intros H;
    try discriminate H; done.
Qed.

Lemma word_stops_space s z : word s → stops Re.is_space (s +:+ z).
Proof.
  intros [Hne Hw]. destruct s as [|c s]; [done |].
  cbn in Hw. apply andb_true_iff in Hw as [Hc _].
  rewrite string_app_cons. cbn. by apply word_not_space.
Qed.

(** The alternative of the three outcomes on a text that starts with
    one of them. *)
Lemma alt_status {R} st rest (K : string → option R) r :
  st ∈ ["START"; "DONE"; "FAIL"] →
  K rest = Some r →
  match Re.lit "START" (st +:+ rest) K with
  | Some x => Some x
  | None =>
      match Re.lit "DONE" (st +:+ rest) K with
      | Some x => Some x
      | None => Re.lit "FAIL" (st +:+ rest) K
      end
  end = Some r.
Proof.
  intros Hst Hk.
  repeat (apply elem_of_cons in Hst as [-> | Hst]).
  - by rewrite lit_app, Hk.
  - change (Re.lit "START" ("DONE" +:+ rest) K) with (@None R).
    by rewrite lit_app, Hk.
  - change (Re.lit "START" ("FAIL" +:+ rest) K) with (@None R).
    change (Re.lit "DONE" ("FAIL" +:+ rest) K) with (@None R).
    by rewrite lit_app.
  - by apply elem_of_nil in Hst.
Qed.

Lemma status_stops_space st z :
  st ∈ ["START"; "DONE"; "FAIL"] → stops Re.is_space (st +:+ z).
Proof.
  intros Hst.
  repeat (apply elem_of_cons in Hst as [-> | Hst]); try done.
  by apply elem_of_nil in Hst.
Qed.

(** The reader's pattern on a stamp in brackets, a word, blanks, one of
    the three outcomes, blanks and a detail: the match stops at the first
    closing bracket and reads the word and the outcome. *)
Lemma re_match_shape ts stp n1 st n2 d :
  all_chars stamp_char ts = true → word stp →
  st ∈ ["START"; "DONE"; "FAIL"] →
  ∃ g3, Re.re_match Podcast.log_pattern
          ("[" +:+ ts +:+ String "]" (String " " (stp +:+ Text.spaces (S n1)
             +:+ st +:+ Text.spaces (S n2) +:+ d)))
        = Some [stp; st; g3].
Proof.
  intros Hts Hw Hst. unfold Re.re_match, Podcast.log_pattern.
  cbn [Re.run].
  set (tail3 := Text.spaces (S n2) +:+ d).
  set (tail2 := st +:+ tail3).
  set (tail1 := stp +:+ Text.spaces (S n1) +:+ tail2).
  rewrite (lit_app "[").
  assert (∃ g3,
    Re.star Re.is_space tail3
      (λ s', Re.star Re.is_any s'
               (λ s'', Some (([stp] ++ [st])
                             ++ [Text.take (String.length s' - String.length s'') s'])))
    = Some ([stp; st] ++ [g3])) as [g3 Hfinal].
  { apply star_total. intros s'. apply star_total. intros s''. eauto. }
  exists g3.
  apply lazy_star_stamp; [done |].
  change (String " " tail1) with (" " +:+ tail1).
  apply (plus_run Re.is_space " " tail1); [done | done | | ].
  { by apply word_stops_space. }
  subst tail1.
  apply (plus_run Re.is_word stp); [apply Hw | apply Hw | done |].
  cbn beta. rewrite take_app_exact.
  apply plus_run; [done | apply spaces_are_space | |].
  { by apply status_stops_space. }
  apply (alt_status st tail3); [done |].
  cbn beta. subst tail2. rewrite take_app_exact.
  exact Hfinal.
Qed.

Lemma line_body_shape e :
  line_body e =
  "[" +:+ strftime (ts e) +:+ String "]" (String " " (step e
     +:+ Text.spaces (S (20 - String.length (step e)))
     +:+ status e +:+ Text.spaces (S (10 - String.length (status e)))
     +:+ detail e)).
Proof.
  unfold line_body, Text.ljust.
  change ("] " +:+ ?x) with (String "]" (String " " x)).
  rewrite !string_app_assoc.
  change (" " +:+ ?x) with (String " " x).
  change (" " +:+ detail e) with (String " " (detail e)).
  rewrite !spaces_snoc. reflexivity.
Qed.

(** What the reader makes of the line of an entry whose step is a word and
    whose outcome is START, DONE or FAIL. *)
Lemma parsed_line_body e :
  word (step e) → status e ∈ ["START"; "DONE"; "FAIL"] →
  parsed (line_body e) = Some (step e, Podcast.lower (status e)).
Proof.
  intros Hw Hst. unfold parsed. rewrite line_body_shape.
  destruct (re_match_shape (strftime (ts e)) (step e)
              (20 - String.length (step e)) (status e)
              (10 - String.length (status e)) (detail e)
              (strftime_chars _) Hw Hst) as [g3 ->].
  done.
Qed.

(** ** The reader of the publish log *)

Lemma read_line_parsed steps line :
  Podcast.read_line steps line
  = match parsed line with
    | Some (g1, v) => <[g1 := v]> steps
    | None => steps
    end.
Proof.
  unfold Podcast.read_line, parsed.
  by destruct (Re.re_match Podcast.log_pattern line)
    as [[|g1 [|g2 [|g3 [|g4 caps]]]]|].
Qed.

Lemma foldl_read_line lines steps name :
  foldl Podcast.read_line steps lines !! name
  = match last_status name lines with
    | Some v => Some v
    | None => steps !! name
    end.
Proof.
  revert steps. induction lines as [|line lines IH]; intros steps; [done |].
  cbn [foldl]. rewrite IH, read_line_parsed. unfold last_status.
  cbn [omap list_omap]. destruct (parsed line) as [[g1 v]|]; cbn; [| done].
  destruct (decide (g1 = name)) as [-> | Hne].
  - rewrite last_cons, lookup_insert_eq.
    by destruct (last _).
  - by rewrite lookup_insert_ne.
Qed.

Lemma lit_inv {R} t s (k : string → option R) r :
  Re.lit t s k = Some r → ∃ s', s = t +:+ s' ∧ k s' = Some r.
Proof.
  revert s. induction t as [|a t IH]; intros s H; [by exists s |].
  destruct s as [|b s]; cbn [Re.lit] in H; [done |].
  destruct (Ascii.eqb a b) eqn:Hab; [| done].
  apply Ascii.eqb_eq in Hab as ->.
  apply IH in H as (s' & -> & H). by exists s'.
Qed.

Lemma star_inv {R} p s (k : string → option R) r :
  Re.star p s k = Some r → ∃ s', k s' = Some r.
Proof.
  induction s as [|c s IH]; cbn [Re.star]; [eauto |].
  destruct (p c); [| eauto].
  destruct (Re.star p s k) eqn:Hs; [| eauto].
  intros [= ->]. by apply IH.
Qed.

Lemma lazy_star_inv {R} p s (k : string → option R) r :
  Re.lazy_star p s k = Some r → ∃ s', k s' = Some r.
Proof.
  induction s as [|c s IH]; cbn [Re.lazy_star].
  - destruct (k "") eqn:Hk; [| done]. intros [= ->]. eauto.
  - destruct (k (String c s)) eqn:Hk; [intros [= ->]; eauto |].
    destruct (p c); [apply IH | done].
Qed.

Lemma plus_inv {R} p s (k : string → option R) r :
  Re.plus p s k = Some r → ∃ s', k s' = Some r.
Proof.
  unfold Re.plus. destruct s as [|c s]; [done |].
  destruct (p c); [apply star_inv | done].
Qed.

(** Whatever the line, a match has three groups and the second one is
    START, DONE or FAIL. *)
Lemma re_match_groups line caps :
  Re.re_match Podcast.log_pattern line = Some caps →
  ∃ g1 g2 g3, caps = [g1; g2; g3] ∧ g2 ∈ ["START"; "DONE"; "FAIL"].
Proof.
  unfold Re.re_match, Podcast.log_pattern. cbn [Re.run]. intros H.
  apply lit_inv in H as (s1 & _ & H).
  apply lazy_star_inv in H as (s2 & H).
  apply lit_inv in H as (s3 & _ & H).
  apply plus_inv in H as (s4 & H).
  apply plus_inv in H as (s5 & H). cbn beta in H.
  apply plus_inv in H as (s6 & H).
  set (g1 := Text.take (String.length s4 - String.length s5) s4) in H.
  assert (∀ t, Re.lit t s6
                 (λ s' : string,
                    Re.star Re.is_space s'
                      (λ s'0 : string,
                         Re.star Re.is_any s'0
                           (λ s'1 : string,
                              Some ((([] ++ [g1])
                                     ++ [Text.take (String.length s6 - String.length s') s6])
                                     ++ [Text.take (String.length s'0 - String.length s'1) s'0]))))
               = Some caps → ∃ g3, caps = [g1; t; g3]) as Hlit.
  { intros t Ht. apply lit_inv in Ht as (s7 & -> & Ht).
    apply star_inv in Ht as (s8 & Ht). apply star_inv in Ht as (s9 & Ht).
    rewrite take_app_exact in Ht. injection Ht as <-. eauto. }
  destruct (Re.lit "START" s6 _) eqn:H1.
  { injection H as ->. apply Hlit in H1 as [g3 ->].
    exists g1, "START", g3. split; [done | in_list]. }
  destruct (Re.lit "DONE" s6 _) eqn:H2.
  { injection H as ->. apply Hlit in H2 as [g3 ->].
    exists g1, "DONE", g3. split; [done | in_list]. }
  apply Hlit in H as [g3 ->].
  exists g1, "FAIL", g3. split; [done | in_list].
Qed.

Lemma parsed_status line name v :
  parsed line = Some (name, v) → v ∈ ["start"; "done"; "fail"].
Proof.
  unfold parsed.
  destruct (Re.re_match Podcast.log_pattern line) as [caps|] eqn:Hm; [| done].
  apply re_match_groups in Hm as (g1 & g2 & g3 & -> & Hg2).
  intros [= _ <-].
  repeat (apply elem_of_cons in Hg2 as [-> | Hg2]);
    [in_list | in_list | in_list | by apply elem_of_nil in Hg2].
Qed.

Lemma word_inline s :
  all_chars Re.is_word s = true → all_chars inline_char s = true.
Proof.
  apply all_chars_impl.
  intros [[|] [|] [|] [|] [|] [|] [|] [|]]; vm_compute; intros H;
    try discriminate H; done.
Qed.

Lemma status_inline st :
  st ∈ ["START"; "DONE"; "FAIL"] → all_chars inline_char st = true.
Proof.
  intros Hst.
  repeat (apply elem_of_cons in Hst as [-> | Hst]); try done.
  by apply elem_of_nil in Hst.
Qed.

(** Reading a log to which the line of one more entry was appended. *)
Lemma read_log_append old e :
  old = "" ∨ (∃ body, old = body +:+ Text.nl) →
  word (step e) → status e ∈ ["START"; "DONE"; "FAIL"] →
  all_chars inline_char (detail e) = true →
  Podcast.read_log (old +:+ format_line e)
  = <[step e := Podcast.lower (status e)]> (Podcast.read_log old).
Proof.
  intros Hold Hw Hst Hd. unfold Podcast.read_log.
  rewrite splitlines_after, format_line_body by done.
  rewrite splitlines_one_line.
  - rewrite foldl_snoc, read_line_parsed. by rewrite parsed_line_body.
  - apply line_body_inline; [apply word_inline, Hw | by apply status_inline | done].
Qed.

(** C5 (amended).  The reader assigns a step the lower-cased outcome of
    the last line, in the order of the file, that matches its pattern for
    that step; lines that do not match are passed over.  The outcomes it
    reports are start, done and fail only.  The line [log_progress] writes
    for a START, DONE or FAIL entry, appended to a log that is empty or
    ends a line, sets the status of its step and leaves the others; so
    START then DONE yields done. *)
Theorem reader_keeps_last_matching_line :
  (∀ text name,
     Podcast.read_log text !! name
     = last_status name (Podcast.splitlines text))
  ∧ (∀ text name v,
       Podcast.read_log text !! name = Some v → v ∈ ["start"; "done"; "fail"])
  ∧ (∀ old e1 e2,
       old = "" ∨ (∃ body, old = body +:+ Text.nl) →
       word (step e1) → step e2 = step e1 →
       status e1 = "START" → status e2 = "DONE" →
       all_chars inline_char (detail e1) = true →
       all_chars inline_char (detail e2) = true →
       Podcast.read_log (old +:+ format_line e1 +:+ format_line e2)
         !! step e1 = Some "done").
Proof.
  assert (∀ text name,
            Podcast.read_log text !! name
            = last_status name (Podcast.splitlines text)) as Hlast.
  { intros text name. unfold Podcast.read_log.
    rewrite foldl_read_line, lookup_empty. by destruct (last_status _ _). }
  split; [exact Hlast |]. split.
  - intros text name v Hv. rewrite Hlast in Hv. unfold last_status in Hv.
    apply last_Some_elem_of, list_elem_of_omap in Hv as (line & _ & Hline).
    destruct (parsed line) as [[g1 w]|] eqn:Hp; [| done]. cbn in Hline.
    destruct (decide (g1 = name)); [| done].
    injection Hline as <-. by apply (parsed_status line g1).
  - intros old e1 e2 Hold Hw Hstep Hs1 Hs2 Hd1 Hd2.
    rewrite <- string_app_assoc.
    rewrite read_log_append; [| | by rewrite Hstep | rewrite Hs2; in_list | done].
    + by rewrite Hstep, Hs2, lookup_insert_eq.
    + right. rewrite format_line_body, <- string_app_assoc. eauto.
Qed.

(** C5 on the two lines of an extraction: START, then DONE. *)
Lemma reader_keeps_last_matching_line_witness :
  let e1 := Entry (Demo.tick 0) "audio" "START" "Extracting from video.mp4" in
  let e2 := Entry (Demo.tick 1) "audio" "DONE" "3.4 MB" in
  Podcast.read_log ("" +:+ format_line e1 +:+ format_line e2) !! step e1
  = Some "done".
Proof.
  cbn zeta.
  apply (proj2 (proj2 reader_keeps_last_matching_line) ""
           (Entry (Demo.tick 0) "audio" "START" "Extracting from video.mp4")
           (Entry (Demo.tick 1) "audio" "DONE" "3.4 MB")).
  - by left.
  - split; [done | reflexivity].
  - reflexivity.
  - reflexivity.
  - reflexivity.
  - reflexivity.
  - reflexivity.
Defined.

(** C5 as stated fails: SKIP is not among the outcomes the reader reports.
    After the demo episode was published twice, the most recent entry of
    the extraction in the log is a SKIP, and the reader still says done;
    a log that holds nothing but that SKIP line gives the step no status
    at all. *)
Lemma reader_passes_over_skip :
  let σ2 := (publish_episode Demo.E Demo.dir None
               (publish_episode Demo.E Demo.dir None Demo.fresh).2).2 in
  let skip := Entry (Demo.tick 10) "audio" "SKIP" "audio.mp3 already exists" in
  last (List.filter (λ e, String.eqb (step e) "audio") (calls σ2)) = Some skip
  ∧ Podcast.pipeline_steps (fs σ2) !! "audio" = Some "done"
  ∧ Podcast.read_log (format_line skip) !! "audio" = None
  ∧ ¬ (∀ name e,
         last (List.filter (λ e, String.eqb (step e) name) (calls σ2)) = Some e →
         Podcast.pipeline_steps (fs σ2) !! name
         = Some (Podcast.lower (status e))).
Proof.
  cbn zeta.
  assert (last (List.filter (λ e, String.eqb (step e) "audio")
                  (calls (publish_episode Demo.E Demo.dir None
                            (publish_episode Demo.E Demo.dir None Demo.fresh).2).2))
          = Some (Entry (Demo.tick 10) "audio" "SKIP" "audio.mp3 already exists"))
    as Hlast by (vm_compute; reflexivity).
  assert (Podcast.pipeline_steps
            (fs (publish_episode Demo.E Demo.dir None
                   (publish_episode Demo.E Demo.dir None Demo.fresh).2).2)
            !! "audio" = Some "done") as Hread by (vm_compute; reflexivity).
  split; [exact Hlast |]. split; [exact Hread |].
  split; [vm_compute; reflexivity |].
  intros Hall. specialize (Hall "audio" _ Hlast).
  rewrite Hread in Hall. discriminate Hall.
Qed.

(** ** The lines [log_progress] writes *)

(** A call keeps what the log holds and puts the line of its entry after
    it. *)
Lemma log_progress_appends E name st d σ :
  ∃ σ', log_progress E name st d σ = (Ok tt, σ')
        ∧ fs σ' !! "publish.log"
          = Some (default "" (fs σ !! "publish.log")
                  +:+ format_line (Entry (clock E (length (calls σ))) name st d)).
Proof.
  unfold log_progress, bind, get, append_file, modify. cbn.
  eexists. split; [reflexivity |]. cbn. by rewrite lookup_insert_eq.
Qed.

(** The text of an entry is one line when neither its step, nor its
    outcome, nor its detail holds a line boundary. *)
Lemma format_line_one_line e :
  all_chars inline_char (step e) = true →
  all_chars inline_char (status e) = true →
  all_chars inline_char (detail e) = true →
  Podcast.splitlines (format_line e) = [line_body e].
Proof.
  intros H1 H2 H3. rewrite format_line_body.
  by apply splitlines_one_line, line_body_inline.
Qed.

(** C8 at the input on which the code leaves it.  Without a
    [podcast.toml] in the repository, the feed update of the demo episode
    fails with the two-line message of [load_podcast_config]; the message
    is logged whole as the detail of the FAIL entry, and that one entry
    takes two lines of the log, the second of which has nothing of the
    format of an entry. *)
Theorem missing_config_failure_spans_two_lines :
  let E := set_repo Demo.E (Workspace "/repo" None None) in
  let σ := (publish_episode E Demo.dir None Demo.fresh).2 in
  let e := Entry (Demo.tick 9) "rss" "FAIL"
             ("No /repo/podcast.toml found. Create it with your podcast info."
              +:+ Text.nl +:+ "See podcast.toml.example for the format.") in
  last (calls σ) = Some e
  ∧ length (calls σ) = 10
  ∧ fs σ !! "publish.log" = Some (cat (map format_line (calls σ)))
  ∧ Podcast.splitlines (format_line e)
    = ["[2026-03-07 09:05:09 UTC] rss                  FAIL       No /repo/podcast.toml found. Create it with your podcast info.";
       "See podcast.toml.example for the format."]
  ∧ option_map (λ text, length (Podcast.splitlines text))
      (fs σ !! "publish.log") = Some 11.
Proof.
  cbn zeta. repeat split; vm_compute; reflexivity.
Qed.

(** * Further properties of the pipeline *)

(** ** What a run may raise, and when *)


(** ** What a run leaves of the directory *)

Lemma evolves_preserves σ σ' es o name n c :
  evolves σ σ' es (outputs_of o name) →
  (started o → fs σ !! name = None) →
  n ≠ "publish.log" → fs σ !! n = Some c → fs σ' !! n = Some c.
Proof.
  intros Hev Hnew Hn Hc. destruct (decide (n = name)) as [-> | Hne].
  - destruct o; cbn in Hnew;
      try (rewrite Hnew in Hc by done; discriminate Hc);
      by rewrite (evolves_quiet _ _ _ _ _ _ Hev).
  - by rewrite (evolves_other _ _ _ _ _ _ Hev).
Qed.

Lemma audio_facts_fresh E dir rs video σ σ' o returned :
  audio_facts E dir rs video σ σ' o returned →
  started o → fs σ !! "audio.mp3" = None.
Proof. destruct o; cbn; [done | done | tauto | tauto]. Qed.

Lemma transcript_facts_fresh E rs σ σ' o :
  transcript_facts E rs σ σ' o → started o → fs σ !! "transcript.md" = None.
Proof. destruct o; cbn; [done | done | tauto | tauto]. Qed.

Lemma show_notes_facts_fresh E rs σ σ' o :
  show_notes_facts E rs σ σ' o → started o → fs σ !! "show-notes.md" = None.
Proof. destruct o; cbn; [done | done | tauto | tauto]. Qed.

Lemma pipeline_preserves E dir meta rs video σ σ' tr n c :
  pipeline E dir meta rs video σ σ' tr →
  n ≠ "publish.log" → fs σ !! n = Some c → fs σ' !! n = Some c.
Proof.
  intros (σa & returned & Hfa & Heva & _ & Hrest) Hn Hc.
  apply (evolves_preserves _ _ _ _ _ n c Heva) in Hc;
    [| by eapply audio_facts_fresh | done].
  destruct returned; [by destruct Hrest as (-> & _) |].
  destruct Hrest as (σt & σn & σy & Hft & Hevt & Hfn & Hevn & _ & Hevy & _ & _ & Hevr).
  apply (evolves_preserves _ _ _ _ _ n c Hevt) in Hc;
    [| by eapply transcript_facts_fresh | done].
  apply (evolves_preserves _ _ _ _ _ n c Hevn) in Hc;
    [| by eapply show_notes_facts_fresh | done].
  rewrite (ev_keep _ _ _ _ Hevr), (ev_keep _ _ _ _ Hevy); set_solver.
Qed.

(** X2.  A run never deletes a file and never changes a file that was
    there, except that it appends to [publish.log]: every other file of
    the directory keeps its content (an output that exists is not
    produced again).  Outside [audio.mp3], [transcript.md],
    [show-notes.md] and [publish.log] the directory is exactly as before.
    The log after the run is the log before it followed by the lines of
    the calls the run made, in order. *)
Theorem run_keeps_existing_files E dir steps σ :
  let σ' := (publish_episode E dir steps σ).2 in
  (∀ name content, name ≠ "publish.log" →
     fs σ !! name = Some content → fs σ' !! name = Some content)
  ∧ (∀ name, name ∉ own_files → fs σ' !! name = fs σ !! name)
  ∧ calls σ' = calls σ ++ new_calls σ σ'
  ∧ fs σ' !! "publish.log"
    = log_after (fs σ !! "publish.log") (new_calls σ σ').
Proof.
  cbn zeta. destruct (config_of E σ) as [[meta video]|] eqn:Hc.
  - destruct (run_summary E dir steps σ meta video Hc) as (tr & _ & Hp & Hnew).
    pose proof (pipeline_entries _ _ _ _ _ _ _ _ Hp) as Hev.
    rewrite Hnew. split; [| split; [| split]].
    + intros name content. by apply (pipeline_preserves _ _ _ _ _ _ _ _ _ _ Hp).
    + intros name Hname. apply (ev_keep _ _ _ _ Hev); unfold own_files in Hname;
        set_solver.
    + apply (ev_calls _ _ _ _ Hev).
    + apply (ev_log _ _ _ _ Hev).
  - destruct (publish_episode_aborts E dir steps σ Hc) as [x ->]. cbn.
    unfold new_calls. rewrite drop_all, app_nil_r. done.
Qed.

(** ** The calls of a run *)

Lemma run_evolves E dir steps σ :
  evolves σ (publish_episode E dir steps σ).2
    (new_calls σ (publish_episode E dir steps σ).2)
    ["audio.mp3"; "transcript.md"; "show-notes.md"].
Proof.
  destruct (config_of E σ) as [[meta video]|] eqn:Hc.
  - destruct (run_summary E dir steps σ meta video Hc) as (tr & _ & Hp & ->).
    by eapply pipeline_entries.
  - rewrite (publish_episode_silent E dir steps σ Hc).
    destruct (publish_episode_aborts E dir steps σ Hc) as [x ->].
    apply evolves_weaken with (outs := []); [apply evolves_refl | set_solver].
Qed.

Lemma entries_of_shape E n name o e :
  e ∈ entries_of E n name o →
  status e ∈ ["START"; "DONE"; "FAIL"; "SKIP"].
Proof.
  intros He. pose proof (entries_of_status E n name o e He) as Hs.
  destruct o; [done | | |]; destruct_or?; rewrite Hs; in_list.
Qed.

Lemma entries_of_done E n name o e :
  e ∈ entries_of E n name o → status e = "DONE" →
  ∃ start, o = Done start (detail e).
Proof.
  destruct o as [|why|start result|start message]; cbn; intros He Hs.
  - by apply elem_of_nil in He.
  - apply list_elem_of_singleton in He as ->. discriminate Hs.
  - apply elem_of_cons in He as [-> | He]; [discriminate Hs |].
    apply list_elem_of_singleton in He as ->. by exists start.
  - apply elem_of_cons in He as [-> | He]; [discriminate Hs |].
    apply list_elem_of_singleton in He as ->. discriminate Hs.
Qed.

Lemma entries_of_length E n name o : length (entries_of E n name o) ≤ 2.
Proof. destruct o; cbn; lia. Qed.

Lemma entries_from_length E tr n names :
  length (entries_from E tr n names) ≤ 2 * length names.
Proof.
  revert n. induction names as [|a names IH]; intros n; cbn [entries_from].
  - cbn. lia.
  - rewrite length_app. cbn [length].
    pose proof (entries_of_length E n a (outcome_of tr a)).
    pose proof (IH (n + length (entries_of E n a (outcome_of tr a)))). lia.
Qed.

Lemma filter_entries_from E tr n names name :
  NoDup names →
  ∃ m, filter (λ e, step e = name) (entries_from E tr n names)
       = if decide (name ∈ names) then entries_of E m name (outcome_of tr name)
         else [].
Proof.
  revert n. induction names as [|a names IH]; intros n Hnd.
  { exists n. cbn [entries_from]. rewrite filter_nil.
    destruct (decide (name ∈ [])) as [Hin|]; [by apply elem_of_nil in Hin | done]. }
  apply NoDup_cons in Hnd as [Ha Hnd]. cbn [entries_from].
  rewrite filter_app, filter_entries_of.
  destruct (IH (n + length (entries_of E n a (outcome_of tr a))) Hnd) as [m ->].
  destruct (decide (a = name)) as [-> | Hne].
  - exists n. rewrite decide_False by done. rewrite app_nil_r.
    rewrite decide_True; [done | apply list_elem_of_here].
  - exists m. cbn [app]. destruct (decide (name ∈ names)) as [Hin | Hout].
    + rewrite decide_True; [done | by apply list_elem_of_further].
    + rewrite decide_False; [done |].
      intros [-> | Hin]%elem_of_cons; done.
Qed.

Lemma all_steps_NoDup : NoDup all_steps.
Proof.
  unfold all_steps. refine (bool_decide_unpack _ _). vm_compute. exact I.
Qed.

(** X3.  In the log of one run every step has the lines of at most one
    evaluation: one SKIP line, or one START line followed by one DONE or
    FAIL line, stamped by consecutive clock readings.  A run makes at most
    ten calls, each for a step of the enumeration and with one of the
    four outcomes. *)
Theorem each_step_logs_one_evaluation E dir steps σ :
  let new := new_calls σ (publish_episode E dir steps σ).2 in
  (∀ name, ∃ o n, filter (λ e, step e = name) new = entries_of E n name o)
  ∧ length new ≤ 10
  ∧ (∀ e, e ∈ new →
          step e ∈ all_steps ∧ status e ∈ ["START"; "DONE"; "FAIL"; "SKIP"]).
Proof.
  cbn zeta. destruct (config_of E σ) as [[meta video]|] eqn:Hc.
  - destruct (run_summary E dir steps σ meta video Hc) as (tr & _ & _ & ->).
    split; [| split].
    + intros name.
      destruct (filter_entries_from E tr (length (calls σ)) all_steps name
                  all_steps_NoDup) as [m Hm].
      unfold trace_entries. rewrite Hm.
      destruct (decide (name ∈ all_steps)); [by eexists _, _ |].
      by exists NotRun, 0.
    + apply (entries_from_length E tr (length (calls σ)) all_steps).
    + intros e He. apply trace_entry_outcome in He as (Hstep & m & He).
      split; [done | by eapply entries_of_shape].
  - rewrite (publish_episode_silent E dir steps σ Hc).
    split; [| split].
    + intros name. by exists NotRun, 0.
    + cbn. lia.
    + intros e He. by apply elem_of_nil in He.
Qed.

(** ** What a DONE line stands for *)

(** X4.  A DONE line is logged only once the work is there.  For audio,
    transcript and show_notes the output file did not exist when the run
    began and exists when it ends; for youtube the detail is the address
    of the uploaded video; for rss a feed document has been written. *)
Theorem done_line_has_its_artifact E dir steps σ e :
  let σ' := (publish_episode E dir steps σ).2 in
  e ∈ new_calls σ σ' → status e = "DONE" →
  (step e = "audio" ∧ fs σ !! "audio.mp3" = None
   ∧ is_Some (fs σ' !! "audio.mp3"))
  ∨ (step e = "transcript" ∧ fs σ !! "transcript.md" = None
     ∧ is_Some (fs σ' !! "transcript.md"))
  ∨ (step e = "show_notes" ∧ fs σ !! "show-notes.md" = None
     ∧ is_Some (fs σ' !! "show-notes.md"))
  ∨ (step e = "youtube"
     ∧ ∃ id, youtube_service E = inr id
             ∧ detail e = "https://youtube.com/watch?v=" +:+ id)
  ∨ (step e = "rss" ∧ is_Some (feed_xml σ')).
Proof.
  cbn zeta. intros He Hs.
  destruct (config_of E σ) as [[meta video]|] eqn:Hc;
    [| rewrite (publish_episode_silent E dir steps σ Hc) in He;
       by apply elem_of_nil in He].
  destruct (run_summary E dir steps σ meta video Hc) as (tr & _ & Hp & Hnew).
  rewrite Hnew in He. apply trace_entry_outcome in He as (Hstep & m & He).
  destruct (entries_of_done _ _ _ _ _ He Hs) as [start Ho].
  destruct Hp as (σa & returned & Hfa & Heva & _ & Hrest).
  assert (∀ n, fs σa !! n = None → fs σ !! n = None) as Hback_a.
  { intros n Hn. destruct (fs σ !! n) eqn:Hσ; [| done].
    destruct (ev_mono _ _ _ _ Heva n) as [c Hc']; [by eexists |]. congruence. }
  unfold all_steps in Hstep.
  destruct returned.
  { destruct Hrest as (-> & Ht & Hn & Hy & Hr).
    repeat (apply elem_of_cons in Hstep as [Hname | Hstep]);
      [| | | | | by apply elem_of_nil in Hstep]; rewrite Hname in Ho.
    - rewrite outcome_of_audio in Ho. rewrite Ho in Hfa. cbn in Hfa.
      destruct Hfa as (_ & Hret & _). discriminate Hret.
    - rewrite outcome_of_transcript, Ht in Ho. discriminate Ho.
    - rewrite outcome_of_show_notes, Hn in Ho. discriminate Ho.
    - rewrite outcome_of_youtube, Hy in Ho. discriminate Ho.
    - rewrite outcome_of_rss, Hr in Ho. discriminate Ho. }
  destruct Hrest
    as (σt & σn & σy & Hft & Hevt & Hfn & Hevn & Hfy & Hevy & _ & Hfr & Hevr).
  assert (∀ n, fs σt !! n = None → fs σa !! n = None) as Hback_t.
  { intros n Hn. destruct (fs σa !! n) eqn:Hσ; [| done].
    destruct (ev_mono _ _ _ _ Hevt n) as [c Hc']; [by eexists |]. congruence. }
  repeat (apply elem_of_cons in Hstep as [Hname | Hstep]);
    [| | | | | by apply elem_of_nil in Hstep]; rewrite Hname in Ho.
  - left. rewrite outcome_of_audio in Ho. rewrite Ho in Hfa. cbn in Hfa.
    destruct Hfa as (_ & _ & _ & Hnone & Hsome & _).
    split; [done |]. split; [done |].
    apply (ev_mono _ _ _ _ Hevr), (ev_mono _ _ _ _ Hevy),
      (ev_mono _ _ _ _ Hevn), (ev_mono _ _ _ _ Hevt), Hsome.
  - right; left. rewrite outcome_of_transcript in Ho. rewrite Ho in Hft.
    cbn in Hft. destruct Hft as (_ & Hnone & _ & Hsome & _).
    split; [done |]. split; [by apply Hback_a |].
    apply (ev_mono _ _ _ _ Hevr), (ev_mono _ _ _ _ Hevy),
      (ev_mono _ _ _ _ Hevn), Hsome.
  - right; right; left. rewrite outcome_of_show_notes in Ho. rewrite Ho in Hfn.
    cbn in Hfn. destruct Hfn as (_ & Hnone & _ & Hsome & _).
    split; [done |]. split; [by apply Hback_a, Hback_t |].
    apply (ev_mono _ _ _ _ Hevr), (ev_mono _ _ _ _ Hevy), Hsome.
  - right; right; right; left. rewrite outcome_of_youtube in Ho.
    rewrite Ho in Hfy. cbn in Hfy. destruct Hfy as (_ & _ & id & Hid & Hres).
    split; [done |]. by exists id.
  - right; right; right; right. rewrite outcome_of_rss in Ho.
    rewrite Ho in Hfr. cbn in Hfr. destruct Hfr as (_ & _ & doc & _ & Hdoc).
    split; [done |]. by exists doc.
Qed.

(** X4 on the first run of the demo episode: the DONE line of its audio
    step. *)
Lemma done_line_has_its_artifact_witness :
  let σ' := (publish_episode Demo.E Demo.dir None Demo.fresh).2 in
  let e := Entry (Demo.tick 1) "audio" "DONE" "3 MB" in
  (step e = "audio" ∧ fs Demo.fresh !! "audio.mp3" = None
   ∧ is_Some (fs σ' !! "audio.mp3"))
  ∨ (step e = "transcript" ∧ fs Demo.fresh !! "transcript.md" = None
     ∧ is_Some (fs σ' !! "transcript.md"))
  ∨ (step e = "show_notes" ∧ fs Demo.fresh !! "show-notes.md" = None
     ∧ is_Some (fs σ' !! "show-notes.md"))
  ∨ (step e = "youtube"
     ∧ ∃ id, youtube_service Demo.E = inr id
             ∧ detail e = "https://youtube.com/watch?v=" +:+ id)
  ∨ (step e = "rss" ∧ is_Some (feed_xml σ')).
Proof.
  cbn zeta.
  apply (done_line_has_its_artifact Demo.E Demo.dir None Demo.fresh
           (Entry (Demo.tick 1) "audio" "DONE" "3 MB")).
  - apply (list_elem_of_lookup_2 _ 1). vm_compute. reflexivity.
  - reflexivity.
Defined.

(** ** The lines of a run *)

Lemma log_after_text old es :
  default "" (log_after old es) = default "" old +:+ cat (map format_line es).
Proof.
  destruct es as [|e es]; [| done]. cbn. by rewrite string_app_nil_r.
Qed.

(** Appending the lines of entries that hold no line boundary adds one
    line for each. *)
Lemma splitlines_entries old es :
  old = "" ∨ (∃ body, old = body +:+ Text.nl) →
  Forall (λ e, all_chars inline_char (step e) = true
               ∧ all_chars inline_char (status e) = true
               ∧ all_chars inline_char (detail e) = true) es →
  Podcast.splitlines (old +:+ cat (map format_line es))
  = Podcast.splitlines old ++ map line_body es.
Proof.
  intros Hold Hes. revert old Hold.
  induction Hes as [|e es (H1 & H2 & H3) Hes IH]; intros old Hold.
  { cbn. by rewrite string_app_nil_r, app_nil_r. }
  cbn [map cat foldr]. rewrite <- string_app_assoc.
  change (foldr String.append "" (map format_line es))
    with (cat (map format_line es)).
  rewrite IH.
  - rewrite splitlines_after, format_line_one_line by done.
    by rewrite <- app_assoc.
  - right. exists (old +:+ line_body e).
    by rewrite format_line_body, string_app_assoc.
Qed.

Lemma step_name_inline name :
  name ∈ all_steps → all_chars inline_char name = true.
Proof.
  unfold all_steps. intros H.
  repeat (apply elem_of_cons in H as [-> | H]); try reflexivity.
  by apply elem_of_nil in H.
Qed.

Lemma outcome_name_inline st :
  st ∈ ["START"; "DONE"; "FAIL"; "SKIP"] → all_chars inline_char st = true.
Proof.
  intros H.
  repeat (apply elem_of_cons in H as [-> | H]); try reflexivity.
  by apply elem_of_nil in H.
Qed.

Lemma run_entries_named E dir steps σ e :
  e ∈ new_calls σ (publish_episode E dir steps σ).2 →
  step e ∈ all_steps ∧ status e ∈ ["START"; "DONE"; "FAIL"; "SKIP"].
Proof.
  destruct (config_of E σ) as [[meta video]|] eqn:Hc.
  - destruct (run_summary E dir steps σ meta video Hc) as (tr & _ & _ & ->).
    intros He. apply trace_entry_outcome in He as (Hstep & m & He).
    split; [done | by eapply entries_of_shape].
  - rewrite (publish_episode_silent E dir steps σ Hc).
    intros He. by apply elem_of_nil in He.
Qed.

(** X5.  On a log that does not exist yet, or that ends with a newline, a
    run whose logged details hold no line break adds exactly one line per
    call, in call order, and leaves the lines that were there: the log
    read line by line is the old lines followed by the line of each
    call. *)
Theorem run_adds_one_line_per_call E dir steps σ :
  let σ' := (publish_episode E dir steps σ).2 in
  fs σ !! "publish.log" = None
  ∨ (∃ body, fs σ !! "publish.log" = Some (body +:+ Text.nl)) →
  (∀ e, e ∈ new_calls σ σ' → all_chars inline_char (detail e) = true) →
  Podcast.splitlines (default "" (fs σ' !! "publish.log"))
  = Podcast.splitlines (default "" (fs σ !! "publish.log"))
    ++ map line_body (new_calls σ σ').
Proof.
  cbn zeta. intros Hold Hinline.
  rewrite (ev_log _ _ _ _ (run_evolves E dir steps σ)), log_after_text.
  apply splitlines_entries.
  - destruct Hold as [-> | [body ->]]; [by left | right; by exists body].
  - apply Forall_forall. intros e He.
    destruct (run_entries_named E dir steps σ e He) as [Hstep Hst].
    split; [by apply step_name_inline |].
    split; [by apply outcome_name_inline | by apply Hinline].
Qed.

(** X5 on the first run of the demo episode: ten calls, ten lines. *)
Lemma run_adds_one_line_per_call_witness :
  let σ' := (publish_episode Demo.E Demo.dir None Demo.fresh).2 in
  Podcast.splitlines (default "" (fs σ' !! "publish.log"))
  = Podcast.splitlines (default "" (fs Demo.fresh !! "publish.log"))
    ++ map line_body (new_calls Demo.fresh σ')
  ∧ length (new_calls Demo.fresh σ') = 10.
Proof.
  cbn zeta. split; [| vm_compute; reflexivity].
  apply (run_adds_one_line_per_call Demo.E Demo.dir None Demo.fresh).
  - left. reflexivity.
  - assert (forallb (λ e, all_chars inline_char (detail e))
              (new_calls Demo.fresh
                 (publish_episode Demo.E Demo.dir None Demo.fresh).2) = true)
      as HF by (vm_compute; reflexivity).
    rewrite forallb_forall in HF.
    intros e He. by apply HF, list_elem_of_In.
Defined.

(** * Further properties of the feed *)

(** ** What the loop over the episodes did *)

Lemma add_entries_inv {S} E pc dirs (σ σ' : S) es :
  RssFeed.add_entries E pc dirs σ = (Ok es, σ') →
  Forall (reads_well E) dirs
  ∧ Forall2 (λ fe d, entry_of E pc d fe) es
      (filter (λ d, qualifies d = true) dirs).
Proof.
  revert es σ'. induction dirs as [|[name files] rest IH]; intros es σ'.
  { cbn. intros [= <- _]. split; constructor. }
  cbn [RssFeed.add_entries].
  destruct (files !! "metadata.toml") as [text|] eqn:Hm.
  2: { intros H. destruct (IH es σ' H) as [Hall Hes]. split.
       - constructor; [| done]. intros text Htext. cbn in Htext. congruence.
       - rewrite filter_cons_False; [done |].
         unfold qualifies. cbn [snd]. rewrite Hm.
         rewrite bool_decide_eq_false_2 by (by intros [? ?]). done. }
  destruct (toml_load E text) as [meta|] eqn:Hload; [| done].
  intros (ep & σ1 & Hep & H)%bind_inv. apply section_inv in Hep as [Hep ->].
  assert (reads_well E (name, files)) as Hwell.
  { intros text' Htext. cbn in Htext. rewrite Hm in Htext.
    injection Htext as <-. exists meta. split; [done | by eexists]. }
  destruct (files !! "audio.mp3") as [audio|] eqn:Ha.
  2: { destruct (IH es σ' H) as [Hall Hes]. split; [by constructor |].
       rewrite filter_cons_False; [done |].
       unfold qualifies. cbn [snd]. rewrite Ha.
       rewrite (bool_decide_eq_false_2 (is_Some None)) by (by intros [? ?]).
       by rewrite andb_false_r. }
  apply bind_inv in H as (website & σ2 & Hw & H). apply key_inv in Hw as [Hw ->].
  apply bind_inv in H as (title & σ3 & Ht & H). apply key_inv in Ht as [Ht ->].
  apply bind_inv in H as (more & σ4 & Hmore & H).
  injection H as <- <-. destruct (IH more σ4 Hmore) as [Hall Hes].
  split; [by constructor |].
  rewrite filter_cons_True.
  2: { unfold qualifies. cbn [snd]. rewrite Hm, Ha.
       by rewrite !bool_decide_eq_true_2 by eauto. }
  constructor; [| done].
  exists text, meta, ep, audio, website, title. cbn [fst snd].
  by rewrite Hm, Ha.
Qed.

(** What a successful update read and wrote. *)
Lemma update_rss_feed_inv E audio_path meta σ url σ' :
  RssFeed.update_rss_feed E audio_path meta σ = (Ok url, σ') →
  ∃ text cfg pc listing doc,
    σ' = State (fs σ) (Some doc) (calls σ)
    ∧ podcast_toml (repo E) = Some text ∧ toml_load E text = Some cfg
    ∧ cfg !! "podcast" = Some pc
    ∧ pc !! "title" = Some (fd_title doc)
    ∧ pc !! "description" = Some (fd_description doc)
    ∧ pc !! "author" = Some (fd_author doc)
    ∧ pc !! "email" = Some (fd_email doc)
    ∧ episodes (repo E) = Some listing
    ∧ RssFeed.add_entries E pc (RssFeed.episode_dirs listing) σ
      = (Ok (fd_entries doc), σ)
    ∧ fd_link doc = site_of pc.
Proof.
  unfold RssFeed.update_rss_feed.
  intros ([doc url'] & σ1 & Hb & H)%bind_inv.
  unfold bind, modify, ret in H. cbn in H. injection H as <- <-.
  unfold RssFeed.build_feed in Hb.
  apply bind_inv in Hb as (cfg & σ2 & Hcfg & Hb).
  unfold RssFeed.load_podcast_config in Hcfg.
  destruct (podcast_toml (repo E)) as [text|] eqn:Htext; [| done].
  destruct (toml_load E text) as [cfg'|] eqn:Hload; [| done].
  injection Hcfg as -> <-.
  apply bind_inv in Hb as (pc & σ3 & Hpc & Hb). apply section_inv in Hpc as [Hpc ->].
  apply bind_inv in Hb as (title & σ4 & Ht & Hb). apply key_inv in Ht as [Ht ->].
  apply bind_inv in Hb as (descr & σ5 & Hd & Hb). apply key_inv in Hd as [Hd ->].
  apply bind_inv in Hb as (author & σ6 & Ha & Hb). apply key_inv in Ha as [Ha ->].
  apply bind_inv in Hb as (email & σ7 & He & Hb). apply key_inv in He as [He ->].
  destruct (episodes (repo E)) as [listing|] eqn:Hl; [| done].
  apply bind_inv in Hb as (entries & σ8 & Hentries & Hb).
  injection Hb as <- <- <-.
  assert (σ8 = σ) as ->.
  { destruct (add_entries_reads (S := state) E pc (RssFeed.episode_dirs listing))
      as [r Hr]. rewrite Hr in Hentries. by injection Hentries. }
  eexists text, cfg, pc, listing, _. split; [reflexivity |]. cbn.
  repeat (split; [done |]). done.
Qed.

(** ** Failure and success of an update *)



(** X7.  What a successful update needed.  The repository has a
    [podcast.toml] that parses, with a [podcast] table holding [title],
    [description], [author] and [email]; the directory [episodes/]
    exists; and every visible directory in it that has a [metadata.toml]
    has one that parses and holds an [episode] table, whether or not the
    directory has audio: a single unreadable episode fails the update for
    all of them. *)
Theorem successful_update_read_everything E audio_path meta σ url σ' :
  RssFeed.update_rss_feed E audio_path meta σ = (Ok url, σ') →
  ∃ text cfg pc listing,
    podcast_toml (repo E) = Some text ∧ toml_load E text = Some cfg
    ∧ cfg !! "podcast" = Some pc
    ∧ is_Some (pc !! "title") ∧ is_Some (pc !! "description")
    ∧ is_Some (pc !! "author") ∧ is_Some (pc !! "email")
    ∧ episodes (repo E) = Some listing
    ∧ ∀ name files mtext,
        listing !! name = Some (Dir files) →
        Text.starts_with_dot name = false →
        files !! "metadata.toml" = Some mtext →
        ∃ m, toml_load E mtext = Some m ∧ is_Some (m !! "episode").
Proof.
  intros H. apply update_rss_feed_inv in H
    as (text & cfg & pc & listing & doc & _ & Htext & Hload & Hpc & Ht & Hd
        & Ha & He & Hl & Hentries & _).
  exists text, cfg, pc, listing.
  repeat (split; [done || by eexists |]).
  intros name files mtext Hdir Hdot Hm.
  apply add_entries_inv in Hentries as [Hall _].
  rewrite Forall_forall in Hall.
  apply (Hall (name, files)); [| done].
  by apply elem_of_episode_dirs.
Qed.

(** X7 on the demo workspace. *)
Lemma successful_update_read_everything_witness :
  ∃ text cfg pc listing,
    podcast_toml (repo Demo.E) = Some text ∧ toml_load Demo.E text = Some cfg
    ∧ cfg !! "podcast" = Some pc
    ∧ is_Some (pc !! "title") ∧ is_Some (pc !! "description")
    ∧ is_Some (pc !! "author") ∧ is_Some (pc !! "email")
    ∧ episodes (repo Demo.E) = Some listing
    ∧ ∀ name files mtext,
        listing !! name = Some (Dir files) →
        Text.starts_with_dot name = false →
        files !! "metadata.toml" = Some mtext →
        ∃ m, toml_load Demo.E mtext = Some m ∧ is_Some (m !! "episode").
Proof.
  apply (successful_update_read_everything Demo.E "audio.mp3" Demo.meta
           Demo.fresh "https://example.org/feed/podcast.xml"
           (RssFeed.update_rss_feed Demo.E "audio.mp3" Demo.meta Demo.fresh).2).
  vm_compute. reflexivity.
Defined.

(** ** The entries of the feed *)

(** X8.  Every entry of a feed that was written stands for a directory
    of [episodes/] and carries that directory's audio: its enclosure is
    [<base>/episodes/<id>/audio.mp3], where the base is [media_base_url]
    if the podcast table has that key and [website] otherwise, with the
    decimal size of the directory's [audio.mp3] as length and the type
    [audio/mpeg]; its content is the directory's [show-notes.md] when
    there is one.  The podcast table has the key [website] as soon as the
    feed has an entry, whether or not [media_base_url] is given. *)
Theorem feed_entry_carries_its_audio E audio_path meta σ url σ' doc fe :
  RssFeed.update_rss_feed E audio_path meta σ = (Ok url, σ') →
  feed_xml σ' = Some doc → fe ∈ fd_entries doc →
  ∃ listing files audio text cfg pc website,
    episodes (repo E) = Some listing
    ∧ listing !! fe_id fe = Some (Dir files)
    ∧ files !! "audio.mp3" = Some audio
    ∧ podcast_toml (repo E) = Some text ∧ toml_load E text = Some cfg
    ∧ cfg !! "podcast" = Some pc ∧ pc !! "website" = Some website
    ∧ fe_enclosure fe
      = (str_tval (default website (pc !! "media_base_url"))
         +:+ "/episodes/" +:+ fe_id fe +:+ "/audio.mp3",
         pretty (String.length audio), "audio/mpeg")
    ∧ fe_content fe = files !! "show-notes.md".
Proof.
  intros H Hdoc Hfe. apply update_rss_feed_inv in H
    as (text & cfg & pc & listing & doc' & -> & Htext & Hload & Hpc & _ & _
        & _ & _ & Hl & Hentries & _).
  cbn in Hdoc. injection Hdoc as ->.
  apply add_entries_inv in Hentries as [_ Hes].
  apply list_elem_of_lookup in Hfe as [i Hi].
  destruct (Forall2_lookup_l _ _ _ _ _ Hes Hi) as ([name files] & Hd & Hent).
  destruct Hent as (mtext & m & ep & audio & website & title & Hm & Hml & Hep
                    & Ha & Hw & Ht & ->).
  apply list_elem_of_lookup_2, list_elem_of_filter in Hd as [_ Hd].
  apply elem_of_episode_dirs in Hd as [Hd _].
  cbn [fst snd] in *.
  exists listing, files, audio, text, cfg, pc, website. cbn.
  repeat (split; [done |]). done.
Qed.

(** X8 on the demo workspace: the entry of its one published episode. *)
Lemma feed_entry_carries_its_audio_witness :
  let fe := FeedEntry "ep001-pilot" (VStr "Pilot") (VStr "")
              ("https://example.org/episodes/ep001-pilot/audio.mp3", "3",
               "audio/mpeg") (Some "1") None in
  ∃ listing files audio text cfg pc website,
    episodes (repo Demo.E) = Some listing
    ∧ listing !! fe_id fe = Some (Dir files)
    ∧ files !! "audio.mp3" = Some audio
    ∧ podcast_toml (repo Demo.E) = Some text ∧ toml_load Demo.E text = Some cfg
    ∧ cfg !! "podcast" = Some pc ∧ pc !! "website" = Some website
    ∧ fe_enclosure fe
      = (str_tval (default website (pc !! "media_base_url"))
         +:+ "/episodes/" +:+ fe_id fe +:+ "/audio.mp3",
         pretty (String.length audio), "audio/mpeg")
    ∧ fe_content fe = files !! "show-notes.md".
Proof.
  cbn zeta.
  apply (feed_entry_carries_its_audio Demo.E "audio.mp3" Demo.meta Demo.fresh
           "https://example.org/feed/podcast.xml"
           (RssFeed.update_rss_feed Demo.E "audio.mp3" Demo.meta Demo.fresh).2
           (FeedDoc (VStr "Boring Podcast") (VStr "https://example.org")
              (VStr "Talks") (VStr "en") (VStr "Host")
              (VStr "host@example.org") (VStr "Technology") None
              [FeedEntry "ep001-pilot" (VStr "Pilot") (VStr "")
                 ("https://example.org/episodes/ep001-pilot/audio.mp3", "3",
                  "audio/mpeg") (Some "1") None])).
  - vm_compute. reflexivity.
  - vm_compute. reflexivity.
  - apply list_elem_of_here.
Defined.

(** ** The order of the entries *)

Lemma string_compare_trans (a b c : string) :
  String.compare a b ≠ Gt → String.compare b c ≠ Gt → String.compare a c ≠ Gt.
Proof.
  revert b c. induction a as [|x a IH]; intros [|y b] [|z c]; cbn; try done.
  unfold Ascii.compare.
  destruct (N.compare_spec (N_of_ascii x) (N_of_ascii y)) as [Hxy|Hxy|Hxy];
    destruct (N.compare_spec (N_of_ascii y) (N_of_ascii z)) as [Hyz|Hyz|Hyz];
    destruct (N.compare_spec (N_of_ascii x) (N_of_ascii z)) as [Hxz|Hxz|Hxz];
    try done; try lia.
  apply IH.
Qed.

Lemma string_leb_trans (a b c : string) :
  String.leb a b = true → String.leb b c = true → String.leb a c = true.
Proof.
  unfold String.leb. intros Hab Hbc.
  pose proof (string_compare_trans a b c) as H.
  destruct (String.compare a b); [| | done];
    destruct (String.compare b c); try done;
    destruct (String.compare a c); try done; by destruct H.
Qed.

Lemma name_le_trans {A} : Transitive (@RssFeed.name_le A).
Proof. intros a b c. unfold RssFeed.name_le. apply string_leb_trans. Qed.

Lemma name_le_total {A} : Total (@RssFeed.name_le A).
Proof. intros a b. unfold RssFeed.name_le. apply String.leb_total. Qed.

Lemma episode_dirs_sorted listing :
  StronglySorted RssFeed.name_le (RssFeed.episode_dirs listing).
Proof.
  unfold RssFeed.episode_dirs.
  apply StronglySorted_merge_sort; [apply name_le_trans | apply name_le_total].
Qed.


Lemma StronglySorted_strict (l : list string) :
  StronglySorted (λ a b, String.leb a b = true) l → NoDup l →
  StronglySorted name_lt l.
Proof.
  induction 1 as [|x l Hl IH Hx]; intros Hnd; [constructor |].
  apply NoDup_cons in Hnd as [Hx' Hnd]. constructor; [by apply IH |].
  rewrite Forall_forall in Hx. apply Forall_forall. intros y Hy.
  split; [by apply Hx | by intros ->].
Qed.



(** * Properties of the routes *)

(** ** The directories the routes see *)

Lemma elem_of_api_episode_dirs E name files :
  (name, files) ∈ Api.episode_dirs E
  ↔ ∃ listing, episodes (repo E) = Some listing
               ∧ listing !! name = Some (Dir files)
               ∧ Text.starts_with_dot name = false.
Proof.
  unfold Api.episode_dirs. destruct (episodes (repo E)) as [listing|].
  - rewrite elem_of_episode_dirs. split.
    + intros [H1 H2]. by exists listing.
    + intros (l & [= <-] & H1 & H2). done.
  - split; [by intros ?%elem_of_nil | by intros (l & ? & _)].
Qed.

Lemma api_episode_dirs_NoDup E : NoDup (map fst (Api.episode_dirs E)).
Proof.
  unfold Api.episode_dirs. destruct (episodes (repo E)) as [listing|].
  - apply episode_dirs_NoDup.
  - constructor.
Qed.

Lemma api_episode_dirs_sorted E :
  StronglySorted name_lt (map fst (Api.episode_dirs E)).
Proof.
  apply StronglySorted_strict; [| apply api_episode_dirs_NoDup].
  unfold Api.episode_dirs. destruct (episodes (repo E)) as [listing|].
  - apply (StronglySorted_fmap fst RssFeed.name_le); [done |].
    apply episode_dirs_sorted.
  - constructor.
Qed.

Lemma load_episode_slug E name files e :
  Api.load_episode E name files = Ok e →
  Api.slug_of e = name
  ∧ (files !! "metadata.toml" = None ↔ ∃ dir, e = Api.Bare name dir)
  ∧ Api.asset Api.audio e
    = match files !! "metadata.toml" with
      | Some _ => Ok (bool_decide (is_Some (files !! "audio.mp3")))
      | None => Raise (KeyError "assets")
      end
  ∧ Api.asset Api.transcript e
    = match files !! "metadata.toml" with
      | Some _ => Ok (bool_decide (is_Some (files !! "transcript.md")))
      | None => Raise (KeyError "assets")
      end
  ∧ Api.asset Api.show_notes e
    = match files !! "metadata.toml" with
      | Some _ => Ok (bool_decide (is_Some (files !! "show-notes.md")))
      | None => Raise (KeyError "assets")
      end.
Proof.
  unfold Api.load_episode.
  destruct (files !! "metadata.toml") as [text|].
  - destruct (toml_load E text) as [meta|]; [| done].
    destruct (default (VStr "video.mp4") (default ∅ (meta !! "files") !! "video"));
      [| done | done].
    intros [= <-]. cbn. repeat split; try done. by intros [dir ?].
  - intros [= <-]. cbn. repeat split; try done. by eexists.
Qed.

Lemma load_all_inv E dirs eps :
  Api.load_all E dirs = Ok eps →
  Forall2 (λ e d, Api.load_episode E d.1 d.2 = Ok e) eps dirs.
Proof.
  revert eps. induction dirs as [|[name files] rest IH]; intros eps.
  { cbn. intros [= <-]. constructor. }
  cbn [Api.load_all]. unfold Api.and_then.
  destruct (Api.load_episode E name files) as [e|] eqn:He; [| done].
  destruct (Api.load_all E rest) as [es|]; [| done].
  intros [= <-]. constructor; [done | by apply IH].
Qed.

(** ** [GET /episodes] *)

(** X10.  The list of episodes has one entry for each directory of
    [episodes/] whose name does not start with a dot, under the name of
    the directory as slug, in ascending order of the names, each once;
    files of [episodes/] and hidden directories are left out.  A
    directory without [metadata.toml] is listed with the short entry. *)
Theorem list_episodes_lists_visible_directories E pc eps :
  Api.list_episodes E = Ok (pc, eps) →
  map Api.slug_of eps = map fst (Api.episode_dirs E)
  ∧ StronglySorted name_lt (map Api.slug_of eps)
  ∧ (∀ name, name ∈ map Api.slug_of eps
             ↔ ∃ listing files, episodes (repo E) = Some listing
                                ∧ listing !! name = Some (Dir files)
                                ∧ Text.starts_with_dot name = false)
  ∧ (∀ e, e ∈ eps →
          (∃ dir, e = Api.Bare (Api.slug_of e) dir)
          ↔ ∃ files, (Api.slug_of e, files) ∈ Api.episode_dirs E
                     ∧ files !! "metadata.toml" = None).
Proof.
  unfold Api.list_episodes, Api.and_then.
  destruct (Api.load_all E (Api.episode_dirs E)) as [eps'|] eqn:Hall; [| done].
  destruct (Api.podcast_config E) as [config|]; [| done].
  intros [= _ <-]. apply load_all_inv in Hall.
  assert (map Api.slug_of eps' = map fst (Api.episode_dirs E)) as Hslugs.
  { induction Hall as [|e d es ds He _ IH]; [done |].
    cbn. f_equal; [| done]. by apply load_episode_slug in He as [-> _]. }
  split; [done |]. split; [rewrite Hslugs; apply api_episode_dirs_sorted |].
  split.
  - intros name. rewrite Hslugs, list_elem_of_fmap. split.
    + intros ([n files] & -> & Hin).
      apply elem_of_api_episode_dirs in Hin as (listing & ? & ? & ?).
      by exists listing, files.
    + intros (listing & files & ? & ? & ?). exists (name, files).
      split; [done |]. apply elem_of_api_episode_dirs. by exists listing.
  - intros e He. apply list_elem_of_lookup in He as [i Hi].
    destruct (Forall2_lookup_l _ _ _ _ _ Hall Hi) as ([name files] & Hd & Hload).
    cbn in Hload. pose proof (load_episode_slug _ _ _ _ Hload) as (Hs & Hb & _).
    rewrite Hs. apply list_elem_of_lookup_2 in Hd. split.
    + intros Hbare. exists files. split; [done | by apply Hb].
    + intros (files' & Hin & Hnone).
      assert (files' = files) as ->; [| by apply Hb].
      apply elem_of_api_episode_dirs in Hin as (l1 & Hl1 & Hf1 & _).
      apply elem_of_api_episode_dirs in Hd as (l2 & Hl2 & Hf2 & _).
      congruence.
Qed.

(** X10 on the demo workspace: three visible directories, the third one
    without metadata. *)
Lemma list_episodes_lists_visible_directories_witness :
  let targets := default ∅ (Demo.meta !! "publish") in
  let eps :=
    [Api.Full "ep001-pilot" (Some (VInt 1)) (VStr "Pilot") (VStr "") None
       (Api.Assets true false false false) targets ∅;
     Api.Full "ep002-next" (Some (VInt 1)) (VStr "Pilot") (VStr "") None
       (Api.Assets false false false false) targets ∅;
     Api.Bare "ep003-raw" "/repo/episodes/ep003-raw"] in
  Api.list_episodes Demo.E = Ok (default ∅ (Demo.podcast !! "podcast"), eps)
  ∧ map Api.slug_of eps = map fst (Api.episode_dirs Demo.E)
  ∧ StronglySorted name_lt (map Api.slug_of eps)
  ∧ (∀ name, name ∈ map Api.slug_of eps
             ↔ ∃ listing files, episodes (repo Demo.E) = Some listing
                                ∧ listing !! name = Some (Dir files)
                                ∧ Text.starts_with_dot name = false)
  ∧ (∀ e, e ∈ eps →
          (∃ dir, e = Api.Bare (Api.slug_of e) dir)
          ↔ ∃ files, (Api.slug_of e, files) ∈ Api.episode_dirs Demo.E
                     ∧ files !! "metadata.toml" = None).
Proof.
  cbn zeta.
  assert (Api.list_episodes Demo.E
          = Ok (default ∅ (Demo.podcast !! "podcast"),
                [Api.Full "ep001-pilot" (Some (VInt 1)) (VStr "Pilot") (VStr "")
                   None (Api.Assets true false false false)
                   (default ∅ (Demo.meta !! "publish")) ∅;
                 Api.Full "ep002-next" (Some (VInt 1)) (VStr "Pilot") (VStr "")
                   None (Api.Assets false false false false)
                   (default ∅ (Demo.meta !! "publish")) ∅;
                 Api.Bare "ep003-raw" "/repo/episodes/ep003-raw"])) as Hlist
    by (vm_compute; reflexivity).
  split; [exact Hlist |].
  exact (list_episodes_lists_visible_directories Demo.E _ _ Hlist).
Defined.

(** ** [GET /status] *)

Lemma count_with_inv pick eps n :
  Api.count_with pick eps = Ok n →
  Forall (λ e, ∃ b, Api.asset pick e = Ok b) eps
  ∧ n = length (filter (λ e, Is_true (match Api.asset pick e with
                                       | Ok b => b
                                       | Raise _ => false
                                       end)) eps).
Proof.
  revert n. induction eps as [|e eps IH]; intros n.
  { cbn. intros [= <-]. split; [constructor | done]. }
  cbn [Api.count_with]. unfold Api.and_then.
  destruct (Api.asset pick e) as [b|] eqn:Hb; [| done].
  destruct (Api.count_with pick eps) as [m|]; [| done].
  intros [= <-]. destruct (IH m eq_refl) as [Hall ->].
  split; [constructor; [by exists b | done] |].
  rewrite filter_cons, Hb. destruct b.
  - by rewrite decide_True.
  - by rewrite decide_False by (by intros []).
Qed.

Lemma count_with_bare pick eps slug dir :
  Api.Bare slug dir ∈ eps → Api.count_with pick eps = Raise (KeyError "assets").
Proof.
  induction eps as [|e eps IH]; [by intros ?%elem_of_nil |].
  intros [<- | Hin]%elem_of_cons; [done |].
  cbn [Api.count_with]. unfold Api.and_then.
  destruct (Api.asset pick e) as [b|] eqn:Hb.
  - by rewrite IH.
  - destruct e; [| done]. cbn in Hb. by injection Hb as <-.
Qed.

(** The episodes of [dirs] that have a file, counted over the loaded
    entries. *)
Lemma count_loaded E (pick : Api.assets → bool) (file : string) dirs eps :
  Forall2 (λ e d, Api.load_episode E d.1 d.2 = Ok e) eps dirs →
  (∀ e d, Api.load_episode E d.1 d.2 = Ok e →
          is_Some (d.2 !! "metadata.toml") →
          Api.asset pick e = Ok (bool_decide (is_Some (d.2 !! file)))) →
  Forall (λ d, is_Some (d.2 !! "metadata.toml")) dirs →
  length (filter (λ e, Is_true (match Api.asset pick e with
                                | Ok b => b
                                | Raise _ => false
                                end)) eps)
  = length (filter (λ d, is_Some (d.2 !! file)) dirs).
Proof.
  intros Hall Hpick. induction Hall as [|e d es ds He _ IH]; [done |].
  intros [Hm Hms]%Forall_cons. rewrite !filter_cons.
  rewrite (Hpick e d He Hm).
  destruct (decide (is_Some (d.2 !! file))) as [Hf | Hf].
  - rewrite bool_decide_eq_true_2 by done. rewrite decide_True by done.
    cbn. by rewrite IH.
  - rewrite bool_decide_eq_false_2 by done.
    rewrite decide_False by (by intros []). by apply IH.
Qed.

(** X11.  When the status route answers, every visible directory of
    [episodes/] has a [metadata.toml]; the total is the number of these
    directories and each count is the number of them holding the file
    in question, so no count exceeds the total. *)
Theorem status_counts_the_assets E st :
  Api.pipeline_status E = Ok st →
  let dirs := Api.episode_dirs E in
  Forall (λ d, is_Some (d.2 !! "metadata.toml")) dirs
  ∧ Api.total_episodes st = length dirs
  ∧ Api.with_audio st
    = length (filter (λ d, is_Some (d.2 !! "audio.mp3")) dirs)
  ∧ Api.with_transcript st
    = length (filter (λ d, is_Some (d.2 !! "transcript.md")) dirs)
  ∧ Api.with_show_notes st
    = length (filter (λ d, is_Some (d.2 !! "show-notes.md")) dirs)
  ∧ Api.with_audio st ≤ Api.total_episodes st
  ∧ Api.with_transcript st ≤ Api.total_episodes st
  ∧ Api.with_show_notes st ≤ Api.total_episodes st.
Proof.
  unfold Api.pipeline_status, Api.and_then. cbn zeta.
  destruct (Api.load_all E (Api.episode_dirs E)) as [eps|] eqn:Hall; [| done].
  destruct (Api.count_with Api.audio eps) as [a|] eqn:Ha; [| done].
  destruct (Api.count_with Api.transcript eps) as [t|] eqn:Ht; [| done].
  destruct (Api.count_with Api.show_notes eps) as [n|] eqn:Hn; [| done].
  intros [= <-]. cbn.
  apply load_all_inv in Hall.
  apply count_with_inv in Ha as [Hfull ->].
  apply count_with_inv in Ht as [_ ->]. apply count_with_inv in Hn as [_ ->].
  assert (Forall (λ d, is_Some (d.2 !! "metadata.toml")) (Api.episode_dirs E))
    as Hmeta.
  { clear -Hall Hfull. induction Hall as [|e d es ds He _ IH]; [constructor |].
    apply Forall_cons in Hfull as [[b Hb] Hfull]. constructor; [| by apply IH].
    apply load_episode_slug in He as (_ & _ & Hasset & _).
    rewrite Hasset in Hb. by destruct (d.2 !! "metadata.toml"). }
  rewrite (count_loaded E Api.audio "audio.mp3" _ _ Hall),
    (count_loaded E Api.transcript "transcript.md" _ _ Hall),
    (count_loaded E Api.show_notes "show-notes.md" _ _ Hall); try done.
  - pose proof (Forall2_length _ _ _ Hall) as Hlen. rewrite Hlen.
    repeat (split; [done |]).
    split; [| split]; apply length_filter.
  - intros e d He [m Hm]. apply load_episode_slug in He as (_ & _ & _ & _ & H).
    by rewrite Hm in H.
  - intros e d He [m Hm]. apply load_episode_slug in He as (_ & _ & _ & H & _).
    by rewrite Hm in H.
  - intros e d He [m Hm]. apply load_episode_slug in He as (_ & _ & H & _).
    by rewrite Hm in H.
Qed.

(** X11 on the demo workspace without its directory that has no
    metadata. *)
Lemma status_counts_the_assets_witness :
  let listing : gmap string node :=
    {[ "ep001-pilot" := Dir {[ "metadata.toml" := "episode"; "audio.mp3" := "mp3" ]};
       "ep002-next" := Dir {[ "metadata.toml" := "episode" ]};
       ".cache" := Dir {[ "audio.mp3" := "mp3" ]} ]} in
  let E := set_repo Demo.E (Workspace "/repo" (Some "podcast") (Some listing)) in
  let st := Api.Summary 2 1 0 0 in
  let dirs := Api.episode_dirs E in
  Api.pipeline_status E = Ok st
  ∧ Forall (λ d, is_Some (d.2 !! "metadata.toml")) dirs
  ∧ Api.total_episodes st = length dirs
  ∧ Api.with_audio st
    = length (filter (λ d, is_Some (d.2 !! "audio.mp3")) dirs)
  ∧ Api.with_transcript st
    = length (filter (λ d, is_Some (d.2 !! "transcript.md")) dirs)
  ∧ Api.with_show_notes st
    = length (filter (λ d, is_Some (d.2 !! "show-notes.md")) dirs)
  ∧ Api.with_audio st ≤ Api.total_episodes st
  ∧ Api.with_transcript st ≤ Api.total_episodes st
  ∧ Api.with_show_notes st ≤ Api.total_episodes st.
Proof.
  cbn zeta.
  assert (Api.pipeline_status
            (set_repo Demo.E
               (Workspace "/repo" (Some "podcast")
                  (Some {[ "ep001-pilot" := Dir {[ "metadata.toml" := "episode";
                                                   "audio.mp3" := "mp3" ]};
                           "ep002-next" := Dir {[ "metadata.toml" := "episode" ]};
                           ".cache" := Dir {[ "audio.mp3" := "mp3" ]} ]})))
          = Ok (Api.Summary 2 1 0 0)) as Hst by (vm_compute; reflexivity).
  split; [exact Hst |].
  exact (status_counts_the_assets _ _ Hst).
Defined.

(** X12.  A single visible directory without [metadata.toml] makes the
    status route fail: it is listed with the short entry, which has no
    assets, and the first count raises [KeyError('assets')] although the
    list of episodes itself could be built. *)
Theorem status_fails_on_a_directory_without_metadata E name files :
  (name, files) ∈ Api.episode_dirs E →
  files !! "metadata.toml" = None →
  (∃ x, Api.pipeline_status E = Raise x)
  ∧ (∀ eps, Api.load_all E (Api.episode_dirs E) = Ok eps →
            Api.pipeline_status E = Raise (KeyError "assets")).
Proof.
  intros Hin Hnone.
  assert (∀ eps, Api.load_all E (Api.episode_dirs E) = Ok eps →
                 Api.pipeline_status E = Raise (KeyError "assets")) as Hbare.
  { intros eps Hall. unfold Api.pipeline_status, Api.and_then. rewrite Hall.
    apply load_all_inv in Hall.
    apply list_elem_of_lookup in Hin as [i Hi].
    destruct (Forall2_lookup_r _ _ _ _ _ Hall Hi) as (e & He & Hload).
    cbn in Hload. apply load_episode_slug in Hload as (_ & Hb & _).
    destruct (proj1 Hb Hnone) as [dir ->].
    apply list_elem_of_lookup_2 in He.
    by rewrite (count_with_bare Api.audio eps name dir He). }
  split; [| done].
  destruct (Api.load_all E (Api.episode_dirs E)) as [eps|x] eqn:Hall.
  - exists (KeyError "assets"). by apply (Hbare eps).
  - exists x. unfold Api.pipeline_status, Api.and_then. by rewrite Hall.
Qed.

(** X12 on the demo workspace, whose third directory has no metadata:
    the list of episodes is built and the status fails. *)
Lemma status_fails_on_a_directory_without_metadata_witness :
  (∃ r, Api.list_episodes Demo.E = Ok r)
  ∧ (∃ x, Api.pipeline_status Demo.E = Raise x)
  ∧ (∀ eps, Api.load_all Demo.E (Api.episode_dirs Demo.E) = Ok eps →
            Api.pipeline_status Demo.E = Raise (KeyError "assets")).
Proof.
  split; [eexists; vm_compute; reflexivity |].
  apply (status_fails_on_a_directory_without_metadata Demo.E "ep003-raw"
           {[ "audio.mp3" := "mp3" ]}).
  - apply elem_of_api_episode_dirs. exists Demo.listing.
    split; [reflexivity |]. split; vm_compute; reflexivity.
  - vm_compute. reflexivity.
Defined.

(** ** [GET /episodes/{slug}] *)

Lemma find_episode_out E slug dirs :
  (∀ files, (slug, files) ∉ dirs) →
  Api.find_episode E slug dirs
  = Api.HttpError 404 ("Episode '" +:+ slug +:+ "' not found").
Proof.
  induction dirs as [|[name files] rest IH]; intros Hout; [done |].
  cbn [Api.find_episode]. destruct (String.eqb name slug) eqn:Heq.
  - apply String.eqb_eq in Heq as ->.
    destruct (Hout files). apply list_elem_of_here.
  - apply IH. intros f Hf. apply (Hout f). by apply list_elem_of_further.
Qed.

Lemma find_episode_in E slug files dirs :
  NoDup (map fst dirs) → (slug, files) ∈ dirs →
  Api.find_episode E slug dirs
  = match Api.load_episode E slug files with
    | Ok e => Api.Reply e
    | Raise x => Api.Crash x
    end.
Proof.
  induction dirs as [|[name files'] rest IH]; [by intros _ ?%elem_of_nil |].
  cbn [map fst]. intros [Hname Hnd]%NoDup_cons Hin.
  cbn [Api.find_episode]. apply elem_of_cons in Hin as [[= <- <-] | Hin].
  - by rewrite String.eqb_refl.
  - destruct (String.eqb name slug) eqn:Heq; [| by apply IH].
    apply String.eqb_eq in Heq as ->. destruct Hname.
    apply list_elem_of_fmap. by exists (slug, files).
Qed.

(** X13.  The route answers for a slug exactly when [episodes/] has a
    directory of that name and the name does not start with a dot: then
    it answers as [_load_episode] does on that directory (an entry whose
    slug is the one asked for, or the exception raised).  For a file, a
    hidden directory, an unknown name, or without [episodes/] at all it
    answers 404 with the detail [Episode '<slug>' not found]. *)
Theorem get_episode_finds_visible_directories E slug :
  Api.get_episode E slug
  = match episodes (repo E) ≫= (λ listing, listing !! slug) with
    | Some (Dir files) =>
        if Text.starts_with_dot slug
        then Api.HttpError 404 ("Episode '" +:+ slug +:+ "' not found")
        else match Api.load_episode E slug files with
             | Ok e => Api.Reply e
             | Raise x => Api.Crash x
             end
    | _ => Api.HttpError 404 ("Episode '" +:+ slug +:+ "' not found")
    end
  ∧ ∀ e, Api.get_episode E slug = Api.Reply e → Api.slug_of e = slug.
Proof.
  assert (∀ files, (slug, files) ∈ Api.episode_dirs E →
            Api.get_episode E slug
            = match Api.load_episode E slug files with
              | Ok e => Api.Reply e
              | Raise x => Api.Crash x
              end) as Hin.
  { intros files. apply find_episode_in, api_episode_dirs_NoDup. }
  assert ((∀ files, (slug, files) ∉ Api.episode_dirs E) →
            Api.get_episode E slug
            = Api.HttpError 404 ("Episode '" +:+ slug +:+ "' not found")) as Hout.
  { apply find_episode_out. }
  assert (Api.get_episode E slug
          = match episodes (repo E) ≫= (λ listing, listing !! slug) with
            | Some (Dir files) =>
                if Text.starts_with_dot slug
                then Api.HttpError 404 ("Episode '" +:+ slug +:+ "' not found")
                else match Api.load_episode E slug files with
                     | Ok e => Api.Reply e
                     | Raise x => Api.Crash x
                     end
            | _ => Api.HttpError 404 ("Episode '" +:+ slug +:+ "' not found")
            end) as Heq.
  { destruct (episodes (repo E)) as [listing|] eqn:Hl; cbn.
    2: { apply Hout. intros files (l & ? & _)%elem_of_api_episode_dirs.
         congruence. }
    destruct (listing !! slug) as [[content|files]|] eqn:Hs.
    + apply Hout. intros files (l & ? & ? & _)%elem_of_api_episode_dirs.
      congruence.
    + destruct (Text.starts_with_dot slug) eqn:Hdot.
      * apply Hout. intros f (l & ? & ? & ?)%elem_of_api_episode_dirs.
        congruence.
      * apply Hin, elem_of_api_episode_dirs. by exists listing.
    + apply Hout. intros files (l & ? & ? & _)%elem_of_api_episode_dirs.
      congruence. }
  split; [exact Heq |].
  intros e He. rewrite Heq in He.
  destruct (episodes (repo E) ≫= (λ listing, listing !! slug))
    as [[content|files]|]; [done | | done].
  destruct (Text.starts_with_dot slug); [done |].
  destruct (Api.load_episode E slug files) as [e'|] eqn:Hload; [| done].
  injection He as ->. by apply load_episode_slug in Hload as [? _].
Qed.

(** ** The routes and the feed *)

(** X14.  The feed and the list of episodes agree: when both could be
    built, the feed has an entry for a name exactly when the list has an
    episode with that slug whose audio asset is set and that has its
    metadata. *)
Theorem feed_lists_the_episodes_with_audio E audio_path meta σ url σ' doc pc eps :
  RssFeed.update_rss_feed E audio_path meta σ = (Ok url, σ') →
  feed_xml σ' = Some doc →
  Api.list_episodes E = Ok (pc, eps) →
  ∀ name, name ∈ map fe_id (fd_entries doc)
          ↔ ∃ e, e ∈ eps ∧ Api.slug_of e = name
                 ∧ Api.asset Api.audio e = Ok true.
Proof.
  intros Hup Hdoc Hlist name.
  apply update_rss_feed_inv in Hup
    as (text & cfg & pc' & listing & doc' & -> & _ & _ & _ & _ & _ & _ & _ & Hl
        & Hentries & _).
  cbn in Hdoc. injection Hdoc as ->.
  rewrite (add_entries_ids _ _ _ _ _ _ Hentries).
  unfold Api.list_episodes, Api.and_then in Hlist.
  destruct (Api.load_all E (Api.episode_dirs E)) as [eps'|] eqn:Hall; [| done].
  destruct (Api.podcast_config E) as [config|]; [| done].
  injection Hlist as _ <-. apply load_all_inv in Hall.
  unfold Api.episode_dirs in Hall. rewrite Hl in Hall.
  rewrite list_elem_of_fmap. split.
  - intros ([n files] & -> & [Hq Hin]%list_elem_of_filter).
    apply list_elem_of_lookup in Hin as [i Hi].
    destruct (Forall2_lookup_r _ _ _ _ _ Hall Hi) as (e & He & Hload).
    exists e. split; [by eapply list_elem_of_lookup_2 |].
    cbn in Hload. apply load_episode_slug in Hload as (Hs & _ & Ha & _).
    split; [done |]. rewrite Ha. unfold qualifies in Hq. cbn [snd] in Hq.
    apply andb_true_iff in Hq as [Hm%bool_decide_eq_true Ha'].
    destruct Hm as [m ->]. by rewrite Ha'.
  - intros (e & He & Hs & Ha). apply list_elem_of_lookup in He as [i Hi].
    destruct (Forall2_lookup_l _ _ _ _ _ Hall Hi) as ([n files] & Hd & Hload).
    cbn in Hload. apply load_episode_slug in Hload as (Hs' & _ & Ha' & _).
    exists (n, files). split; [cbn; congruence |].
    apply list_elem_of_filter. split; [| by eapply list_elem_of_lookup_2].
    unfold qualifies. cbn [snd]. rewrite Ha' in Ha.
    destruct (files !! "metadata.toml") as [m|]; [| done].
    injection Ha as ->. by rewrite bool_decide_eq_true_2 by eauto.
Qed.

(** X14 on the demo workspace: of the three episodes listed, the feed
    has the one with audio and metadata. *)
Lemma feed_lists_the_episodes_with_audio_witness :
  let targets := default ∅ (Demo.meta !! "publish") in
  let eps :=
    [Api.Full "ep001-pilot" (Some (VInt 1)) (VStr "Pilot") (VStr "") None
       (Api.Assets true false false false) targets ∅;
     Api.Full "ep002-next" (Some (VInt 1)) (VStr "Pilot") (VStr "") None
       (Api.Assets false false false false) targets ∅;
     Api.Bare "ep003-raw" "/repo/episodes/ep003-raw"] in
  let doc :=
    FeedDoc (VStr "Boring Podcast") (VStr "https://example.org") (VStr "Talks")
      (VStr "en") (VStr "Host") (VStr "host@example.org") (VStr "Technology")
      None
      [FeedEntry "ep001-pilot" (VStr "Pilot") (VStr "")
         ("https://example.org/episodes/ep001-pilot/audio.mp3", "3",
          "audio/mpeg") (Some "1") None] in
  "ep001-pilot" ∈ map fe_id (fd_entries doc)
  ↔ ∃ e, e ∈ eps ∧ Api.slug_of e = "ep001-pilot"
         ∧ Api.asset Api.audio e = Ok true.
Proof.
  cbn zeta.
  refine (feed_lists_the_episodes_with_audio Demo.E "audio.mp3" Demo.meta
            Demo.fresh "https://example.org/feed/podcast.xml"
            (RssFeed.update_rss_feed Demo.E "audio.mp3" Demo.meta Demo.fresh).2
            _ (default ∅ (Demo.podcast !! "podcast")) _ _ _ _ "ep001-pilot").
  - vm_compute. reflexivity.
  - vm_compute. reflexivity.
  - vm_compute. reflexivity.
Defined.

(** * Further properties of the reader *)

(** ** What a match says about the line *)

Lemma lazy_star_split {R} p s (k : string → option R) r :
  Re.lazy_star p s k = Some r →
  ∃ pre s', s = pre +:+ s' ∧ all_chars p pre = true ∧ k s' = Some r.
Proof.
  induction s as [|c s IH]; cbn [Re.lazy_star].
  - destruct (k "") eqn:Hk; [| done]. intros [= ->]. by exists "", "".
  - destruct (k (String c s)) eqn:Hk.
    { intros [= ->]. by exists "", (String c s). }
    destruct (p c) eqn:Hc; [| done].
    intros (pre & s' & -> & Hpre & Hs')%IH.
    exists (String c pre), s'. cbn. by rewrite Hc.
Qed.

Lemma star_split {R} p s (k : string → option R) r :
  Re.star p s k = Some r →
  ∃ run s', s = run +:+ s' ∧ all_chars p run = true ∧ k s' = Some r.
Proof.
  induction s as [|c s IH]; cbn [Re.star].
  - intros Hk. by exists "", "".
  - destruct (p c) eqn:Hc; [| intros Hk; by exists "", (String c s)].
    destruct (Re.star p s k) as [r'|] eqn:Hs.
    + intros [= ->]. destruct (IH eq_refl) as (run & s' & -> & Hrun & Hs').
      exists (String c run), s'. cbn. by rewrite Hc.
    + intros Hk. by exists "", (String c s).
Qed.

Lemma plus_split {R} p s (k : string → option R) r :
  Re.plus p s k = Some r →
  ∃ run s', s = run +:+ s' ∧ run ≠ "" ∧ all_chars p run = true
            ∧ k s' = Some r.
Proof.
  unfold Re.plus. destruct s as [|c s]; [done |].
  destruct (p c) eqn:Hc; [| done].
  intros (run & s' & -> & Hrun & Hs')%star_split.
  exists (String c run), s'. cbn. by rewrite Hc.
Qed.

(** A line the reader matches has the layout of an entry. *)
Lemma parsed_inv line name v :
  parsed line = Some (name, v) →
  ∃ pre sp1 sp2 t rest,
    line = "[" +:+ pre +:+ "]" +:+ sp1 +:+ name +:+ sp2 +:+ t +:+ rest
    ∧ sp1 ≠ "" ∧ all_chars Re.is_space sp1 = true
    ∧ name ≠ "" ∧ all_chars Re.is_word name = true
    ∧ sp2 ≠ "" ∧ all_chars Re.is_space sp2 = true
    ∧ t ∈ ["START"; "DONE"; "FAIL"] ∧ v = Podcast.lower t.
Proof.
  unfold parsed.
  destruct (Re.re_match Podcast.log_pattern line) as [caps|] eqn:Hm; [| done].
  unfold Re.re_match, Podcast.log_pattern in Hm. cbn [Re.run] in Hm.
  apply lit_inv in Hm as (s1 & -> & H).
  apply lazy_star_split in H as (pre & s2 & -> & _ & H).
  apply lit_inv in H as (s3 & -> & H).
  apply plus_split in H as (sp1 & s4 & -> & Hsp1 & Hsp1' & H).
  apply plus_split in H as (w & s5 & -> & Hw & Hw' & H). cbn beta in H.
  rewrite take_app_exact in H.
  apply plus_split in H as (sp2 & s6 & -> & Hsp2 & Hsp2' & H).
  assert (∀ t, Re.lit t s6
                 (λ s' : string,
                    Re.star Re.is_space s'
                      (λ s'0 : string,
                         Re.star Re.is_any s'0
                           (λ s'1 : string,
                              Some ((([] ++ [w])
                                     ++ [Text.take (String.length s6 - String.length s') s6])
                                     ++ [Text.take (String.length s'0 - String.length s'1) s'0]))))
               = Some caps →
               ∃ rest g3, s6 = t +:+ rest ∧ caps = [w; t; g3]) as Hlit.
  { intros t Ht. apply lit_inv in Ht as (s7 & -> & Ht).
    apply star_inv in Ht as (s8 & Ht). apply star_inv in Ht as (s9 & Ht).
    rewrite take_app_exact in Ht. injection Ht as <-. eauto. }
  assert (∃ t rest g3, t ∈ ["START"; "DONE"; "FAIL"] ∧ s6 = t +:+ rest
                       ∧ caps = [w; t; g3]) as (t & rest & g3 & Ht & -> & ->).
  { destruct (Re.lit "START" s6 _) eqn:H1.
    { injection H as ->. apply Hlit in H1 as (rest & g3 & -> & ->).
      exists "START", rest, g3. split; [in_list | done]. }
    destruct (Re.lit "DONE" s6 _) eqn:H2.
    { injection H as ->. apply Hlit in H2 as (rest & g3 & -> & ->).
      exists "DONE", rest, g3. split; [in_list | done]. }
    apply Hlit in H as (rest & g3 & -> & ->).
    exists "FAIL", rest, g3. split; [in_list | done]. }
  intros [= <- <-]. exists pre, sp1, sp2, t, rest.
  repeat (split; [done |]). done.
Qed.

(** X15.  The reader takes a status only from a line of the entry
    format.  On any other line it leaves the statuses as they were; a
    line it takes is an opening bracket, some text, a closing bracket,
    blanks, a word, blanks, one of START, DONE and FAIL, and the rest,
    and it sets the status of the step named by the word to the
    outcome in lower case. *)
Theorem reader_matches_entry_lines_only steps line :
  Podcast.read_line steps line = steps
  ∨ ∃ pre sp1 name sp2 t rest,
      line = "[" +:+ pre +:+ "]" +:+ sp1 +:+ name +:+ sp2 +:+ t +:+ rest
      ∧ sp1 ≠ "" ∧ all_chars Re.is_space sp1 = true
      ∧ name ≠ "" ∧ all_chars Re.is_word name = true
      ∧ sp2 ≠ "" ∧ all_chars Re.is_space sp2 = true
      ∧ t ∈ ["START"; "DONE"; "FAIL"]
      ∧ Podcast.read_line steps line = <[name := Podcast.lower t]> steps.
Proof.
  rewrite read_line_parsed.
  destruct (parsed line) as [[name v]|] eqn:Hp; [right | by left].
  apply parsed_inv in Hp
    as (pre & sp1 & sp2 & t & rest & -> & H1 & H2 & H3 & H4 & H5 & H6 & H7 & ->).
  exists pre, sp1, name, sp2, t, rest. repeat (split; [done |]). done.
Qed.

(** ** Lines the reader passes over *)

Lemma unbracketed_split (a b a' b' : string) :
  a +:+ String "]" b = a' +:+ String "]" b' →
  unbracketed a → unbracketed b → a = a' ∧ b = b'.
Proof.
  unfold unbracketed. revert a'. induction a as [|c a IH]; intros a' Heq Ha Hb.
  - change ("" +:+ String "]" b) with (String "]" b) in Heq.
    destruct a' as [|c' a']; [by injection Heq |].
    rewrite string_app_cons in Heq. injection Heq as <- ->.
    rewrite all_chars_app in Hb. cbn in Hb. by rewrite andb_false_r in Hb.
  - cbn in Ha. apply andb_true_iff in Ha as [Hc Ha].
    destruct a' as [|c' a'].
    + change ("" +:+ String "]" b') with (String "]" b') in Heq.
      rewrite string_app_cons in Heq. injection Heq as -> _. done.
    + rewrite !string_app_cons in Heq. injection Heq as <- Heq.
      destruct (IH a' Heq Ha Hb) as [-> ->]. done.
Qed.

Lemma run_split_unique p (run run0 s' rest0 : string) :
  run +:+ s' = run0 +:+ rest0 →
  all_chars p run = true → all_chars p run0 = true →
  stops p s' → stops p rest0 → run = run0 ∧ s' = rest0.
Proof.
  revert run0. induction run as [|c run IH]; intros run0 Heq Hrun Hrun0 Hs Hr.
  - change ("" +:+ s') with s' in Heq.
    destruct run0 as [|c0 run0]; [done |].
    rewrite string_app_cons in Heq. subst s'. cbn in Hs, Hrun0.
    by rewrite Hs in Hrun0.
  - cbn in Hrun. apply andb_true_iff in Hrun as [Hc Hrun].
    destruct run0 as [|c0 run0].
    + change ("" +:+ rest0) with rest0 in Heq. rewrite string_app_cons in Heq.
      subst rest0. cbn in Hr. congruence.
    + rewrite !string_app_cons in Heq. injection Heq as <- Heq.
      cbn in Hrun0. apply andb_true_iff in Hrun0 as [_ Hrun0].
      destruct (IH run0 Heq Hrun Hrun0 Hs Hr) as [-> ->]. done.
Qed.

Lemma space_not_word c : Re.is_space c = true → Re.is_word c = false.
Proof.
  intros Hs. destruct (Re.is_word c) eqn:Hw; [| done].
  apply word_not_space in Hw. congruence.
Qed.

Lemma space_stops_word s z :
  s ≠ "" → all_chars Re.is_space s = true → stops Re.is_word (s +:+ z).
Proof.
  intros Hne Hs. destruct s as [|c s]; [done |].
  cbn in Hs. apply andb_true_iff in Hs as [Hc _].
  rewrite string_app_cons. cbn. by apply space_not_word.
Qed.

Lemma word_unbracketed s : all_chars Re.is_word s = true → unbracketed s.
Proof.
  apply all_chars_impl.
  intros [[|] [|] [|] [|] [|] [|] [|] [|]]; vm_compute; intros H;
    try discriminate H; done.
Qed.

Lemma stamp_unbracketed s : all_chars stamp_char s = true → unbracketed s.
Proof.
  apply all_chars_impl. intros c Hc. apply stamp_char_plain in Hc as (_ & Hne & _).
  by rewrite Ascii.eqb_sym, Hne.
Qed.

Lemma spaces_unbracketed n : unbracketed (Text.spaces n).
Proof. unfold unbracketed. induction n as [|n IH]; [done |]. cbn. exact IH. Qed.

(** The line of a SKIP call whose detail holds no closing bracket is not
    a line the reader takes. *)
Lemma skip_line_unparsed e :
  word (step e) → status e = "SKIP" → unbracketed (detail e) →
  parsed (line_body e) = None.
Proof.
  intros Hw Hst Hd.
  destruct (parsed (line_body e)) as [[name v]|] eqn:Hp; [exfalso | done].
  apply parsed_inv in Hp
    as (pre & sp1 & sp2 & t & rest & Hline & Hsp1 & Hsp1' & Hname & Hname'
        & Hsp2 & Hsp2' & Ht & _).
  rewrite line_body_shape, Hst in Hline.
  change ("[" +:+ ?x) with (String "[" x) in Hline.
  change ("]" +:+ ?x) with (String "]" x) in Hline.
  injection Hline as Hline.
  apply unbracketed_split in Hline as [_ Hline];
    [| apply stamp_unbracketed, strftime_chars |].
  2: { unfold unbracketed.
       change (String " " ?x) with (" " +:+ x).
       rewrite !all_chars_app.
       rewrite (word_unbracketed (step e)) by apply Hw. rewrite Hd.
       change (String " " (Text.spaces ?n)) with (Text.spaces (S n)).
       by rewrite spaces_unbracketed. }
  change (String " " ?x) with (" " +:+ x) in Hline.
  symmetry in Hline.
  apply (run_split_unique Re.is_space) in Hline as [_ Hline];
    [| done | done | | by apply word_stops_space].
  2: { destruct name as [|c name]; [done |].
       cbn in Hname'. apply andb_true_iff in Hname' as [Hc _].
       rewrite string_app_cons. cbn. by apply word_not_space. }
  apply (run_split_unique Re.is_word) in Hline as [_ Hline];
    [| done | apply Hw | by apply space_stops_word | exact eq_refl].
  apply (run_split_unique Re.is_space) in Hline as [_ Hline];
    [| done | apply (spaces_are_space (S _)) | by apply status_stops_space
     | exact eq_refl].
  cbv [String.append] in Hline.
  repeat (apply elem_of_cons in Ht as [-> | Ht]); try discriminate Hline.
  by apply elem_of_nil in Ht.
Qed.

(** ** The reader on the log of a run *)

Lemma read_line_entry steps e :
  word (step e) → status e ∈ ["START"; "DONE"; "FAIL"; "SKIP"] →
  (status e = "SKIP" → unbracketed (detail e)) →
  Podcast.read_line steps (line_body e) = record steps e.
Proof.
  intros Hw Hst Hd. rewrite read_line_parsed. unfold record.
  apply elem_of_cons in Hst as [Hs | Hst].
  { rewrite parsed_line_body by (done || rewrite Hs; in_list). by rewrite Hs. }
  apply elem_of_cons in Hst as [Hs | Hst].
  { rewrite parsed_line_body by (done || rewrite Hs; in_list). by rewrite Hs. }
  apply elem_of_cons in Hst as [Hs | Hst].
  { rewrite parsed_line_body by (done || rewrite Hs; in_list). by rewrite Hs. }
  apply list_elem_of_singleton in Hst.
  rewrite skip_line_unparsed by auto. by rewrite Hst.
Qed.

Lemma step_name_word name : name ∈ all_steps → word name.
Proof.
  unfold all_steps. intros H.
  repeat (apply elem_of_cons in H as [-> | H]); try (split; [done | reflexivity]).
  by apply elem_of_nil in H.
Qed.

Lemma read_log_empty : Podcast.read_log "" = ∅.
Proof. reflexivity. Qed.

Lemma pipeline_steps_text files :
  Podcast.pipeline_steps files
  = Podcast.read_log (default "" (files !! "publish.log")).
Proof. unfold Podcast.pipeline_steps. by destruct (files !! "publish.log"). Qed.

(** The statuses after the lines of the calls [es] were appended. *)
Lemma read_log_entries old es :
  old = "" ∨ (∃ body, old = body +:+ Text.nl) →
  Forall (λ e, step e ∈ all_steps
               ∧ status e ∈ ["START"; "DONE"; "FAIL"; "SKIP"]
               ∧ all_chars inline_char (detail e) = true
               ∧ (status e = "SKIP" → unbracketed (detail e))) es →
  Podcast.read_log (old +:+ cat (map format_line es))
  = foldl record (Podcast.read_log old) es.
Proof.
  intros Hold Hes. unfold Podcast.read_log. rewrite splitlines_entries.
  - rewrite foldl_app. generalize (foldl Podcast.read_line ∅ (Podcast.splitlines old)).
    induction Hes as [|e es (H1 & H2 & H3 & H4) _ IH]; intros m; [done |].
    cbn [map foldl]. rewrite read_line_entry by (done || by apply step_name_word).
    apply IH.
  - done.
  - eapply Forall_impl; [exact Hes |]. intros e (H1 & H2 & H3 & H4).
    split; [by apply step_name_inline |].
    split; [by apply outcome_name_inline | done].
Qed.

Lemma record_other m es name :
  (∀ e, e ∈ es → step e = name → status e = "SKIP") →
  foldl record m es !! name = m !! name.
Proof.
  revert m. induction es as [|e es IH]; intros m Hes; [done |].
  cbn [foldl]. rewrite IH by (intros e' He'; apply Hes; by right).
  unfold record. destruct (String.eqb (status e) "SKIP") eqn:Hs; [done |].
  apply String.eqb_neq in Hs.
  rewrite lookup_insert_ne; [done |]. intros Hname.
  apply Hs, Hes; [by left | done].
Qed.

Lemma record_last m es1 e es2 :
  status e ≠ "SKIP" →
  (∀ e', e' ∈ es2 → step e' = step e → status e' = "SKIP") →
  foldl record m (es1 ++ e :: es2) !! step e = Some (Podcast.lower (status e)).
Proof.
  intros Hs Hes2. rewrite foldl_app. cbn [foldl].
  rewrite record_other by done. unfold record.
  apply String.eqb_neq in Hs. rewrite Hs. apply lookup_insert_eq.
Qed.

(** A DONE or FAIL call is the last call of its step in a run. *)
Lemma final_call_is_last E tr n e :
  e ∈ trace_entries E tr n → status e = "DONE" ∨ status e = "FAIL" →
  ∃ es1 es2, trace_entries E tr n = es1 ++ e :: es2
             ∧ ∀ e', e' ∈ es2 → step e' ≠ step e.
Proof.
  unfold trace_entries. generalize all_steps_NoDup. generalize all_steps.
  intros names. revert n. induction names as [|a names IH]; intros n Hnd He Hs.
  { by apply elem_of_nil in He. }
  apply NoDup_cons in Hnd as [Ha Hnd]. cbn [entries_from] in *.
  apply elem_of_app in He as [He | He].
  - assert (∀ e', e' ∈ entries_from E tr
                         (n + length (entries_of E n a (outcome_of tr a))) names →
                  step e' ≠ a) as Hlater.
    { intros e' [Hin _]%elem_of_entries_from Heq. by rewrite Heq in Hin. }
    pose proof (entries_of_step _ _ _ _ _ He) as Hstep.
    destruct (outcome_of tr a) as [|why|start result|start message]; cbn in He.
    + by apply elem_of_nil in He.
    + apply list_elem_of_singleton in He as ->. cbn in Hs. by destruct Hs.
    + apply elem_of_cons in He as [-> | He]; [cbn in Hs; by destruct Hs |].
      apply list_elem_of_singleton in He as ->.
      eexists [_], _. split; [reflexivity |]. cbn. done.
    + apply elem_of_cons in He as [-> | He]; [cbn in Hs; by destruct Hs |].
      apply list_elem_of_singleton in He as ->.
      eexists [_], _. split; [reflexivity |]. cbn. done.
  - destruct (IH _ Hnd He Hs) as (es1 & es2 & Heq & Hes2).
    exists (entries_of E n a (outcome_of tr a) ++ es1), es2.
    split; [by rewrite Heq, app_assoc | done].
Qed.

(** X16.  The status route after a run.  On a log that does not exist
    yet or ends with a newline, if no detail the run logs holds a line
    break and no SKIP detail a closing bracket, then the statuses read
    from the log the run leaves are those read from the log it found,
    updated by its calls in order: a step whose evaluation ended with
    DONE reads done, one that ended with FAIL reads fail, and a step that
    was skipped or not evaluated keeps the status it had. *)
Theorem statuses_after_a_run E dir steps σ :
  let σ' := (publish_episode E dir steps σ).2 in
  let new := new_calls σ σ' in
  fs σ !! "publish.log" = None
  ∨ (∃ body, fs σ !! "publish.log" = Some (body +:+ Text.nl)) →
  (∀ e, e ∈ new → all_chars inline_char (detail e) = true) →
  (∀ e, e ∈ new → status e = "SKIP" → unbracketed (detail e)) →
  Podcast.pipeline_steps (fs σ')
  = foldl record (Podcast.pipeline_steps (fs σ)) new
  ∧ (∀ e, e ∈ new → status e = "DONE" →
          Podcast.pipeline_steps (fs σ') !! step e = Some "done")
  ∧ (∀ e, e ∈ new → status e = "FAIL" →
          Podcast.pipeline_steps (fs σ') !! step e = Some "fail")
  ∧ (∀ name, (∀ e, e ∈ new → step e = name → status e = "SKIP") →
             Podcast.pipeline_steps (fs σ') !! name
             = Podcast.pipeline_steps (fs σ) !! name).
Proof.
  cbn zeta. intros Hold Hinline Hskip.
  assert (Podcast.pipeline_steps (fs (publish_episode E dir steps σ).2)
          = foldl record (Podcast.pipeline_steps (fs σ))
              (new_calls σ (publish_episode E dir steps σ).2)) as Hread.
  { rewrite !pipeline_steps_text.
    rewrite (ev_log _ _ _ _ (run_evolves E dir steps σ)), log_after_text.
    apply read_log_entries.
    - destruct Hold as [-> | [body ->]]; [by left | right; by exists body].
    - apply Forall_forall. intros e He.
      destruct (run_entries_named E dir steps σ e He) as [Hstep Hst].
      repeat split; auto. }
  split; [exact Hread |]. rewrite Hread.
  assert (∀ e, e ∈ new_calls σ (publish_episode E dir steps σ).2 →
               status e = "DONE" ∨ status e = "FAIL" →
               foldl record (Podcast.pipeline_steps (fs σ))
                 (new_calls σ (publish_episode E dir steps σ).2) !! step e
               = Some (Podcast.lower (status e))) as Hfinal.
  { intros e He Hs.
    destruct (config_of E σ) as [[meta video]|] eqn:Hc;
      [| rewrite (publish_episode_silent E dir steps σ Hc) in He;
         by apply elem_of_nil in He].
    destruct (run_summary E dir steps σ meta video Hc) as (tr & _ & _ & Hnew).
    rewrite Hnew in He |- *.
    destruct (final_call_is_last _ _ _ _ He Hs) as (es1 & es2 & -> & Hes2).
    apply record_last.
    - by destruct Hs as [-> | ->].
    - intros e' He' Hstep. by destruct (Hes2 e' He'). }
  split; [| split].
  - intros e He Hs. rewrite Hfinal by auto. by rewrite Hs.
  - intros e He Hs. rewrite Hfinal by auto. by rewrite Hs.
  - intros name Hname. by apply record_other.
Qed.

(** X16 on the first run of the demo episode: all five steps read
    done. *)
Lemma statuses_after_a_run_witness :
  let σ' := (publish_episode Demo.E Demo.dir None Demo.fresh).2 in
  let new := new_calls Demo.fresh σ' in
  map (λ name, Podcast.pipeline_steps (fs σ') !! name) all_steps
  = [Some "done"; Some "done"; Some "done"; Some "done"; Some "done"]
  ∧ Podcast.pipeline_steps (fs σ')
    = foldl record (Podcast.pipeline_steps (fs Demo.fresh)) new
  ∧ (∀ e, e ∈ new → status e = "DONE" →
          Podcast.pipeline_steps (fs σ') !! step e = Some "done")
  ∧ (∀ e, e ∈ new → status e = "FAIL" →
          Podcast.pipeline_steps (fs σ') !! step e = Some "fail")
  ∧ (∀ name, (∀ e, e ∈ new → step e = name → status e = "SKIP") →
             Podcast.pipeline_steps (fs σ') !! name
             = Podcast.pipeline_steps (fs Demo.fresh) !! name).
Proof.
  cbn zeta. split; [vm_compute; reflexivity |].
  apply (statuses_after_a_run Demo.E Demo.dir None Demo.fresh).
  - left. vm_compute. reflexivity.
  - assert (forallb (λ e, all_chars inline_char (detail e))
              (new_calls Demo.fresh
                 (publish_episode Demo.E Demo.dir None Demo.fresh).2) = true)
      as HF by (vm_compute; reflexivity).
    rewrite forallb_forall in HF.
    intros e He. by apply HF, list_elem_of_In.
  - assert (forallb (λ e, negb (String.eqb (status e) "SKIP"))
              (new_calls Demo.fresh
                 (publish_episode Demo.E Demo.dir None Demo.fresh).2) = true)
      as HF by (vm_compute; reflexivity).
    rewrite forallb_forall in HF.
    intros e He Hs. apply list_elem_of_In, HF in He. rewrite Hs in He.
    discriminate He.
Defined.

(** * [tools/ingest_youtube.py]: slugs and episode numbers *)

(** ** The stages of [slugify] *)

Ltac each_char c :=
  destruct c as [[] [] [] [] [] [] [] []]; vm_compute; (reflexivity || discriminate || tauto).

Lemma lower_char_idem c :
  Ingest.lower_char (Ingest.lower_char c) = Ingest.lower_char c.
Proof. each_char c. Qed.

Lemma hyphen_plain c :
  Ingest.is_hyphen c = true →
  c = "-"%char ∧ Re.is_space c = false ∧ Ingest.is_underscore c = false
  ∧ Ingest.lower_char c = c.
Proof.
  unfold Ingest.is_hyphen. intros ->%Ascii.eqb_eq. by vm_compute.
Qed.

Lemma lower_lowered s :
  all_chars (λ c, Ascii.eqb (Ingest.lower_char c) c) (Ingest.lower s) = true.
Proof.
  induction s as [|c s IH]; [done |]. cbn.
  by rewrite lower_char_idem, Ascii.eqb_refl.
Qed.

Lemma lower_fixed s :
  all_chars (λ c, Ascii.eqb (Ingest.lower_char c) c) s = true →
  Ingest.lower s = s.
Proof.
  induction s as [|c s IH]; [done |]. cbn.
  intros [->%Ascii.eqb_eq Hs]%andb_true_iff. by rewrite IH.
Qed.

Lemma lstrip_chars p q s :
  all_chars q s = true → all_chars q (Ingest.lstrip p s) = true.
Proof.
  induction s as [|c s IH]; [done |]. cbn [Ingest.lstrip].
  destruct (p c); [| done]. cbn. intros [_ Hs]%andb_true_iff. auto.
Qed.

Lemma rstrip_chars p q s :
  all_chars q s = true → all_chars q (Ingest.rstrip p s) = true.
Proof.
  induction s as [|c s IH]; [done |]. cbn [Ingest.rstrip all_chars].
  intros [Hc Hs]%andb_true_iff. specialize (IH Hs).
  destruct (Ingest.rstrip p s) as [|c' r].
  - destruct (p c); [done |]. cbn. by rewrite Hc.
  - change (q c && all_chars q (String c' r) = true). by rewrite Hc, IH.
Qed.

Lemma strip_chars p q s :
  all_chars q s = true → all_chars q (Ingest.strip p s) = true.
Proof. intros Hs. by apply rstrip_chars, lstrip_chars. Qed.

Lemma keep_chars_chars k q s :
  all_chars q s = true →
  all_chars (λ c, k c && q c) (Ingest.keep_chars k s) = true.
Proof.
  induction s as [|c s IH]; [done |]. cbn [Ingest.keep_chars all_chars].
  intros [Hc Hs]%andb_true_iff. destruct (k c) eqn:Hk; [| auto].
  cbn. by rewrite Hk, Hc, IH.
Qed.

Lemma squeeze_chars p q b s :
  q "-"%char = true → all_chars (λ c, p c || q c) s = true →
  all_chars q (Ingest.squeeze p b s) = true.
Proof.
  intros Hq. revert b. induction s as [|c s IH]; intros b; [done |].
  cbn [Ingest.squeeze all_chars]. intros [Hc Hs]%andb_true_iff.
  destruct (p c) eqn:Hp.
  - destruct b; [by apply IH |]. cbn. by rewrite Hq, IH.
  - cbn in Hc. cbn. by rewrite Hc, IH.
Qed.

Lemma take_chars q n s :
  all_chars q s = true → all_chars q (Text.take n s) = true.
Proof.
  revert s. induction n as [|n IH]; intros [|c s]; try done. cbn.
  intros [Hc Hs]%andb_true_iff. by rewrite Hc, IH.
Qed.

(** ** Hyphens *)

Lemma single_hyphens_cons c s :
  single_hyphens (String c s) = true ↔
  single_hyphens s = true
  ∧ (Ingest.is_hyphen c = true → first_char s ≠ Some "-"%char).
Proof.
  destruct s as [|c' s]; [cbn; naive_solver |].
  cbn [single_hyphens first_char]. rewrite andb_true_iff, negb_true_iff.
  rewrite andb_false_iff. unfold Ingest.is_hyphen at 2.
  split.
  - intros [[Hc | Hc'] Hs]; (split; [done |]).
    + by rewrite Hc.
    + intros _ [= ->]. by vm_compute in Hc'.
  - intros [Hs Hc]. split; [| done].
    destruct (Ingest.is_hyphen c); [| by left]. right.
    apply Ascii.eqb_neq. intros ->. by apply Hc.
Qed.

Lemma squeeze_hyphens b s :
  single_hyphens (Ingest.squeeze Ingest.is_hyphen b s) = true
  ∧ (b = true →
     first_char (Ingest.squeeze Ingest.is_hyphen b s) ≠ Some "-"%char).
Proof.
  revert b. induction s as [|c s IH]; intros b; [done |].
  cbn [Ingest.squeeze]. destruct (Ingest.is_hyphen c) eqn:Hc.
  - destruct b; [apply IH |]. split; [| done].
    apply single_hyphens_cons. split; [apply IH |]. intros _. by apply IH.
  - split.
    + apply single_hyphens_cons. split; [apply IH |]. by rewrite Hc.
    + intros _ [= ->]. by vm_compute in Hc.
Qed.

Lemma take_hyphens n s :
  single_hyphens s = true → single_hyphens (Text.take n s) = true.
Proof.
  revert s. induction n as [|n IH]; intros [|c s]; try done.
  cbn [Text.take]. rewrite !single_hyphens_cons. intros [Hs Hc].
  split; [by apply IH |]. intros Hh. specialize (Hc Hh).
  destruct n, s; done.
Qed.

Lemma lstrip_hyphens p s :
  single_hyphens s = true → single_hyphens (Ingest.lstrip p s) = true.
Proof.
  induction s as [|c s IH]; [done |]. cbn [Ingest.lstrip].
  destruct (p c); [| done]. intros [Hs _]%single_hyphens_cons. auto.
Qed.

Lemma rstrip_first p s c :
  first_char (Ingest.rstrip p s) = Some c → first_char s = Some c.
Proof.
  destruct s as [|a s]; [done |]. cbn [Ingest.rstrip].
  destruct (Ingest.rstrip p s); [by destruct (p a) | done].
Qed.

Lemma rstrip_hyphens p s :
  single_hyphens s = true → single_hyphens (Ingest.rstrip p s) = true.
Proof.
  induction s as [|c s IH]; [done |]. intros [Hs Hc]%single_hyphens_cons.
  cbn [Ingest.rstrip]. specialize (IH Hs).
  destruct (Ingest.rstrip p s) as [|c' r] eqn:Hr; [by destruct (p c) |].
  apply single_hyphens_cons. split; [done |].
  intros Hh Hfirst. apply (Hc Hh). apply (rstrip_first p). by rewrite Hr.
Qed.

(** ** The ends of a stripped text *)

Lemma lstrip_first p s c :
  first_char (Ingest.lstrip p s) = Some c → p c = false.
Proof.
  induction s as [|a s IH]; [done |]. cbn [Ingest.lstrip].
  destruct (p a) eqn:Ha; [done |]. by intros [= <-].
Qed.

Lemma rstrip_last p s c :
  last_char (Ingest.rstrip p s) = Some c → p c = false.
Proof.
  induction s as [|a s IH]; [done |]. cbn [Ingest.rstrip].
  destruct (Ingest.rstrip p s) as [|c' r].
  - destruct (p a) eqn:Ha; [done |]. by intros [= <-].
  - exact IH.
Qed.

Lemma lstrip_length p s :
  String.length (Ingest.lstrip p s) ≤ String.length s.
Proof.
  induction s as [|a s IH]; [done |]. cbn [Ingest.lstrip].
  destruct (p a); cbn; lia.
Qed.

Lemma rstrip_length p s :
  String.length (Ingest.rstrip p s) ≤ String.length s.
Proof.
  induction s as [|a s IH]; [done |]. cbn [Ingest.rstrip].
  destruct (Ingest.rstrip p s); [destruct (p a) |]; cbn in *; lia.
Qed.

Lemma lstrip_id p s :
  (∀ c, first_char s = Some c → p c = false) → Ingest.lstrip p s = s.
Proof.
  destruct s as [|a s]; [done |]. intros H. cbn. by rewrite (H a).
Qed.

Lemma rstrip_id p s :
  (∀ c, last_char s = Some c → p c = false) → Ingest.rstrip p s = s.
Proof.
  induction s as [|a s IH]; [done |]. intros H. cbn [Ingest.rstrip].
  destruct s as [|b s]; [cbn; by rewrite (H a) |].
  rewrite IH by exact H. done.
Qed.

Lemma strip_id p s :
  (∀ c, first_char s = Some c → p c = false) →
  (∀ c, last_char s = Some c → p c = false) →
  Ingest.strip p s = s.
Proof.
  intros Hf Hl. unfold Ingest.strip. rewrite lstrip_id by done.
  by apply rstrip_id.
Qed.

Lemma first_char_all q s c :
  all_chars q s = true → first_char s = Some c → q c = true.
Proof. destruct s; [done |]. cbn. by intros [? _]%andb_true_iff [= <-]. Qed.

Lemma last_char_all q s c :
  all_chars q s = true → last_char s = Some c → q c = true.
Proof.
  induction s as [|a s IH]; [done |]. cbn [all_chars].
  intros [Ha Hs]%andb_true_iff. destruct s as [|b s]; [by intros [= <-] |].
  by apply IH.
Qed.

Lemma keep_chars_id k s :
  all_chars k s = true → Ingest.keep_chars k s = s.
Proof.
  induction s as [|a s IH]; [done |]. cbn.
  intros [-> Hs]%andb_true_iff. by rewrite IH.
Qed.

Lemma squeeze_none p b s :
  all_chars (λ c, negb (p c)) s = true → Ingest.squeeze p b s = s.
Proof.
  revert b. induction s as [|a s IH]; intros b; [done |]. cbn.
  intros [Ha%negb_true_iff Hs]%andb_true_iff. by rewrite Ha, IH.
Qed.

Lemma squeeze_hyphens_id b s :
  single_hyphens s = true →
  (b = true → first_char s ≠ Some "-"%char) →
  Ingest.squeeze Ingest.is_hyphen b s = s.
Proof.
  revert b. induction s as [|a s IH]; intros b; [done |].
  intros [Hs Ha]%single_hyphens_cons Hb. cbn [Ingest.squeeze].
  destruct (Ingest.is_hyphen a) eqn:Hh.
  - destruct (hyphen_plain a Hh) as [-> _].
    destruct b; [by destruct Hb |]. rewrite IH; auto.
  - rewrite IH; [done | done | done].
Qed.

(** ** The shape of a slug *)

Ltac char_cases c :=
  destruct c as [[] [] [] [] [] [] [] []]; vm_compute; intros;
  first [discriminate | repeat split; reflexivity].

Lemma kept_char_slug c :
  (Re.is_word c || Re.is_space c || Ingest.is_hyphen c)
  && Ascii.eqb (Ingest.lower_char c) c = true →
  (Re.is_space c || Ingest.is_underscore c) || slug_char c = true.
Proof. char_cases c. Qed.

Lemma slug_char_facts c :
  slug_char c = true →
  Ascii.eqb (Ingest.lower_char c) c = true
  ∧ Re.is_space c = false
  ∧ Re.is_word c || Re.is_space c || Ingest.is_hyphen c = true
  ∧ negb (Re.is_space c || Ingest.is_underscore c) = true
  ∧ negb (Re.is_space c) && negb (Text.mem c "/\._") = true.
Proof. char_cases c. Qed.

Lemma slugify_shaped text : slug_shaped (Ingest.slugify text).
Proof.
  unfold Ingest.slugify.
  set (s1 := Ingest.strip Re.is_space (Ingest.lower text)).
  set (s2 := Ingest.keep_chars _ s1).
  set (s3 := Ingest.squeeze _ false s2).
  set (s4 := Ingest.squeeze Ingest.is_hyphen false s3).
  assert (all_chars slug_char s3 = true) as H3.
  { apply squeeze_chars; [reflexivity |].
    eapply all_chars_impl; [exact kept_char_slug |].
    apply keep_chars_chars, strip_chars, lower_lowered. }
  assert (all_chars slug_char s4 = true) as H4.
  { apply squeeze_chars; [reflexivity |].
    eapply all_chars_impl; [| exact H3]. intros c ->. apply orb_true_r. }
  pose proof (proj1 (squeeze_hyphens false s3)) as Hh. fold s4 in Hh.
  split.
  - etrans; [apply rstrip_length |]. etrans; [apply lstrip_length |].
    apply take_length_le.
  - by apply strip_chars, take_chars.
  - by apply rstrip_hyphens, lstrip_hyphens, take_hyphens.
  - intros Hf%rstrip_first%lstrip_first. discriminate Hf.
  - intros Hl%rstrip_last. discriminate Hl.
Qed.


(** X18.  A text that has the shape of a slug is its own slug, and so
    [slugify] applied to a slug changes nothing. *)
Theorem slugify_fixes_slugs :
  (∀ r, slug_shaped r → Ingest.slugify r = r)
  ∧ (∀ text, Ingest.slugify (Ingest.slugify text) = Ingest.slugify text).
Proof.
  assert (∀ r, slug_shaped r → Ingest.slugify r = r) as Hfix.
  { intros r [Hlen Hchars Hh Hfirst Hlast]. unfold Ingest.slugify.
    assert (∀ q : ascii → bool,
              (∀ c, slug_char c = true → q c = true) → all_chars q r = true)
      as Hall.
    { intros q Hq. by eapply all_chars_impl. }
    rewrite lower_fixed
      by (apply Hall; intros c Hc; by apply slug_char_facts in Hc as (? & _)).
    assert (all_chars (λ c, negb (Re.is_space c)) r = true) as Hblank.
    { apply Hall. intros c Hc. apply slug_char_facts in Hc as (_ & -> & _).
      done. }
    rewrite (strip_id Re.is_space r).
    2: { intros c Hc. by apply (first_char_all _ _ _ Hblank), negb_true_iff in Hc. }
    2: { intros c Hc. by apply (last_char_all _ _ _ Hblank), negb_true_iff in Hc. }
    rewrite keep_chars_id
      by (apply Hall; intros c Hc;
          by apply slug_char_facts in Hc as (_ & _ & ? & _)).
    rewrite (squeeze_none (λ c, Re.is_space c || Ingest.is_underscore c) false r)
      by (apply Hall; intros c Hc;
          by apply slug_char_facts in Hc as (_ & _ & _ & ? & _)).
    rewrite squeeze_hyphens_id by done.
    rewrite take_short by done.
    apply strip_id; intros c Hc; destruct (Ingest.is_hyphen c) eqn:Hhy;
      try done; apply hyphen_plain in Hhy as [-> _]; congruence. }
  split; [exact Hfix |]. intros text. apply Hfix, slugify_shaped.
Qed.

(** X18 on a slug given by hand. *)
Lemma slugify_fixes_slugs_witness :
  Ingest.slugify "my-first-episode" = "my-first-episode".
Proof.
  apply (proj1 slugify_fixes_slugs).
  split; [vm_compute; lia | vm_compute; reflexivity | vm_compute; reflexivity
         | by vm_compute | by vm_compute].
Defined.

(** ** Decimal numbers *)

Local Open Scope N_scope.

Lemma int_digits_app acc (a b : string) :
  Ingest.int_digits acc (a +:+ b)
  = Ingest.int_digits (Ingest.int_digits acc a) b.
Proof.
  revert acc. induction a as [|c a IH]; intros acc; [done |].
  rewrite string_app_cons. cbn [Ingest.int_digits]. apply IH.
Qed.

Lemma pretty_N_char_value k :
  k < 10 → N_of_ascii (pretty_N_char k) - 48 = k.
Proof.
  intros Hk.
  assert (k = 0 ∨ k = 1 ∨ k = 2 ∨ k = 3 ∨ k = 4 ∨ k = 5 ∨ k = 6 ∨ k = 7
          ∨ k = 8 ∨ k = 9) as Hcases by lia.
  repeat (destruct Hcases as [-> | Hcases]; [reflexivity |]).
  by rewrite Hcases.
Qed.

Lemma pretty_N_char_digit k : Ingest.is_digit (pretty_N_char k) = true.
Proof. unfold pretty_N_char. by repeat case_match. Qed.

Lemma pretty_N_go_app x s : pretty_N_go x s = pretty_N_go x "" +:+ s.
Proof.
  revert s. induction (N.lt_wf_0 x) as [x _ IH]; intros s.
  destruct (decide (x = 0)) as [-> | Hx]; [by rewrite !pretty_N_go_0 |].
  rewrite !(pretty_N_go_step x) by lia.
  rewrite (IH (x `div` 10)) by (apply N.div_lt; lia).
  rewrite (IH (x `div` 10) ltac:(apply N.div_lt; lia) (String _ "")).
  by rewrite string_app_assoc.
Qed.

Lemma int_digits_pretty_go x : Ingest.int_digits 0 (pretty_N_go x "") = x.
Proof.
  induction (N.lt_wf_0 x) as [x _ IH].
  destruct (decide (x = 0)) as [-> | Hx]; [by rewrite pretty_N_go_0 |].
  rewrite pretty_N_go_step, pretty_N_go_app by lia.
  rewrite int_digits_app, IH by (apply N.div_lt; lia).
  cbn [Ingest.int_digits].
  rewrite pretty_N_char_value by (apply N.mod_lt; lia).
  pose proof (N.div_mod x 10). lia.
Qed.

Lemma int_digits_pretty (n : N) : Ingest.int_digits 0 (pretty n) = n.
Proof.
  unfold pretty, pretty_N. case_decide as Hn; [by rewrite Hn |].
  apply int_digits_pretty_go.
Qed.

Lemma pretty_N_go_all_digits x s :
  all_chars Ingest.is_digit s = true →
  all_chars Ingest.is_digit (pretty_N_go x s) = true.
Proof.
  revert s. induction (N.lt_wf_0 x) as [x _ IH]; intros s Hs.
  destruct (decide (x = 0)) as [-> | Hx]; [by rewrite pretty_N_go_0 |].
  rewrite pretty_N_go_step by lia. apply IH; [apply N.div_lt; lia |].
  cbn [all_chars]. by rewrite pretty_N_char_digit, Hs.
Qed.

Lemma pretty_N_all_digits (n : N) :
  all_chars Ingest.is_digit (pretty n) = true ∧ pretty n ≠ "".
Proof.
  unfold pretty, pretty_N. case_decide as Hn; [done |].
  split; [by apply pretty_N_go_all_digits |].
  rewrite pretty_N_go_step by lia. rewrite pretty_N_go_app.
  by destruct (pretty_N_go (n `div` 10) "").
Qed.

Lemma fmt_03d_digits n :
  all_chars Ingest.is_digit (Ingest.fmt_03d n) = true
  ∧ Ingest.fmt_03d n ≠ ""
  ∧ Ingest.int_digits 0 (Ingest.fmt_03d n) = n.
Proof.
  unfold Ingest.fmt_03d. destruct (pretty_N_all_digits n) as [Hd Hne].
  generalize (3 - String.length (pretty n))%nat. intros k.
  induction k as [|k (IH1 & IH2 & IH3)].
  - change (Ingest.zeros 0 +:+ pretty n) with (pretty n).
    by rewrite int_digits_pretty.
  - cbn [Ingest.zeros]. rewrite string_app_cons. cbn. done.
Qed.

Local Close Scope N_scope.

(** ** The number in a directory name *)

(** A name that is [ep], digits, and a rest that does not go on with a
    digit carries the number the digits spell. *)
Lemma episode_number_spelled ds rest :
  ds ≠ "" → all_chars Ingest.is_digit ds = true → stops Ingest.is_digit rest →
  Ingest.episode_number ("ep" +:+ ds +:+ rest)
  = Some (Ingest.int_digits 0 ds).
Proof.
  intros Hne Hds Hstop. unfold Ingest.episode_number, Re.re_match.
  unfold Ingest.ep_pattern. cbn [Re.run].
  rewrite lit_app.
  rewrite (plus_run Ingest.is_digit ds rest _ [ds]); [reflexivity | done | done | done |].
  cbn beta. by rewrite take_app_exact.
Qed.

Lemma max_of_upper k numbers : k ∈ numbers → (k ≤ Ingest.max_of numbers)%N.
Proof.
  induction numbers as [|a numbers IH]; [by intros ?%elem_of_nil |].
  change (Ingest.max_of (a :: numbers))
    with (N.max a (Ingest.max_of numbers)).
  intros [-> | Hk%IH]%elem_of_cons; lia.
Qed.

Lemma max_of_member numbers :
  Ingest.max_of numbers = 0%N ∨ Ingest.max_of numbers ∈ numbers.
Proof.
  induction numbers as [|a numbers IH]; [by left |].
  change (Ingest.max_of (a :: numbers))
    with (N.max a (Ingest.max_of numbers)). right.
  destruct (N.max_spec a (Ingest.max_of numbers)) as [[Hlt ->] | [_ ->]].
  - destruct IH as [H0 | IH]; [lia | by right].
  - by left.
Qed.

Lemma elem_of_numbers_in_use listing k :
  k ∈ numbers_in_use listing
  ↔ ∃ name files, listing !! name = Some (Dir files)
                  ∧ Text.starts_with_dot name = false
                  ∧ Ingest.episode_number name = Some k.
Proof.
  unfold numbers_in_use. rewrite list_elem_of_omap. split.
  - intros ([name files] & Hin & Hk). exists name, files.
    apply list_elem_of_omap in Hin as ([n nd] & Hin & Hv).
    apply elem_of_map_to_list in Hin. unfold RssFeed.visible_dir in Hv.
    cbn in Hv. destruct nd as [c|fls]; [done |].
    destruct (Text.starts_with_dot n) eqn:Hdot; [done |].
    by injection Hv as -> ->.
  - intros (name & files & Hl & Hdot & Hk). exists (name, files).
    split; [| done]. apply list_elem_of_omap. exists (name, Dir files).
    split; [by apply elem_of_map_to_list |].
    unfold RssFeed.visible_dir. cbn. by rewrite Hdot.
Qed.

(** ** The next episode number *)

Lemma dir_name_number k slug :
  Ingest.episode_number (Ingest.dir_name k slug) = Some k.
Proof.
  destruct (fmt_03d_digits k) as (Hd & Hne & Hk).
  unfold Ingest.dir_name.
  rewrite (episode_number_spelled (Ingest.fmt_03d k) ("-" +:+ slug));
    [by rewrite Hk | done | done | reflexivity].
Qed.

Lemma dir_name_visible k slug :
  Text.starts_with_dot (Ingest.dir_name k slug) = false.
Proof. reflexivity. Qed.

Lemma next_number_in_listing w listing :
  episodes w = Some listing →
  Ingest.get_next_episode_number w
  = (Ingest.max_of (numbers_in_use listing) + 1)%N.
Proof. unfold Ingest.get_next_episode_number. by intros ->. Qed.

(** X19.  The number [get_next_episode_number] gives is new.  It is at
    least 1, and 1 without [episodes/]; it is greater than the number of
    every visible directory named [ep<digits>...] and one more than the
    greatest of them, if there is one.  The name [main] builds from a
    number and a slug is read back with that number, whatever the slug, so
    no visible directory has the name built from the next number. *)
Theorem next_episode_number_is_fresh w :
  let n := Ingest.get_next_episode_number w in
  (1 ≤ n)%N
  ∧ (episodes w = None → n = 1%N)
  ∧ (∀ k slug, Ingest.episode_number (Ingest.dir_name k slug) = Some k)
  ∧ ∀ listing, episodes w = Some listing →
      (∀ k, k ∈ numbers_in_use listing → (k < n)%N)
      ∧ (n = 1%N ∨ (n - 1)%N ∈ numbers_in_use listing)
      ∧ ∀ slug files, listing !! Ingest.dir_name n slug ≠ Some (Dir files).
Proof.
  cbn zeta. split; [| split; [| split]].
  - unfold Ingest.get_next_episode_number. destruct (episodes w); lia.
  - unfold Ingest.get_next_episode_number. by intros ->.
  - exact dir_name_number.
  - intros listing Hl. rewrite (next_number_in_listing w listing Hl).
    assert (∀ k, k ∈ numbers_in_use listing →
                 (k < Ingest.max_of (numbers_in_use listing) + 1)%N) as Hup.
    { intros k Hk%max_of_upper. lia. }
    split; [exact Hup | split].
    + destruct (max_of_member (numbers_in_use listing)) as [-> | Hin];
        [by left | right].
      by replace (Ingest.max_of (numbers_in_use listing) + 1 - 1)%N
        with (Ingest.max_of (numbers_in_use listing)) by lia.
    + intros slug files Hdir.
      set (n := (Ingest.max_of (numbers_in_use listing) + 1)%N) in *.
      assert (n ∈ numbers_in_use listing) as Hn.
      { apply elem_of_numbers_in_use.
        exists (Ingest.dir_name n slug), files.
        split; [done |]. split; [apply dir_name_visible |].
        apply dir_name_number. }
      apply Hup in Hn. lia.
Qed.

(** X20.  Numbers count up.  Once the directory [main] names from the
    next number is in [episodes/] (which is created if it was missing),
    the next number is one more. *)
Theorem ingest_numbers_count_up w w' slug files :
  let n := Ingest.get_next_episode_number w in
  episodes w'
  = Some (<[Ingest.dir_name n slug := Dir files]> (default ∅ (episodes w))) →
  Ingest.get_next_episode_number w' = (n + 1)%N.
Proof.
  cbn zeta. intros Hl'. rewrite (next_number_in_listing w' _ Hl').
  set (n := Ingest.get_next_episode_number w).
  set (listing := default ∅ (episodes w)).
  set (listing' := <[Ingest.dir_name n slug := Dir files]> listing).
  assert (∀ k, k ∈ numbers_in_use listing → (k < n)%N) as Hold.
  { intros k Hk. unfold n, listing in *.
    destruct (episodes w) as [l|] eqn:Hl.
    - rewrite (next_number_in_listing w l Hl). cbn in Hk.
      apply max_of_upper in Hk. lia.
    - cbn in Hk. apply elem_of_numbers_in_use in Hk as (? & ? & Hk & _).
      by rewrite lookup_empty in Hk. }
  assert (n ∈ numbers_in_use listing') as Hn.
  { apply elem_of_numbers_in_use. exists (Ingest.dir_name n slug), files.
    split; [apply lookup_insert_eq |].
    split; [apply dir_name_visible | apply dir_name_number]. }
  apply max_of_upper in Hn.
  destruct (max_of_member (numbers_in_use listing')) as [H0 | Hin]; [lia |].
  apply elem_of_numbers_in_use in Hin as (name & fls & Hname & Hdot & Hnum).
  destruct (decide (name = Ingest.dir_name n slug)) as [-> | Hne].
  - rewrite dir_name_number in Hnum. injection Hnum as Hnum. lia.
  - unfold listing' in Hname. rewrite lookup_insert_ne in Hname by done.
    assert (Ingest.max_of (numbers_in_use listing') ∈ numbers_in_use listing)
      as Hin.
    { apply elem_of_numbers_in_use. by exists name, fls. }
    apply Hold in Hin. lia.
Qed.

(** X20 on a listing with two episodes and a file: the third episode
    makes the next number 4. *)
Lemma ingest_numbers_count_up_witness :
  let listing : gmap string node :=
    {[ "ep001-a" := Dir ∅; "ep002-b" := Dir ∅; "ep009.txt" := File "" ]} in
  Ingest.get_next_episode_number (Workspace "/repo" None (Some listing)) = 3%N
  ∧ Ingest.get_next_episode_number
      (Workspace "/repo" None (Some (<["ep003-third" := Dir ∅]> listing)))
    = 4%N.
Proof.
  cbn zeta. split; [vm_compute; reflexivity |].
  etrans.
  - apply (ingest_numbers_count_up
             (Workspace "/repo" None
                (Some {[ "ep001-a" := Dir ∅; "ep002-b" := Dir ∅;
                         "ep009.txt" := File "" ]}))
             (Workspace "/repo" None
                (Some (<["ep003-third" := Dir ∅]>
                         {[ "ep001-a" := Dir ∅; "ep002-b" := Dir ∅;
                            "ep009.txt" := File "" ]})))
             "third" ∅).
    vm_compute. reflexivity.
  - vm_compute. reflexivity.
Defined.
